(** * OpenBR pipeline engine: composition parser, batch apply, per-channel
      adapter, downsampling and the multi-stage streaming executor.

    The development embeds the relevant C++ of [sdk/openbr_plugin.cpp] and of
    the stream plugin kept in [openbr/openbr.h] as Rocq functions and
    transition systems, and states the properties of the design document
    against them. *)

From Stdlib Require Import ZArith QArith Lia List String Ascii Bool.
From stdpp Require Import base option list sorting gmap strings pretty.
Import ListNotations.
Local Close Scope Q_scope.
Local Open Scope Z_scope.

(** ** Qt containers *)

(** [QList::mid(pos, length)]: a negative length, or one that runs past the
    end, means "everything from [pos]". *)
Definition QList_mid {A} (l : list A) (pos : nat) (length : Z) : list A :=
  if (length <? 0) || (Z.of_nat (List.length l) <? Z.of_nat pos + length)
  then drop pos l
  else take (Z.to_nat length) (drop pos l).

(** [std::numeric_limits<int>::max()] *)
Definition INT_MAX : Z := 2147483647.

(** ** Item model: QVariant, File, Template, FrameData *)

Inductive QVariant :=
| QNull
| QStr (s : string)
| QInt (z : Z).

Global Instance QVariant_eq_dec : EqDecision QVariant.
Proof. solve_decision. Defined.

Definition digit_of (c : ascii) : option Z :=
  let n := Z.of_nat (nat_of_ascii c) in
  if (48 <=? n) && (n <=? 57) then Some (n - 48) else None.

Fixpoint digits_toInt (s : string) (acc : Z) : option Z :=
  match s with
  | EmptyString => Some acc
  | String c s' =>
      match digit_of c with
      | Some d => digits_toInt s' (10 * acc + d)
      | None => None
      end
  end.

(** [QString::toInt(&ok)]: an optionally signed decimal numeral. *)
Definition QString_toInt (s : string) : option Z :=
  match s with
  | EmptyString => None
  | String "-"%char EmptyString => None
  | String "-"%char s' => Z.opp <$> digits_toInt s' 0
  | _ => digits_toInt s 0
  end.

Definition QVariant_isNull (v : QVariant) : bool :=
  match v with QNull => true | _ => false end.

Definition QVariant_toString (v : QVariant) : string :=
  match v with
  | QNull => ""
  | QStr s => s
  | QInt z => pretty z
  end.

Definition QVariant_toInt (v : QVariant) : option Z :=
  match v with
  | QNull => None
  | QStr s => QString_toInt s
  | QInt z => Some z
  end.

(** The process-wide context [Globals]: its reflected properties and the
    table of subject classes. *)
Record Context := {
  Globals_properties : gmap string QVariant;
  Globals_classes : gmap string Z
}.

Record File := {
  name : string;
  m_metadata : gmap string QVariant
}.

Definition File_new (n : string) : File := {| name := n; m_metadata := ∅ |}.

Definition File_contains (Globals : Context) (f : File) (key : string) : bool :=
  bool_decide (is_Some (m_metadata f !! key))
  || bool_decide (is_Some (Globals_properties Globals !! key)).

Definition File_value (Globals : Context) (f : File) (key : string) : QVariant :=
  match m_metadata f !! key with
  | Some v => v
  | None => default QNull (Globals_properties Globals !! key)
  end.

Definition File_insert (f : File) (key : string) (v : QVariant) : File :=
  {| name := name f; m_metadata := <[key := v]> (m_metadata f) |}.

Definition File_getBool (Globals : Context) (f : File) (key : string) : bool :=
  if negb (File_contains Globals f key) then false
  else
    let v := QVariant_toString (File_value Globals f key) in
    if bool_decide (v = "") || bool_decide (v = "true") then true
    else if bool_decide (v = "false") then false
    else negb (bool_decide (default 0 (QString_toInt v) = 0)).

Definition File_setBool (f : File) (key : string) (value : bool) : File :=
  if value
  then {| name := name f; m_metadata := <[key := QNull]> (m_metadata f) |}
  else {| name := name f; m_metadata := delete key (m_metadata f) |}.

(** The conversions of Qt and of C++ that [File::label] goes through:
    [QVariant::toFloat(&ok)], which gives the value when [ok], and the
    conversion of an [int] to [float].  A [float] is the rational that it
    stands for. *)
Record FloatConversions := {
  QVariant_toFloat : QVariant -> option Q;
  float_of_int : Z -> Q
}.

(** [File::label]: the value under "Label", through the class table when it
    names a subject, read as a number otherwise; [-1] when there is none. *)
Definition File_label (conv : FloatConversions) (Globals : Context) (f : File) : Q :=
  let variant := File_value Globals f "Label" in
  if QVariant_isNull variant then inject_Z (-1)
  else match Globals_classes Globals !! QVariant_toString variant with
       | Some c => float_of_int conv c
       | None => default (inject_Z (-1)) (QVariant_toFloat conv variant)
       end.

(** A [float] narrowed to [int], as [labels<int>()] does with every label:
    the fraction is dropped. *)
Definition narrow (x : Q) : Z := Z.quot (Qnum x) (Z.pos (Qden x)).

(** What [File::label] reads, narrowed to [int], on an item whose "Label"
    has been rewritten to [k]. *)
Definition relabelled (conv : FloatConversions) (Globals : Context) (k : nat) : Z :=
  narrow (File_label conv Globals (File_insert (File_new "") "Label" (QInt (Z.of_nat k)))).

(** [File::append(const QHash&)]: every key of [metadata] is inserted. *)
Definition File_append_metadata (f : File) (metadata : gmap string QVariant) : File :=
  {| name := name f; m_metadata := metadata ∪ m_metadata f |}.

(** [File::append(const File&)] *)
Definition File_append (Globals : Context) (f other : File) : File :=
  let f1 :=
    if negb (bool_decide (name other = "")) && negb (bool_decide (name f = name other))
    then
      if bool_decide (name f = "") then {| name := name other; m_metadata := m_metadata f |}
      else
        let f' := if negb (File_contains Globals f "separator")
                  then File_insert f "separator" (QStr ";") else f in
        {| name := name f' +:+ QVariant_toString (File_value Globals f' "separator")
                   +:+ name other;
           m_metadata := m_metadata f' |}
    else f in
  File_append_metadata f1 (m_metadata other).

(** [cv::Mat]: pixel data, opaque to the engine. *)
Record Mat := { pixels : list Z }.

(** [Template]: a [QList<cv::Mat>] with a [file]. *)
Record Template := {
  file : File;
  matrices : list Mat
}.

Abbreviation TemplateList := (list Template).

(** [Template()], [Template(file)], [Template(file, mat)], [Template(mat)] *)
Definition Template_empty : Template := {| file := File_new ""; matrices := [] |}.
Definition Template_of_file (f : File) : Template := {| file := f; matrices := [] |}.
Definition Template_of (f : File) (m : Mat) : Template := {| file := f; matrices := [m] |}.
Definition Template_of_mat (m : Mat) : Template := {| file := File_new ""; matrices := [m] |}.

(** Modelled from the spec: [Template::merge] is declared in the plugin
    header, which is not part of the sources at hand.  Per-channel results
    are "merged back into one item": the channels of [other] are appended
    and its metadata is appended to the file. *)
Definition Template_merge (Globals : Context) (t other : Template) : Template :=
  {| file := File_append Globals (file t) (file other);
     matrices := matrices t ++ matrices other |}.

Record FrameData := {
  sequenceNumber : Z;
  data : TemplateList
}.

(** ** Transform nodes: single-item apply, batch apply *)

(** Outcome of a call that may raise a C++ exception. *)
Inductive result (A : Type) :=
| Ok (a : A)
| Throw.
Arguments Ok {A} a.
Arguments Throw {A}.

(** Diagnostics written through [qWarning]. *)
Inductive LogMessage :=
| Exception_triggered (f : File) (transform : string)
| Downsample_requested (requested available : Z)
| Independent_train_size (f : File) (size expected : nat)
| Failed_to_stream (n : string).

(** What a registered plugin class contributes: its name, the capability
    flags and its (virtual) single-item [project].  The learned parameters of
    an instance are determined by the batches it was trained on. *)
Record Plugin := {
  objectName : string;
  independent : bool;
  untrainable : bool;
  project_impl : list TemplateList -> Template -> result Template
}.

(** An instance of a plugin: the four sampling properties of [Transform]
    (set by the constructor to [false], [INT_MAX], [INT_MAX], [1]) and the
    batches seen by [train]. *)
Record Transform := {
  plugin : Plugin;
  relabel : bool;
  classes : Z;
  instances : Z;
  fraction : Q;
  trained : list TemplateList
}.

Definition Transform_new (p : Plugin) : Transform :=
  {| plugin := p; relabel := false; classes := INT_MAX; instances := INT_MAX;
     fraction := 1%Q; trained := [] |}.

(** [Transform::clone]: a fresh instance from the factory, with the sampling
    properties copied. *)
Definition Transform_clone (t : Transform) : Transform :=
  {| plugin := plugin t; relabel := relabel t; classes := classes t;
     instances := instances t; fraction := fraction t; trained := [] |}.

Definition Transform_train (t : Transform) (data : TemplateList) : Transform :=
  {| plugin := plugin t; relabel := relabel t; classes := classes t;
     instances := instances t; fraction := fraction t;
     trained := trained t ++ [data] |}.

(** The virtual single-item [project] of an instance. *)
Definition Transform_project1 (t : Transform) (src : Template) : result Template :=
  project_impl (plugin t) (trained t) src.

(** [static void _project(transform, src, dst)].  The virtual
    [project(const Template &src, Template &dst)] is handed [*dst] as it
    stands and may add to it rather than replace it; [project src dst] is
    what it leaves in [dst].  The result written to [*dst], with the
    diagnostics. *)
Definition _project (project : Template -> Template -> result Template)
    (transformName : string) (src dst : Template) : Template * list LogMessage :=
  match project src dst with
  | Ok dst' => (dst', [])
  | Throw =>
      ({| file := File_setBool (file (Template_of_file (file src))) "FTE" true;
          matrices := matrices (Template_of_file (file src)) |},
       [Exception_triggered (file src) transformName])
  end.

(** [Transform::project(const TemplateList &src, TemplateList &dst)]: one
    blank template is appended to [dst] per source item, then [_project] is
    called on [src[i]] and slot [i] of [dst], for every [i]. *)
Fixpoint project_slots (project : Template -> Template -> result Template)
    (transformName : string) (i : nat) (src : TemplateList) (dst : TemplateList)
    : TemplateList * list LogMessage :=
  match src with
  | [] => (dst, [])
  | s :: src' =>
      let '(d, w) :=
        _project project transformName s (default Template_empty (dst !! i)) in
      let '(dst', w') := project_slots project transformName (S i) src' (<[i := d]> dst) in
      (dst', w ++ w')
  end.

Definition Transform_project_list (project : Template -> Template -> result Template)
    (transformName : string) (src dst : TemplateList) : TemplateList * list LogMessage :=
  project_slots project transformName 0 src (dst ++ replicate (length src) Template_empty).

(** The template that [_project] leaves in place of an item whose apply
    raised: the file of the source with "FTE" set, and no matrix. *)
Definition failure_marker (src : Template) : Template :=
  {| file := File_setBool (file src) "FTE" true; matrices := [] |}.

(** ** Downsampling policy and the per-channel adapter *)

(** [QMap<int,int>::keys()]: the keys in ascending order. *)
Definition QMap_keys (m : gmap Z Z) : list Z :=
  merge_sort Z.le (map_to_list m).*1.

Section Sampling.
(** The C library generator behind [std::random_shuffle]: a state [R], the
    shuffle of a list under it, and [Common::seedRNG]. *)
Context {R : Type}.
Variable random_shuffle : forall A : Type, list A -> R -> list A * R.
Variable seedRNG : R -> R.
(** [TemplateList::labelCounts(excludeFailures)] comes from the plugin
    header; it is a parameter here. *)
Variable labelCounts : TemplateList -> bool -> gmap Z Z.
Variable conv : FloatConversions.
Variable Globals : Context.

(** Modelled from the spec: [TemplateList::labels<int>()] is declared in
    the plugin header, which is not part of the sources at hand.  The labels
    of a batch are the labels of its items: [File::label] of every file,
    converted to [int]. *)
Definition labels (templates : TemplateList) : list Z :=
  (fun t => narrow (File_label conv Globals (file t))) <$> templates.

(** The labels that may be selected: the keys of the label counts, without
    those that have fewer than [instances] items when both caps are set. *)
Definition eligibleLabels (templates : TemplateList) (transform : Transform) : list Z :=
  let instances := Z.abs (instances transform) in
  let counts := labelCounts templates (negb (instances =? INT_MAX)) in
  let counts :=
    if negb (instances =? INT_MAX) && negb (classes transform =? INT_MAX)
    then filter (fun kv => ~ (kv.2 < instances)) counts
    else counts in
  QMap_keys counts.

(** Class cap. *)
Definition selectLabels (uniqueLabels : list Z) (transform : Transform) (rng : R)
    : list Z * R :=
  if classes transform <? Z.of_nat (length uniqueLabels)
  then let '(shuffled, rng) := random_shuffle Z uniqueLabels rng in
       (QList_mid shuffled 0 (classes transform), rng)
  else (uniqueLabels, rng).

(** The positions [j] with [allLabels[j] == selectedLabel] whose template
    is not a failure to enroll. *)
Definition labelIndices (templates : TemplateList) (selectedLabel : Z) : list nat :=
  (fun jt => jt.1) <$>
    filter (fun jt => narrow (File_label conv Globals (file jt.2)) = selectedLabel
                      /\ File_getBool Globals (file jt.2) "FTE" = false)
           (imap (fun j t => (j, t)) templates).

Definition pick (templates : TemplateList) (transform : Transform) (i : nat) (j : nat)
    : Template :=
  let t := default Template_empty (templates !! j) in
  if relabel transform
  then {| file := File_insert (file t) "Label" (QInt (Z.of_nat i)); matrices := matrices t |}
  else t.

(** Per-class instance cap: the loop over [selectedLabels], from index [i]. *)
Fixpoint selectInstances (templates : TemplateList) (transform : Transform)
    (i : nat) (selectedLabels : list Z) (rng : R) (downsample : TemplateList)
    : TemplateList * R :=
  match selectedLabels with
  | [] => (downsample, rng)
  | selectedLabel :: rest =>
      let atLeast := instances transform <? 0 in
      let '(indices, rng) :=
        random_shuffle nat (labelIndices templates selectedLabel) rng in
      let max := if atLeast then length indices
                 else Z.to_nat (Z.min (Z.of_nat (length indices))
                                      (Z.abs (instances transform))) in
      selectInstances templates transform (S i) rest rng
        (downsample ++ (pick templates transform i <$> take max indices))
  end.

(** [int(size * fraction)]: the product truncated toward zero. *)
Definition fractionOf (size : nat) (fraction : Q) : Z :=
  Z.quot (Z.of_nat size * Qnum fraction) (Z.pos (Qden fraction)).

(** Overall fraction. *)
Definition applyFraction (downsample : TemplateList) (transform : Transform) (rng : R)
    : TemplateList * R :=
  if negb (Qle_bool 1 (fraction transform))
  then let '(shuffled, rng) := random_shuffle Template downsample rng in
       (QList_mid shuffled 0 (fractionOf (length shuffled) (fraction transform)), rng)
  else (downsample, rng).

(** [static TemplateList Downsample(templates, transform)] *)
Definition Downsample (templates : TemplateList) (transform : Transform) (rng : R)
    : TemplateList * list LogMessage * R :=
  if (classes transform =? INT_MAX) && (instances transform =? INT_MAX)
     && Qle_bool 1 (fraction transform)
  then (templates, [], rng)
  else
    let uniqueLabels := eligibleLabels templates transform in
    let warn :=
      if negb (classes transform =? INT_MAX)
         && (Z.of_nat (length uniqueLabels) <? classes transform)
      then [Downsample_requested (classes transform) (Z.of_nat (length uniqueLabels))]
      else [] in
    let rng := seedRNG rng in
    let '(selectedLabels, rng) := selectLabels uniqueLabels transform rng in
    let '(downsample, rng) := selectInstances templates transform 0 selectedLabels rng [] in
    let '(downsample, rng) := applyFraction downsample transform rng in
    (downsample, warn, rng).

(** *** [class Independent] *)

Record Independent := { transforms : list Transform }.

(** [Independent(Transform *transform)] *)
Definition Independent_new (transform : Transform) : Independent :=
  {| transforms := [transform] |}.

(** [Independent::project]: [dst.file = src.file], then channel [i] goes
    through [transforms[i % transforms.size()]] and the result is merged
    into [dst].  An exception of a child leaves through the adapter. *)
Fixpoint Independent_project_from (ind : Independent) (src : Template) (i : nat)
    (channels : list Mat) (dst : Template) : result Template :=
  match channels with
  | [] => Ok dst
  | c :: rest =>
      match transforms ind !! (i mod length (transforms ind))%nat with
      | None => Throw
      | Some child =>
          match Transform_project1 child (Template_of (file src) c) with
          | Throw => Throw
          | Ok m => Independent_project_from ind src (S i) rest (Template_merge Globals dst m)
          end
      end
  end.

Definition Independent_project (ind : Independent) (src dst : Template) : result Template :=
  Independent_project_from ind src 0 (matrices src)
    {| file := file src; matrices := matrices dst |}.

(** The first loop of [Independent::train]: one template list per channel
    index, with a warning for a template whose size differs. *)
Definition appendChannels (templatesList : list TemplateList) (t : Template)
    : list TemplateList :=
  imap (fun i tl => match matrices t !! i with
                    | Some m => tl ++ [Template_of (file t) m]
                    | None => tl
                    end)
       (templatesList ++ replicate (length (matrices t) - length templatesList) []).

Fixpoint splitChannels (data : TemplateList) (templatesList : list TemplateList)
    : list TemplateList * list LogMessage :=
  match data with
  | [] => (templatesList, [])
  | t :: data' =>
      let warn :=
        if negb (length templatesList =? length (matrices t))%nat
           && negb (bool_decide (templatesList = []))
        then [Independent_train_size (file t) (length (matrices t)) (length templatesList)]
        else [] in
      let '(tl, w) := splitChannels data' (appendChannels templatesList t) in
      (tl, warn ++ w)
  end.

(** The loop [templatesList[i] = Downsample(templatesList[i], transforms[i])] *)
Fixpoint downsampleAll (templatesList : list TemplateList) (transforms : list Transform)
    (rng : R) : list TemplateList * list LogMessage * R :=
  match templatesList, transforms with
  | tl :: templatesList', tr :: transforms' =>
      let '(d, w, rng) := Downsample tl tr rng in
      let '(ds, ws, rng) := downsampleAll templatesList' transforms' rng in
      (d :: ds, w ++ ws, rng)
  | _, _ => ([], [], rng)
  end.

(** The loop [_train(transforms[i], &templatesList[i])]; the transforms past
    the last channel index keep their state. *)
Fixpoint trainAll (transforms : list Transform) (templatesList : list TemplateList)
    : list Transform :=
  match transforms, templatesList with
  | tr :: transforms', tl :: templatesList' =>
      Transform_train tr tl :: trainAll transforms' templatesList'
  | _, _ => transforms
  end.

(** [Independent::train].  With [Globals->parallelism] the calls of
    [_train] run as one task per channel and are awaited; every task
    touches its own transform and list, so the result is that of the
    sequential loop. *)
Definition Independent_train (ind : Independent) (data : TemplateList) (rng : R)
    : Independent * list LogMessage * R :=
  match transforms ind with
  | [] => (ind, [], rng)
  | first :: _ =>
      if untrainable (plugin first) then (ind, [], rng)
      else
        let '(templatesList, w1) := splitChannels data [] in
        let transforms' :=
          transforms ind
            ++ replicate (length templatesList - length (transforms ind))
                         (Transform_clone first) in
        let '(templatesList, w2, rng) := downsampleAll templatesList transforms' rng in
        ({| transforms := trainAll transforms' templatesList |}, w1 ++ w2, rng)
  end.
End Sampling.

(** ** Composition parser and registry *)

(** Outcome of a construction: a value, a fatal error ([qFatal] aborts the
    process), or no answer within the given number of nested calls. *)
Inductive outcome (A : Type) :=
| Made (a : A)
| Fatal (msg : string)
| Diverge.
Arguments Made {A} a.
Arguments Fatal {A} msg.
Arguments Diverge {A}.

Global Instance outcome_ret : MRet outcome := fun A a => Made a.

Global Instance outcome_bind : MBind outcome := fun A B k o =>
  match o with
  | Made a => k a
  | Fatal m => Fatal m
  | Diverge => Diverge
  end.

Definition opening (c : ascii) : bool :=
  bool_decide (c = "("%char) || bool_decide (c = "["%char)
  || bool_decide (c = "<"%char) || bool_decide (c = "{"%char).

Definition closing (c : ascii) : bool :=
  bool_decide (c = ")"%char) || bool_decide (c = "]"%char)
  || bool_decide (c = ">"%char) || bool_decide (c = "}"%char).

Fixpoint parse_from (args : list ascii) (split : ascii) (depth : Z)
    (word : list ascii) (words : list string) : outcome (list string) :=
  match args with
  | [] =>
      if depth =? 0
      then Made (rev (string_of_list_ascii (rev word) :: words))
      else Fatal "Unbalanced brackets"
  | c :: args' =>
      if opening c then parse_from args' split (depth + 1) (c :: word) words
      else if closing c then parse_from args' split (depth - 1) (c :: word) words
      else if (depth =? 0) && bool_decide (c = split)
           then parse_from args' split depth [] (string_of_list_ascii (rev word) :: words)
           else parse_from args' split depth (c :: word) words
  end.

(** Modelled from the spec: [QtUtils::parse(string, split)] lives in
    [core/qtutils], which is not part of the sources at hand.  A composition
    is a "separated list" whose "bracketed sub-expression[s are] parsed
    independently": the text is cut at the occurrences of [split] that lie
    outside every bracket pair, "malformed bracket nesting" being fatal.  The
    empty text has no words. *)
Definition parse (s : string) (split : ascii) : outcome (list string) :=
  match s with
  | EmptyString => Made []
  | _ => parse_from (list_ascii_of_string s) split 0 [] []
  end.

Definition QString_startsWith (s : string) (c : ascii) : bool :=
  match s with
  | String c' _ => bool_decide (c' = c)
  | EmptyString => false
  end.

Definition QString_endsWith (s : string) (c : ascii) : bool :=
  match rev (list_ascii_of_string s) with
  | c' :: _ => bool_decide (c' = c)
  | [] => false
  end.

(** [QString::mid(position, n)] for [0 <= n]. *)
Definition QString_mid (s : string) (position n : nat) : string :=
  String.substring position (Nat.min n (String.length s - position)) s.

Definition QStringList_join (words : list string) (sep : string) : string :=
  String.concat sep words.

(** The scan of [File::init] for the bracket that opens the trailing
    argument list: [reversed] is the text before the last character, read
    backwards; the result is how many characters lie between the brackets. *)
Fixpoint matchingBracket (reversed : list ascii) (closer opener : ascii) (depth : Z)
    (between : nat) : option nat :=
  match reversed with
  | [] => None
  | c :: reversed' =>
      let depth := if bool_decide (c = closer) then depth - 1
                   else if bool_decide (c = opener) then depth + 1 else depth in
      if depth =? 0 then Some between
      else matchingBracket reversed' closer opener depth (S between)
  end.

(** The loop over [parameters] of [File::init]. *)
Fixpoint File_init_parameters (unnamed : bool) (i : nat) (parameters : list string)
    (f : File) : outcome File :=
  match parameters with
  | [] => Made f
  | p :: parameters' =>
      words ← parse p "="%char;
      match words with
      | [w] =>
          File_init_parameters unnamed (S i) parameters'
            (if unnamed then File_insert f ("_Arg" +:+ pretty (Z.of_nat i)) (QStr w)
             else File_insert f w QNull)
      | [k; v] => File_init_parameters unnamed (S i) parameters' (File_insert f k (QStr v))
      | _ => Fatal "File: wrong number of arguments"
      end
  end.

(** [File::init]: trailing [(...)] and [[...]] groups are peeled off the name
    and become metadata.  [fuel] bounds the number of groups. *)
Fixpoint File_init_loop (fuel : nat) (f : File) : outcome File :=
  match fuel with
  | O => Made f
  | S fuel =>
      if QString_endsWith (name f) "]"%char || QString_endsWith (name f) ")"%char
      then
        let unnamed := QString_endsWith (name f) ")"%char in
        let closer := if unnamed then ")"%char else "]"%char in
        let opener := if unnamed then "("%char else "["%char in
        match matchingBracket (drop 1 (rev (list_ascii_of_string (name f))))
                closer opener (-1) 0 with
        | None => Fatal "Unable to parse"
        | Some between =>
            let index := (String.length (name f) - between - 2)%nat in
            parameters ← parse (QString_mid (name f) (index + 1) between) ","%char;
            f' ← File_init_parameters unnamed 0 parameters f;
            File_init_loop fuel
              {| name := QString_mid (name f') 0 index; m_metadata := m_metadata f' |}
        end
      else Made f
  end.

Definition File_init (file : string) : outcome File :=
  File_init_loop (String.length file) (File_new file).

(** The property types that [Object::setProperty] tells apart. *)
Inductive PropertyType :=
| QList_float
| QList_int
| QList_Transform
| QList_unrecognized
| Transform_ptr
| Distance_ptr
| QStringList_t
| bool_t
| other_t.

(** A constructed transform: an instance of a registered class with the
    properties that were set on it, or the [Independent] adapter around
    one. *)
Inductive TransformNode :=
| Object (className : string) (props : list (string * PropertyValue))
| IndependentOf (transform : TransformNode)
with PropertyValue :=
| VTransforms (values : list TransformNode)
| VTransform (value : TransformNode)
| VStrings (values : list string)
| VText (value : string).

(** What the registry knows of a class: its declared properties in
    declaration order and whether instances are [independent]. *)
Record MetaObject := {
  metaProperties : list (string * PropertyType);
  declaresIndependent : bool
}.

Definition propertyType (meta : MetaObject) (name : string) : option PropertyType :=
  (fun found => found.2.2) <$> list_find (fun p => p.1 = name) (metaProperties meta).

Definition writeProperty (props : list (string * PropertyValue)) (name : string)
    (v : PropertyValue) : list (string * PropertyValue) :=
  filter (fun p => p.1 <> name) props ++ [(name, v)].

(** The text after the last ['.'] of a file name. *)
Fixpoint suffix_from (s : list ascii) (acc : list ascii) : list ascii :=
  match s with
  | [] => acc
  | c :: s' => if bool_decide (c = "."%char) then suffix_from s' s' else suffix_from s' acc
  end.

Definition File_suffix (f : File) : string :=
  string_of_list_ascii (suffix_from (list_ascii_of_string (name f)) []).

Section Parser.
(** [Globals->abbreviations] and the table behind [Factory<Transform>]. *)
Variable abbreviations : gmap string string.
Variable registry : gmap string MetaObject.

(** [Object::setProperty(name, value)], given [Transform::make]. *)
Definition setProperty (make : string -> outcome TransformNode) (meta : MetaObject)
    (props : list (string * PropertyValue)) (name value : string)
    : outcome (list (string * PropertyValue)) :=
  let inner := QString_mid value 1 (String.length value - 2) in
  match propertyType meta name with
  | Some QList_float | Some QList_int =>
      if negb (QString_startsWith value "["%char)
      then Fatal "Object::setProperty expected a list."
      else strings ← parse inner ","%char;
           mret (writeProperty props name (VStrings strings))
  | Some QList_Transform =>
      if negb (QString_startsWith value "["%char)
      then Fatal "Object::setProperty expected a list."
      else strings ← parse inner ","%char;
           values ← mapM make strings;
           mret (writeProperty props name (VTransforms values))
  | Some QList_unrecognized =>
      if negb (QString_startsWith value "["%char)
      then Fatal "Object::setProperty expected a list."
      else strings ← parse inner ","%char; Fatal "Unrecognized type"
  | Some Transform_ptr =>
      t ← make value; mret (writeProperty props name (VTransform t))
  | Some QStringList_t =>
      strings ← parse inner ","%char;
      mret (writeProperty props name (VStrings strings))
  | Some bool_t =>
      mret (writeProperty props name (VText (if bool_decide (value = "") then "true" else value)))
  | Some Distance_ptr | Some other_t | None =>
      mret (writeProperty props name (VText value))
  end.

(** The loop of [Object::init(file)] over the local keys of the file: a key
    [_ArgN] stands for the [N]-th declared property. *)
Fixpoint Object_init_keys (make : string -> outcome TransformNode) (meta : MetaObject)
    (keys : list (string * QVariant)) (props : list (string * PropertyValue))
    : outcome (list (string * PropertyValue)) :=
  match keys with
  | [] => Made props
  | (key, v) :: keys' =>
      let value := QVariant_toString v in
      let key :=
        if String.prefix "_Arg" key
        then default ""
               (fst <$> (metaProperties meta
                           !! Z.to_nat (default 0 (QString_toInt
                                 (QString_mid key 4 (String.length key - 4))))))
        else key in
      props' ← setProperty make meta props key value;
      Object_init_keys make meta keys' props'
  end.

(** [Factory<Transform>::make(file)] followed by [Object::init(file)]. *)
Definition Factory_make (make : string -> outcome TransformNode) (f : File)
    : outcome (TransformNode * bool) :=
  match registry !! File_suffix f with
  | None => Fatal "Unknown plugin"
  | Some meta =>
      props ← Object_init_keys make meta (map_to_list (m_metadata f)) [];
      mret (Object (File_suffix f) props, declaresIndependent meta)
  end.

(** [Transform *Transform::make(QString str, QObject *parent)] *)
Fixpoint make (fuel : nat) (str : string) : outcome TransformNode :=
  match fuel with
  | O => Diverge
  | S fuel =>
      match abbreviations !! str with
      | Some expansion => make fuel expansion
      | None =>
          bang ← parse str "!"%char;
          if (1 <? length bang)%nat
          then make fuel ("Chain([" +:+ QStringList_join bang "," +:+ "])")
          else
          plus ← parse str "+"%char;
          if (1 <? length plus)%nat
          then make fuel ("Pipe([" +:+ QStringList_join plus "," +:+ "])")
          else
          slash ← parse str "/"%char;
          if (1 <? length slash)%nat
          then make fuel ("Fork([" +:+ QStringList_join slash "," +:+ "])")
          else
          if QString_startsWith str "{"%char && QString_endsWith str "}"%char
          then make fuel ("Cache(" +:+ QString_mid str 1 (String.length str - 2) +:+ ")")
          else
          if QString_startsWith str "<"%char && QString_endsWith str ">"%char
          then make fuel ("LoadStore(" +:+ QString_mid str 1 (String.length str - 2) +:+ ")")
          else
          if QString_startsWith str "("%char && QString_endsWith str ")"%char
          then make fuel (QString_mid str 1 (String.length str - 2))
          else
            f ← File_init ("." +:+ str);
            made ← Factory_make (make fuel) f;
            mret (if snd (made : TransformNode * bool) then IndependentOf (fst made)
                  else fst made)
      end
  end.
End Parser.

(** The text [str] triggers none of the shorthands of [Transform::make]: no
    word list has more than one word and no bracket pair encloses it. *)
Definition one_word (words : outcome (list string)) : bool :=
  match words with
  | Made ws => negb (1 <? length ws)%nat
  | _ => false
  end.

Definition no_shorthand (str : string) : bool :=
  one_word (parse str "!"%char) && one_word (parse str "+"%char)
  && one_word (parse str "/"%char)
  && negb (QString_startsWith str "{"%char && QString_endsWith str "}"%char)
  && negb (QString_startsWith str "<"%char && QString_endsWith str ">"%char)
  && negb (QString_startsWith str "("%char && QString_endsWith str ")"%char).

(** The single-channel sub-items of [src], each through the child that
    [Independent::project] picks for its index. *)
Definition channel_results (ind : Independent) (src : Template) : list (option (result Template)) :=
  imap (fun i c =>
          (fun child => Transform_project1 child (Template_of (file src) c))
            <$> transforms ind !! (i mod length (transforms ind))%nat)
       (matrices src).

(** ** Shared buffers between adjacent stages *)

(** One step of the consumer inside [getItem].  Every critical section (the
    code run under one acquisition of the buffer's lock) is one step; the
    buffer remembers where its single consumer stands between two of them. *)
Inductive GetItem (B : Type) :=
| Blocked
| Continue (b : B)
| Return (item : option FrameData) (b : B)
| Crash.
Arguments Blocked {B}.
Arguments Continue {B} b.
Arguments Return {B} item b.
Arguments Crash {B}.

Module SingleBuffer.
(** The consumer is about to enter [getItem], or sits in
    [availableInput.wait], asleep or already signalled. *)
Inductive position := Entry | Wait (signalled : bool).

Record t := {
  no_input : bool;
  buffer : list FrameData;
  consumer : position
}.

(** [wakeOne] and [wakeAll] on [availableInput], for one consumer:
    [QWaitCondition] returns from [wait] only when signalled. *)
Definition wake (c : position) : position :=
  match c with
  | Wait _ => Wait true
  | Entry => Entry
  end.

Definition new : t := {| no_input := false; buffer := []; consumer := Entry |}.

Definition stoppedInput (b : t) : t :=
  {| no_input := true; buffer := buffer b; consumer := wake (consumer b) |}.

Definition startInput (b : t) : t :=
  {| no_input := false; buffer := buffer b; consumer := consumer b |}.

Definition addItem (input : FrameData) (b : t) : t :=
  {| no_input := no_input b; buffer := buffer b ++ [input]; consumer := wake (consumer b) |}.

Definition getItem (b : t) : GetItem t :=
  match consumer b with
  | Entry =>
      match buffer b with
      | [] =>
          if no_input b then Return None b
          else Continue {| no_input := no_input b; buffer := []; consumer := Wait false |}
      | output :: rest =>
          Return (Some output) {| no_input := no_input b; buffer := rest; consumer := Entry |}
      end
  | Wait false => Blocked
  | Wait true =>
      match buffer b with
      | [] => Return None {| no_input := no_input b; buffer := []; consumer := Entry |}
      | output :: rest =>
          Return (Some output) {| no_input := no_input b; buffer := rest; consumer := Entry |}
      end
  end.
End SingleBuffer.

Module DoubleBuffer.
(** The consumer is about to enter [getItem], has released the read lock
    and not yet taken the write lock, or sits in [availableInput.wait]. *)
Inductive position := Entry | WriteLock | Wait (signalled : bool).

(** [inputBuffer] points at [buffer1] or at [buffer2]; [outputBuffer] at the
    other one. *)
Record t := {
  no_input : bool;
  inputIsBuffer1 : bool;
  buffer1 : list FrameData;
  buffer2 : list FrameData;
  consumer : position
}.

Definition inputBuffer (b : t) : list FrameData :=
  if inputIsBuffer1 b then buffer1 b else buffer2 b.

Definition outputBuffer (b : t) : list FrameData :=
  if inputIsBuffer1 b then buffer2 b else buffer1 b.

Definition wake (c : position) : position :=
  match c with
  | Wait _ => Wait true
  | c => c
  end.

(** The constructor sets the two pointers and leaves [no_input]
    uninitialised: it holds whatever [garbage] was there. *)
Definition new (garbage : bool) : t :=
  {| no_input := garbage; inputIsBuffer1 := true; buffer1 := []; buffer2 := [];
     consumer := Entry |}.

Definition stoppedInput (b : t) : t :=
  {| no_input := true; inputIsBuffer1 := inputIsBuffer1 b; buffer1 := buffer1 b;
     buffer2 := buffer2 b; consumer := wake (consumer b) |}.

Definition startInput (b : t) : t :=
  {| no_input := false; inputIsBuffer1 := inputIsBuffer1 b; buffer1 := buffer1 b;
     buffer2 := buffer2 b; consumer := consumer b |}.

Definition addItem (input : FrameData) (b : t) : t :=
  {| no_input := no_input b; inputIsBuffer1 := inputIsBuffer1 b;
     buffer1 := if inputIsBuffer1 b then buffer1 b ++ [input] else buffer1 b;
     buffer2 := if inputIsBuffer1 b then buffer2 b else buffer2 b ++ [input];
     consumer := wake (consumer b) |}.

Definition at_ (c : position) (b : t) : t :=
  {| no_input := no_input b; inputIsBuffer1 := inputIsBuffer1 b; buffer1 := buffer1 b;
     buffer2 := buffer2 b; consumer := c |}.

(** [outputBuffer->first(); outputBuffer->removeFirst()] *)
Definition takeFirst (b : t) : GetItem t :=
  match outputBuffer b with
  | [] => Crash
  | output :: rest =>
      Return (Some output)
        {| no_input := no_input b; inputIsBuffer1 := inputIsBuffer1 b;
           buffer1 := if inputIsBuffer1 b then buffer1 b else rest;
           buffer2 := if inputIsBuffer1 b then rest else buffer2 b;
           consumer := Entry |}
  end.

(** [std::swap(inputBuffer, outputBuffer)] *)
Definition swap (b : t) : t :=
  {| no_input := no_input b; inputIsBuffer1 := negb (inputIsBuffer1 b);
     buffer1 := buffer1 b; buffer2 := buffer2 b; consumer := consumer b |}.

Definition getItem (b : t) : GetItem t :=
  match consumer b with
  | Entry =>
      match outputBuffer b with
      | [] => Continue (at_ WriteLock b)
      | _ => takeFirst b
      end
  | WriteLock =>
      match inputBuffer b with
      | [] => if no_input b then Return None (at_ Entry b) else Continue (at_ (Wait false) b)
      | _ => takeFirst (swap b)
      end
  | Wait false => Blocked
  | Wait true =>
      if no_input b && bool_decide (inputBuffer b = [])
      then Return None (at_ Entry b)
      else takeFirst (swap b)
  end.
End DoubleBuffer.

(** [SharedBuffer *]: either implementation, with virtual dispatch. *)
Inductive SharedBuffer :=
| Single (b : SingleBuffer.t)
| Double (b : DoubleBuffer.t).

Definition GetItem_map {A B} (f : A -> B) (g : GetItem A) : GetItem B :=
  match g with
  | Blocked => Blocked
  | Continue b => Continue (f b)
  | Return item b => Return item (f b)
  | Crash => Crash
  end.

Definition addItem (input : FrameData) (sb : SharedBuffer) : SharedBuffer :=
  match sb with
  | Single b => Single (SingleBuffer.addItem input b)
  | Double b => Double (DoubleBuffer.addItem input b)
  end.

Definition getItem (sb : SharedBuffer) : GetItem SharedBuffer :=
  match sb with
  | Single b => GetItem_map Single (SingleBuffer.getItem b)
  | Double b => GetItem_map Double (DoubleBuffer.getItem b)
  end.

Definition stoppedInput (sb : SharedBuffer) : SharedBuffer :=
  match sb with
  | Single b => Single (SingleBuffer.stoppedInput b)
  | Double b => Double (DoubleBuffer.stoppedInput b)
  end.

Definition startInput (sb : SharedBuffer) : SharedBuffer :=
  match sb with
  | Single b => Single (SingleBuffer.startInput b)
  | Double b => Double (DoubleBuffer.startInput b)
  end.

(** What a buffer holds, oldest first, and whether its input was stopped. *)
Definition contents (sb : SharedBuffer) : list FrameData :=
  match sb with
  | Single b => SingleBuffer.buffer b
  | Double b => DoubleBuffer.outputBuffer b ++ DoubleBuffer.inputBuffer b
  end.

Definition closed (sb : SharedBuffer) : bool :=
  match sb with
  | Single b => SingleBuffer.no_input b
  | Double b => DoubleBuffer.no_input b
  end.

(** The consumer is outside [getItem]. *)
Definition idle (sb : SharedBuffer) : bool :=
  match sb with
  | Single b => match SingleBuffer.consumer b with SingleBuffer.Entry => true | _ => false end
  | Double b => match DoubleBuffer.consumer b with DoubleBuffer.Entry => true | _ => false end
  end.

(** *** The buffer property test: one producer, one consumer *)

(** The producer adds the items of [toPush] one by one and then calls
    [stoppedInput]; the consumer calls [getItem] until it is handed the end
    marker and keeps what it [received]. *)
Record Harness := {
  shared : SharedBuffer;
  toPush : list FrameData;
  finished : bool;
  received : list FrameData;
  ended : bool;
  crashed : bool
}.

Inductive Actor := Producer | Consumer.

Definition Harness_start (b : SharedBuffer) (items : list FrameData) : Harness :=
  {| shared := b; toPush := items; finished := false; received := []; ended := false;
     crashed := false |}.

Definition producer_step (h : Harness) : option Harness :=
  match toPush h with
  | input :: rest =>
      Some {| shared := addItem input (shared h); toPush := rest; finished := finished h;
              received := received h; ended := ended h; crashed := crashed h |}
  | [] =>
      if finished h then None
      else Some {| shared := stoppedInput (shared h); toPush := []; finished := true;
                   received := received h; ended := ended h; crashed := crashed h |}
  end.

Definition consumer_step (h : Harness) : option Harness :=
  if ended h || crashed h then None
  else
    match getItem (shared h) with
    | Blocked => None
    | Continue b =>
        Some {| shared := b; toPush := toPush h; finished := finished h;
                received := received h; ended := false; crashed := false |}
    | Return (Some item) b =>
        Some {| shared := b; toPush := toPush h; finished := finished h;
                received := received h ++ [item]; ended := false; crashed := false |}
    | Return None b =>
        Some {| shared := b; toPush := toPush h; finished := finished h;
                received := received h; ended := true; crashed := false |}
    | Crash =>
        Some {| shared := shared h; toPush := toPush h; finished := finished h;
                received := received h; ended := false; crashed := true |}
    end.

Definition Harness_step (a : Actor) (h : Harness) : option Harness :=
  match a with
  | Producer => producer_step h
  | Consumer => consumer_step h
  end.

(** The executions of the test: any interleaving of the two threads. *)
Inductive Harness_run : Harness -> Harness -> Prop :=
| Harness_run_refl h : Harness_run h h
| Harness_run_step h a h' h'' :
    Harness_run h h' -> Harness_step a h' = Some h'' -> Harness_run h h''.

(** The execution chosen by a schedule; a thread that cannot move is
    skipped. *)
Fixpoint Harness_schedule (schedule : list Actor) (h : Harness) : Harness :=
  match schedule with
  | [] => h
  | a :: schedule' =>
      Harness_schedule schedule' (default h (Harness_step a h))
  end.

(** ** The streaming executor *)

(** *** Data sources *)

(** [VideoDataSource]: [video] is [None] while no file is opened, and the
    frames still to be read afterwards.  [TemplateDataSource]: the matrices
    of [basis] are dealt one by one, [current_idx] counting from 0. *)
Inductive ActualSource :=
| VideoDataSource (basis : Template) (video : option (list Mat)) (next_idx : Z)
| TemplateDataSource (basis : Template) (current_idx : nat) (next_sequence : Z).

Definition ActualSource_isOpen (a : ActualSource) : bool :=
  match a with
  | VideoDataSource _ video _ => bool_decide (is_Some video)
  | TemplateDataSource basis current_idx _ =>
      (current_idx <? length (matrices basis))%nat
  end.

(** [getNext(FrameData &output)] of the two sources. *)
Definition ActualSource_getNext (a : ActualSource) (output : FrameData)
    : bool * FrameData * ActualSource :=
  match a with
  | VideoDataSource basis video next_idx =>
      match video with
      | None => (false, output, a)
      | Some (m :: rest) =>
          (true,
           {| sequenceNumber := next_idx;
              data := data output ++ [Template_of (file basis) m] |},
           VideoDataSource basis (Some rest) (next_idx + 1))
      | Some [] =>
          (false,
           {| sequenceNumber := next_idx;
              data := data output ++ [Template_of (file basis) {| pixels := [] |}] |},
           VideoDataSource basis (Some []) (next_idx + 1))
      end
  | TemplateDataSource basis current_idx next_sequence =>
      if (current_idx <? length (matrices basis))%nat
      then
        (true,
         {| sequenceNumber := next_sequence;
            data := data output
                    ++ [Template_of_mat
                          (default {| pixels := [] |} (matrices basis !! current_idx))] |},
         TemplateDataSource basis (S current_idx) (next_sequence + 1))
      else (false, output, a)
  end.

(** [DataSourceManager]: the pool [allFrames] of reusable frames and the
    source made by [open].  [DataSource(int maxFrames = 100)] fills the
    pool. *)
Record DataSourceManager := {
  allFrames : DoubleBuffer.t;
  actualSource : option ActualSource
}.

Definition DataSource_pool (garbage : bool) (maxFrames : nat) : DoubleBuffer.t :=
  DoubleBuffer.startInput
    (foldr DoubleBuffer.addItem (DoubleBuffer.new garbage)
       (replicate maxFrames {| sequenceNumber := 0; data := [] |})).

Definition DataSourceManager_new (garbage : bool) : DataSourceManager :=
  {| allFrames := DataSource_pool garbage 100; actualSource := None |}.

Definition DataSourceManager_isOpen (d : DataSourceManager) : bool :=
  match actualSource d with
  | None => false
  | Some a => ActualSource_isOpen a
  end.

(** The values of the members that no constructor sets: [stopped] of the
    read stage, of the collection stage and of every processing stage,
    [no_input] of every shared [DoubleBuffer] and of the pool. *)
Record Uninitialised := {
  read_stopped : bool;
  collection_stopped : bool;
  stage_stopped : nat -> bool;
  buffer_no_input : nat -> bool;
  pool_no_input : bool
}.

Section Stream.
(** The objects behind [Transform *transform] of the stages, with their
    virtual [projectUpdate(TemplateList &)], which may raise; and the file
    system as seen by [cv::VideoCapture::open]: the frames of a video, or
    [None] for a name that cannot be opened. *)
Context {T : Type}.
Variable projectUpdate : T -> TemplateList -> result (T * TemplateList).
Variable VideoCapture : string -> option (list Mat).

(** [DataSourceManager::open(Template &input)] *)
Definition DataSourceManager_open (d : DataSourceManager) (input : Template)
    : bool * DataSourceManager :=
  let source :=
    if bool_decide (matrices input = [])
    then VideoDataSource input (VideoCapture (name (file input))) 0
    else TemplateDataSource input 0 0 in
  if ActualSource_isOpen source
  then (true, {| allFrames := allFrames d; actualSource := Some source |})
  else (false, {| allFrames := allFrames d; actualSource := None |}).

(** *** Stages *)

(** A worker is not running, is inside [getItem] on its input buffer, or
    holds the item it was handed. *)
Inductive StagePc :=
| Parked
| Getting
| Holding (currentItem : FrameData).

Record ProcessingStage := {
  stopped : bool;
  inputBuffer : nat;
  outputBuffer : nat;
  transform : T;
  pc : StagePc
}.

Record FirstStage := {
  dataSource : DataSourceManager;
  readOutputBuffer : nat;
  readStopped : bool
}.

Record LastStage := {
  collectionStopped : bool;
  collectionInputBuffer : nat;
  collectedOutput : TemplateList;
  collectionPc : StagePc
}.

(** Where the calling thread stands in [projectUpdate]. *)
Inductive Caller :=
| Idle
| Reading
| Filling (aFrame : FrameData)
| Stopping (i : nat)
| Waiting (i : nat)
| Returned (dst : TemplateList).

(** How the process comes to an end other than by returning: [qFatal], an
    exception that nothing catches, a null or out-of-range access, or two
    threads that change one list at the same time. *)
Inductive Termination :=
| qFatal (msg : string)
| Uncaught_exception
| Invalid_access
| Data_race.

Record StreamTransform := {
  readStage : FirstStage;
  collectionStage : LastStage;
  processingStages : list ProcessingStage;
  sharedBuffers : list SharedBuffer;
  caller : Caller;
  terminated : option Termination
}.

(** Who moves next: one of the threads, or the caller and the collection
    thread together where the locks let them overlap. *)
Inductive Thread :=
| MainThread
| StageThread (i : nat)
| CollectionThread
| MainAndCollection.

(** What an execution lets one observe. *)
Inductive Event :=
| Logged (m : LogMessage)
| Aborted (msg : string)
| Started (t : Thread)
| StoppedInput (buffer : nat)
| MarkedStop (t : Thread)
| Collected (frame : FrameData).

Definition with_buffers (s : StreamTransform) (bs : list SharedBuffer) : StreamTransform :=
  {| readStage := readStage s; collectionStage := collectionStage s;
     processingStages := processingStages s; sharedBuffers := bs;
     caller := caller s; terminated := terminated s |}.

Definition with_stages (s : StreamTransform) (ps : list ProcessingStage) : StreamTransform :=
  {| readStage := readStage s; collectionStage := collectionStage s;
     processingStages := ps; sharedBuffers := sharedBuffers s;
     caller := caller s; terminated := terminated s |}.

Definition with_collection (s : StreamTransform) (c : LastStage) : StreamTransform :=
  {| readStage := readStage s; collectionStage := c;
     processingStages := processingStages s; sharedBuffers := sharedBuffers s;
     caller := caller s; terminated := terminated s |}.

Definition with_caller (s : StreamTransform) (c : Caller) : StreamTransform :=
  {| readStage := readStage s; collectionStage := collectionStage s;
     processingStages := processingStages s; sharedBuffers := sharedBuffers s;
     caller := c; terminated := terminated s |}.

Definition with_dataSource (s : StreamTransform) (d : DataSourceManager) : StreamTransform :=
  {| readStage := {| dataSource := d; readOutputBuffer := readOutputBuffer (readStage s);
                     readStopped := readStopped (readStage s) |};
     collectionStage := collectionStage s;
     processingStages := processingStages s; sharedBuffers := sharedBuffers s;
     caller := caller s; terminated := terminated s |}.

Definition with_pool (s : StreamTransform) (pool : DoubleBuffer.t) : StreamTransform :=
  with_dataSource s
    {| allFrames := pool; actualSource := actualSource (dataSource (readStage s)) |}.

Definition terminate (s : StreamTransform) (why : Termination) : StreamTransform :=
  {| readStage := readStage s; collectionStage := collectionStage s;
     processingStages := processingStages s; sharedBuffers := sharedBuffers s;
     caller := caller s; terminated := Some why |}.

Definition at_pc (st : ProcessingStage) (p : StagePc) : ProcessingStage :=
  {| stopped := stopped st; inputBuffer := inputBuffer st; outputBuffer := outputBuffer st;
     transform := transform st; pc := p |}.

(** *** The threads *)

(** [ProcessingStage::run], one critical section or one call of the
    transform at a time.  An exception that leaves [projectUpdate] leaves
    [run]: nothing in the worker catches it. *)
Definition stage_step (i : nat) (s : StreamTransform)
    : option (list Event * StreamTransform) :=
  match processingStages s !! i with
  | None => None
  | Some st =>
      match pc st with
      | Parked => None
      | Getting =>
          match sharedBuffers s !! inputBuffer st with
          | None => Some ([], terminate s Invalid_access)
          | Some b =>
              match getItem b with
              | Blocked => None
              | Continue b' =>
                  Some ([], with_buffers s (<[inputBuffer st := b']> (sharedBuffers s)))
              | Return (Some currentItem) b' =>
                  Some ([], with_stages
                              (with_buffers s (<[inputBuffer st := b']> (sharedBuffers s)))
                              (<[i := at_pc st (Holding currentItem)]> (processingStages s)))
              | Return None b' =>
                  Some ([MarkedStop (StageThread i)],
                        with_stages
                          (with_buffers s (<[inputBuffer st := b']> (sharedBuffers s)))
                          (<[i := {| stopped := true; inputBuffer := inputBuffer st;
                                     outputBuffer := outputBuffer st;
                                     transform := transform st; pc := Parked |}]>
                             (processingStages s)))
              | Crash => Some ([], terminate s Invalid_access)
              end
          end
      | Holding currentItem =>
          match projectUpdate (transform st) (data currentItem) with
          | Throw => Some ([], terminate s Uncaught_exception)
          | Ok (transform', data') =>
              match sharedBuffers s !! outputBuffer st with
              | None => Some ([], terminate s Invalid_access)
              | Some b =>
                  Some ([], with_stages
                              (with_buffers s
                                 (<[outputBuffer st :=
                                      addItem {| sequenceNumber := sequenceNumber currentItem;
                                                 data := data' |} b]> (sharedBuffers s)))
                              (<[i := {| stopped := stopped st; inputBuffer := inputBuffer st;
                                         outputBuffer := outputBuffer st;
                                         transform := transform'; pc := Getting |}]>
                                 (processingStages s)))
              end
          end
      end
  end.

(** [LastStage::run], one critical section at a time.  The step that gives
    the frame back to the pool is the one that [returnFrame] makes alone;
    the one it makes while the caller is in [allFrames.addItem] as well is
    [racing_addItem] below. *)
Definition collection_step (s : StreamTransform) : option (list Event * StreamTransform) :=
  let c := collectionStage s in
  match collectionPc c with
  | Parked => None
  | Getting =>
      match sharedBuffers s !! collectionInputBuffer c with
      | None => Some ([], terminate s Invalid_access)
      | Some b =>
          match getItem b with
          | Blocked => None
          | Continue b' =>
              Some ([], with_buffers s (<[collectionInputBuffer c := b']> (sharedBuffers s)))
          | Return (Some frame) b' =>
              Some ([], with_collection
                          (with_buffers s (<[collectionInputBuffer c := b']> (sharedBuffers s)))
                          {| collectionStopped := collectionStopped c;
                             collectionInputBuffer := collectionInputBuffer c;
                             collectedOutput := collectedOutput c;
                             collectionPc := Holding frame |})
          | Return None b' =>
              Some ([MarkedStop CollectionThread],
                    with_collection
                      (with_buffers s (<[collectionInputBuffer c := b']> (sharedBuffers s)))
                      {| collectionStopped := true;
                         collectionInputBuffer := collectionInputBuffer c;
                         collectedOutput := collectedOutput c;
                         collectionPc := Parked |})
          | Crash => Some ([], terminate s Invalid_access)
          end
      end
  | Holding frame =>
      Some ([Collected frame],
            with_pool
              (with_collection s
                 {| collectionStopped := collectionStopped c;
                    collectionInputBuffer := collectionInputBuffer c;
                    collectedOutput := collectedOutput c ++ data frame;
                    collectionPc := Getting |})
              (DoubleBuffer.addItem frame (allFrames (dataSource (readStage s)))))
  end.

(** The calling thread: [FirstStage::run] (through [DataSource::getFrame])
    and then the loop of [projectUpdate] that stops the buffers and waits
    for the stages. *)
Definition caller_step (s : StreamTransform) : option (list Event * StreamTransform) :=
  match caller s with
  | Idle | Returned _ => None
  | Reading =>
      match DoubleBuffer.getItem (allFrames (dataSource (readStage s))) with
      | Blocked => None
      | Continue pool => Some ([], with_pool s pool)
      | Return (Some aFrame) pool => Some ([], with_caller (with_pool s pool) (Filling aFrame))
      | Return None _ | Crash => Some ([], terminate s Invalid_access)
      end
  | Filling aFrame =>
      match actualSource (dataSource (readStage s)) with
      | None => Some ([], terminate s Invalid_access)
      | Some source =>
          let '(res, frame, source') :=
            ActualSource_getNext source {| sequenceNumber := -1; data := [] |} in
          let d := dataSource (readStage s) in
          if res : bool
          then
            match sharedBuffers s !! readOutputBuffer (readStage s) with
            | None => Some ([], terminate s Invalid_access)
            | Some b =>
                Some ([], with_caller
                            (with_buffers
                               (with_dataSource s
                                  {| allFrames := allFrames d; actualSource := Some source' |})
                               (<[readOutputBuffer (readStage s) := addItem frame b]>
                                  (sharedBuffers s)))
                            Reading)
            end
          else
            Some ([MarkedStop MainThread],
                  {| readStage :=
                       {| dataSource :=
                            {| allFrames := DoubleBuffer.addItem frame (allFrames d);
                               actualSource := Some source' |};
                          readOutputBuffer := readOutputBuffer (readStage s);
                          readStopped := true |};
                     collectionStage := collectionStage s;
                     processingStages := processingStages s;
                     sharedBuffers := sharedBuffers s;
                     caller := Stopping 0; terminated := terminated s |})
      end
  | Stopping i =>
      match sharedBuffers s !! i with
      | None => Some ([], terminate s Invalid_access)
      | Some b =>
          Some ([StoppedInput i],
                with_caller (with_buffers s (<[i := stoppedInput b]> (sharedBuffers s)))
                  (Waiting i))
      end
  | Waiting i =>
      if (S i <? length (sharedBuffers s))%nat
      then
        match processingStages s !! i with
        | None => Some ([], terminate s Invalid_access)
        | Some st => if stopped st then Some ([], with_caller s (Stopping (S i))) else None
        end
      else
        if collectionStopped (collectionStage s)
        then Some ([], with_caller s (Returned (collectedOutput (collectionStage s))))
        else None
  end.

(** [DoubleBuffer::addItem] takes the lock of the buffer for reading only,
    which several threads can hold at once: it is written for one producer.
    The pool [allFrames] has two: the caller, which puts the unused frame
    back when the source is at its end ([getFrame]), and the collection
    thread ([returnFrame]).  When each of them has the call of
    [allFrames.addItem] as its next move, the two calls can overlap, and both
    then append to the same [QList] at the same time. *)
Definition racing_addItem (s : StreamTransform) : option (list Event * StreamTransform) :=
  match caller s, collectionPc (collectionStage s),
        actualSource (dataSource (readStage s)) with
  | Filling aFrame, Holding frame, Some source =>
      if (ActualSource_getNext source {| sequenceNumber := -1; data := [] |}).1.1
      then None
      else Some ([], terminate s Data_race)
  | _, _, _ => None
  end.

Definition step (t : Thread) (s : StreamTransform) : option (list Event * StreamTransform) :=
  match terminated s with
  | Some _ => None
  | None =>
      match t with
      | MainThread => caller_step s
      | StageThread i => stage_step i s
      | CollectionThread => collection_step s
      | MainAndCollection => racing_addItem s
      end
  end.

(** [StreamTransform::projectUpdate(const TemplateList &src, TemplateList
    &dst)] up to the point where the caller runs the read stage itself: the
    size check, opening the source, [startInput] on every buffer,
    [markStart] and [start] for every stage.  The workers only start to
    move here, so that the events of this prefix are taken as one step. *)
Definition projectUpdate_enter (src : TemplateList) (s : StreamTransform)
    : list Event * StreamTransform :=
  match src with
  | [input] =>
      let dst := src in
      let '(res, d) := DataSourceManager_open (dataSource (readStage s)) input in
      if res : bool
      then
        (((fun i => Started (StageThread i)) <$> seq 0 (length (processingStages s)))
           ++ [Started CollectionThread],
         {| readStage := {| dataSource := d;
                            readOutputBuffer := readOutputBuffer (readStage s);
                            readStopped := readStopped (readStage s) |};
            collectionStage :=
              {| collectionStopped := false;
                 collectionInputBuffer := collectionInputBuffer (collectionStage s);
                 collectedOutput := collectedOutput (collectionStage s);
                 collectionPc := Getting |};
            processingStages :=
              (fun st => {| stopped := false; inputBuffer := inputBuffer st;
                            outputBuffer := outputBuffer st; transform := transform st;
                            pc := Getting |}) <$> processingStages s;
            sharedBuffers := startInput <$> sharedBuffers s;
            caller := Reading;
            terminated := terminated s |})
      else
        ([Logged (Failed_to_stream (name (file input)))],
         with_caller (with_dataSource s d) (Returned dst))
  | _ =>
      ([Aborted "Expected single template input to stream"],
       terminate s (qFatal "Expected single template input to stream"))
  end.

(** [StreamTransform::init]: one [DoubleBuffer] after the read stage and
    one after every transform; stage [i] reads buffer [i] and writes buffer
    [i + 1]; the collection stage reads the last buffer.  Every flag that no
    constructor sets holds the value that [garbage] gives for it, each flag
    its own. *)
Definition StreamTransform_init (transforms : list T) (garbage : Uninitialised)
    : StreamTransform :=
  {| readStage := {| dataSource := DataSourceManager_new (pool_no_input garbage);
                     readOutputBuffer := 0;
                     readStopped := read_stopped garbage |};
     collectionStage := {| collectionStopped := collection_stopped garbage;
                           collectionInputBuffer := length transforms;
                           collectedOutput := []; collectionPc := Parked |};
     processingStages :=
       imap (fun i t => {| stopped := stage_stopped garbage i; inputBuffer := i;
                           outputBuffer := S i; transform := t; pc := Parked |}) transforms;
     sharedBuffers :=
       (fun j => Double (DoubleBuffer.new (buffer_no_input garbage j)))
         <$> seq 0 (S (length transforms));
     caller := Idle;
     terminated := None |}.

(** The executions: any interleaving of the threads, with the events in
    the order in which they happen. *)
Inductive run : StreamTransform -> list Event -> StreamTransform -> Prop :=
| run_refl s : run s [] s
| run_step s tr s' t ev s'' :
    run s tr s' -> step t s' = Some (ev, s'') -> run s (tr ++ ev) s''.

(** The execution chosen by a schedule; a thread that cannot move is
    skipped. *)
Fixpoint schedule (threads : list Thread) (s : StreamTransform)
    : list Event * StreamTransform :=
  match threads with
  | [] => ([], s)
  | t :: threads' =>
      match step t s with
      | None => schedule threads' s
      | Some (ev, s') => let '(tr, s'') := schedule threads' s' in (ev ++ tr, s'')
      end
  end.

(** *** The sequential meaning of a pipeline *)

(** A stage applied to the frames that reach it, in order. *)
Fixpoint run_stage (t : T) (frames : list FrameData) : result (list FrameData) :=
  match frames with
  | [] => Ok []
  | f :: frames' =>
      match projectUpdate t (data f) with
      | Throw => Throw
      | Ok (t', d) =>
          match run_stage t' frames' with
          | Throw => Throw
          | Ok out => Ok ({| sequenceNumber := sequenceNumber f; data := d |} :: out)
          end
      end
  end.

(** The frames a source will still hand out. *)
Definition remaining (a : ActualSource) : list FrameData :=
  match a with
  | VideoDataSource basis video next_idx =>
      imap (fun k m => {| sequenceNumber := next_idx + Z.of_nat k;
                          data := [Template_of (file basis) m] |})
           (default [] video)
  | TemplateDataSource basis current_idx next_sequence =>
      imap (fun k m => {| sequenceNumber := next_sequence + Z.of_nat k;
                          data := [Template_of_mat m] |})
           (drop current_idx (matrices basis))
  end.
End Stream.

(** ** Concrete instances used to exercise the statements *)

Definition demo_registry : gmap string MetaObject :=
  list_to_map
    [("Chain"%string, {| metaProperties := [("transforms"%string, QList_Transform)];
                         declaresIndependent := false |});
     ("Pipe"%string, {| metaProperties := [("transforms"%string, QList_Transform)];
                        declaresIndependent := false |});
     ("Fork"%string, {| metaProperties := [("transforms"%string, QList_Transform)];
                        declaresIndependent := false |});
     ("Cache"%string, {| metaProperties := [("transform"%string, Transform_ptr)];
                         declaresIndependent := false |});
     ("LoadStore"%string, {| metaProperties := [("transform"%string, Transform_ptr)];
                             declaresIndependent := false |});
     ("A"%string, {| metaProperties := []; declaresIndependent := false |});
     ("B"%string, {| metaProperties := []; declaresIndependent := false |});
     ("C"%string, {| metaProperties := []; declaresIndependent := false |});
     ("Leaf"%string, {| metaProperties := [("scale"%string, other_t)];
                        declaresIndependent := true |})].

Definition demo_Globals : Context := {| Globals_properties := ∅; Globals_classes := ∅ |}.

(** A plugin that doubles every pixel of a single-matrix template. *)
Definition demo_Leaf : Plugin :=
  {| objectName := "Leaf"; independent := true; untrainable := false;
     project_impl := fun _ src =>
       Ok {| file := file src;
             matrices := (fun m => {| pixels := Z.mul 2 <$> pixels m |}) <$> matrices src |} |}.

Definition demo_item : Template :=
  {| file := File_new "item";
     matrices := [{| pixels := [1] |}; {| pixels := [2] |}; {| pixels := [3] |}] |}.

(** The texts that [Transform::make] goes through on "A+B" and "(A+B)/C". *)
Definition example_texts : list string :=
  ["A+B"; "Pipe([A,B])"; "A"; "B"; "(A+B)/C"; "Fork([(A+B),C])"; "(A+B)"; "C"]%string.

(** How the composites "Pipe" and "Fork" are registered: one property, the
    list of their children. *)
Definition composite_class : MetaObject :=
  {| metaProperties := [("transforms"%string, QList_Transform)];
     declaresIndependent := false |}.

(** What [make] returns for a registered name without arguments. *)
Definition leaf (meta : MetaObject) (n : string) : TransformNode :=
  if declaresIndependent meta then IndependentOf (Object n []) else Object n [].

(** How many of the generator states [Ω], each as likely as the others, make
    [E] true. *)
Definition chance {R} (Ω : list R) (E : R -> Prop) `{forall ω, Decision (E ω)} : nat :=
  length (filter E Ω).

(** A generator with two states, and the shuffle that turns a list round in
    one of them. *)
Definition coin_shuffle (A : Type) (l : list A) (rng : bool) : list A * bool :=
  (if rng then reverse l else l, rng).

(** The labels 5 and 7 changed for one another. *)
Definition swap_5_7 (l : Z) : Z := if l =? 5 then 7 else if l =? 7 then 5 else l.

(** The guard at the head of [Downsample]: no cap is set. *)
Definition no_downsampling (transform : Transform) : bool :=
  (classes transform =? INT_MAX) && (instances transform =? INT_MAX)
  && Qle_bool 1 (fraction transform).

(** A shuffle that leaves the order as it is, for a generator without state,
    and label counts over the items of a batch. *)
Definition keep_order (A : Type) (l : list A) (rng : unit) : list A * unit := (l, rng).

(** Conversions that read the decimal numerals of the examples. *)
Definition demo_conv : FloatConversions :=
  {| QVariant_toFloat := fun v => inject_Z <$> QVariant_toInt v; float_of_int := inject_Z |}.

Definition demo_label (t : Template) : Z := narrow (File_label demo_conv demo_Globals (file t)).

Definition demo_labelCounts (templates : TemplateList) (excludeFailures : bool) : gmap Z Z :=
  foldr (fun t counts =>
           if excludeFailures && File_getBool demo_Globals (file t) "FTE" then counts
           else <[demo_label t := 1 + default 0 (counts !! demo_label t)]> counts)
        ∅ templates.

Definition labelled (n : string) (l : string) : Template :=
  {| file := {| name := n; m_metadata := {["Label"%string := QStr l]} |};
     matrices := [{| pixels := [0] |}] |}.

Definition demo_batch : TemplateList :=
  [labelled "a" "5"; labelled "b" "7"; labelled "c" "5"; labelled "d" "7"; labelled "e" "9"].

Definition demo_sampler (c n : Z) (r : bool) : Transform :=
  {| plugin := demo_Leaf; relabel := r; classes := c; instances := n; fraction := 1%Q;
     trained := [] |}.

(** The single-channel items that a batch offers for channel index [i], and
    the largest number of channels of its templates. *)
Definition channel (i : nat) (data : TemplateList) : TemplateList :=
  omap (fun t => Template_of (file t) <$> matrices t !! i) data.

Definition channelCount (data : TemplateList) : nat :=
  max_list ((fun t => length (matrices t)) <$> data).

(** A trainable plugin and two templates with one and with two channels. *)
Definition demo_Trainable : Plugin :=
  {| objectName := "Trainable"; independent := true; untrainable := false;
     project_impl := fun _ src => Ok src |}.

Definition one_channel : Template :=
  {| file := File_new "one"; matrices := [{| pixels := [1] |}] |}.

Definition two_channels : Template :=
  {| file := File_new "two"; matrices := [{| pixels := [2] |}; {| pixels := [3] |}] |}.

(** *** What the buffer invariants speak of *)

(** The consumer sleeps only on an empty, open buffer, is signalled only
    once there is an item or the input was stopped, and (for the double
    buffer) has left the entry of [getItem] only on an empty output
    buffer. *)
Definition sound (sb : SharedBuffer) : Prop :=
  match sb with
  | Single b =>
      match SingleBuffer.consumer b with
      | SingleBuffer.Entry => True
      | SingleBuffer.Wait false =>
          SingleBuffer.buffer b = [] /\ SingleBuffer.no_input b = false
      | SingleBuffer.Wait true =>
          SingleBuffer.buffer b <> [] \/ SingleBuffer.no_input b = true
      end
  | Double b =>
      match DoubleBuffer.consumer b with
      | DoubleBuffer.Entry => True
      | DoubleBuffer.WriteLock => DoubleBuffer.outputBuffer b = []
      | DoubleBuffer.Wait false =>
          DoubleBuffer.outputBuffer b = [] /\ DoubleBuffer.inputBuffer b = []
          /\ DoubleBuffer.no_input b = false
      | DoubleBuffer.Wait true =>
          DoubleBuffer.outputBuffer b = []
          /\ (DoubleBuffer.inputBuffer b <> [] \/ DoubleBuffer.no_input b = true)
      end
  end.

(** An empty buffer that expects input and has no call of [getItem] under
    way: [SingleBuffer()], or a [DoubleBuffer] after [startInput]. *)
Definition fresh (sb : SharedBuffer) : bool :=
  match contents sb with [] => true | _ => false end && negb (closed sb) && idle sb.

(** How far the consumer is from the end of its current call. *)
Definition rank (sb : SharedBuffer) : nat :=
  match sb with
  | Single b =>
      match SingleBuffer.consumer b with
      | SingleBuffer.Entry => 3
      | SingleBuffer.Wait _ => 1
      end
  | Double b =>
      match DoubleBuffer.consumer b with
      | DoubleBuffer.Entry => 3
      | DoubleBuffer.WriteLock => 2
      | DoubleBuffer.Wait _ => 1
      end
  end.

(** A bound on the number of steps that the test can still take. *)
Definition Harness_measure (h : Harness) : nat :=
  5 * length (toPush h) + (if finished h then 0 else 1)
  + 4 * length (contents (shared h)) + rank (shared h) + (if ended h then 0 else 3).

(** The invariant of the buffer test over the pushed [items]. *)
Definition Harness_invariant (items : list FrameData) (h : Harness) : Prop :=
  sound (shared h)
  /\ crashed h = false
  /\ received h ++ contents (shared h) ++ toPush h = items
  /\ closed (shared h) = finished h
  /\ (finished h = true -> toPush h = [])
  /\ (ended h = true -> contents (shared h) = [] /\ finished h = true).

Definition frame (n : Z) : FrameData := {| sequenceNumber := n; data := [] |}.

Definition demo_interleaving : list Actor :=
  [Consumer; Consumer; Producer; Consumer; Producer; Producer; Consumer;
   Consumer; Producer; Consumer; Consumer; Consumer; Consumer].

(** *** What the executor invariants speak of *)

Definition held (p : StagePc) : list FrameData :=
  match p with
  | Holding currentItem => [currentItem]
  | _ => []
  end.

Definition collectedFrames (tr : list Event) : list FrameData :=
  omap (fun e => match e with Collected frame => Some frame | _ => None end) tr.

Section StreamSpec.
Context {T : Type}.
Variable projectUpdate : T -> TemplateList -> result (T * TemplateList).

(** The frames that will reach the collection stage, given what the stages
    hold, what their input buffers contain and the frames [up] that are still
    to come from upstream: stage after stage, each one applied to its frames
    in order. *)
Fixpoint through (stages : list (@ProcessingStage T)) (buffers : list SharedBuffer)
    (up : list FrameData) : result (list FrameData) :=
  match stages, buffers with
  | [], b :: _ => Ok (contents b ++ up)
  | st :: stages', b :: buffers' =>
      match run_stage projectUpdate (transform st) (held (pc st) ++ contents b ++ up) with
      | Ok out => through stages' buffers' out
      | Throw => Throw
      end
  | _, [] => Throw
  end.

(** A whole pipeline applied to the frames of a source, one stage after the
    other. *)
Fixpoint run_all (transforms : list T) (frames : list FrameData) : result (list FrameData) :=
  match transforms with
  | [] => Ok frames
  | t :: transforms' =>
      match run_stage projectUpdate t frames with
      | Ok out => run_all transforms' out
      | Throw => Throw
      end
  end.

Definition upcoming (s : @StreamTransform T) : list FrameData :=
  match actualSource (dataSource (readStage s)) with
  | Some a => remaining a
  | None => []
  end.

(** Everything between the source and [collectedOutput]. *)
Definition in_flight (s : @StreamTransform T) : result (list FrameData) :=
  match through (processingStages s) (sharedBuffers s) (upcoming s) with
  | Ok r => Ok (held (collectionPc (collectionStage s)) ++ r)
  | Throw => Throw
  end.

(** [init] links stage [i] to the buffers [i] and [i + 1], the read stage to
    buffer [0] and the collection stage to the last buffer. *)
Definition wired (s : @StreamTransform T) : Prop :=
  length (sharedBuffers s) = S (length (processingStages s))
  /\ readOutputBuffer (readStage s) = 0%nat
  /\ collectionInputBuffer (collectionStage s) = length (processingStages s)
  /\ forall i st, processingStages s !! i = Some st ->
       inputBuffer st = i /\ outputBuffer st = S i.

(** The worker that consumes buffer [j]: stage [j], or the collection stage
    for the last buffer. *)
Definition consumerPc (s : @StreamTransform T) (j : nat) : option StagePc :=
  match processingStages s !! j with
  | Some st => Some (pc st)
  | None =>
      if decide (j = length (processingStages s))
      then Some (collectionPc (collectionStage s)) else None
  end.

(** How many buffers the caller has stopped, and how many workers it has
    seen stop. *)
Definition stoppedBuffers (s : @StreamTransform T) : nat :=
  match caller s with
  | Stopping i => i
  | Waiting i => S i
  | Returned _ => length (sharedBuffers s)
  | _ => 0
  end.

Definition awaited (s : @StreamTransform T) : nat :=
  match caller s with
  | Stopping i | Waiting i => i
  | Returned _ => length (sharedBuffers s)
  | _ => 0
  end.

(** No run is under way: the workers are parked and the buffers empty. *)
Definition quiescent (s : @StreamTransform T) : Prop :=
  wired s
  /\ terminated s = None
  /\ match caller s with Idle | Returned _ => True | _ => False end
  /\ (forall j b, sharedBuffers s !! j = Some b -> idle b = true /\ contents b = [])
  /\ (forall i st, processingStages s !! i = Some st -> pc st = Parked)
  /\ collectionPc (collectionStage s) = Parked
  /\ sound (Double (allFrames (dataSource (readStage s))))
  /\ DoubleBuffer.no_input (allFrames (dataSource (readStage s))) = false.

(** The invariant of a run. *)
Record StreamInv (s : @StreamTransform T) : Prop := {
  inv_wired : wired s;
  inv_terminated :
    terminated s = None \/ terminated s = Some Uncaught_exception
    \/ terminated s = Some Data_race;
  inv_pool :
    sound (Double (allFrames (dataSource (readStage s))))
    /\ DoubleBuffer.no_input (allFrames (dataSource (readStage s))) = false;
  inv_caller :
    match caller s with
    | Idle => False
    | Reading | Filling _ => is_Some (actualSource (dataSource (readStage s)))
    | Stopping i | Waiting i => (i < length (sharedBuffers s))%nat /\ upcoming s = []
    | Returned _ => upcoming s = []
    end;
  inv_buffers :
    forall j b p, sharedBuffers s !! j = Some b -> consumerPc s j = Some p ->
      sound b
      /\ (closed b = true -> (j < stoppedBuffers s)%nat)
      /\ (p <> Getting -> idle b = true)
      /\ (p = Parked -> contents b = [] /\ closed b = true);
  inv_awaited :
    forall j p, (j < awaited s)%nat -> consumerPc s j = Some p -> p = Parked;
  inv_stopped :
    (forall i st, processingStages s !! i = Some st ->
       (stopped st = true <-> pc st = Parked))
    /\ (collectionStopped (collectionStage s) = true
        <-> collectionPc (collectionStage s) = Parked)
}.
End StreamSpec.

(** A result with [pre] put in front: what reaches the collection stage
    after a step that has collected [pre]. *)
Definition prepend (pre : list FrameData) (r : result (list FrameData))
    : result (list FrameData) :=
  match r with
  | Ok fs => Ok (pre ++ fs)
  | Throw => Throw
  end.

(** The frames that the source opened on [input] hands out: the frames of
    the video named by the file when [input] holds no matrix, the matrices
    of [input] otherwise. *)
Definition emitted (VideoCapture : string -> option (list Mat)) (input : Template)
    : list FrameData :=
  remaining (if bool_decide (matrices input = [])
             then VideoDataSource input (VideoCapture (name (file input))) 0
             else TemplateDataSource input 0 0).

(** [DataSource::getFrame] called over and over on a source, at most [fuel]
    times: the frames handed out until [getNext] reports the end. *)
Fixpoint deal (fuel : nat) (a : ActualSource) : list FrameData :=
  match fuel with
  | O => []
  | S fuel' =>
      let '(res, aFrame, a') :=
        ActualSource_getNext a {| sequenceNumber := -1; data := [] |} in
      if res : bool then aFrame :: deal fuel' a' else []
  end.

(** A time-varying stage used in the examples: it counts the frames it has
    seen, stamps the count on every template of the frame, and raises on the
    frame numbered [limit]. *)
Definition demo_stage (limit : Z) (count : Z) (frameData : TemplateList)
    : result (Z * TemplateList) :=
  if count =? limit then Throw
  else Ok (count + 1,
           (fun t => {| file := File_insert (file t) "Seen" (QInt count);
                        matrices := matrices t |}) <$> frameData).

Definition no_video (fileName : string) : option (list Mat) := None.

Definition demo_frames : Template :=
  {| file := File_new "clip";
     matrices := [ {| pixels := [1] |}; {| pixels := [2] |}; {| pixels := [3] |} ] |}.

Definition round_robin (rounds : nat) : list Thread :=
  concat (replicate rounds [MainThread; StageThread 0; StageThread 1; CollectionThread]).

(** *** The order in which a run winds down *)

(** The events of a trace that belong to the winding down: a thread that
    marks itself stopped, the caller that stops the input of a buffer. *)
Definition drainEvents (tr : list Event) : list Event :=
  omap (fun e => match e with
                 | StoppedInput _ | MarkedStop _ => Some e
                 | _ => None
                 end) tr.

(** Buffer [i] is stopped, then its consumer marks itself stopped, then the
    next buffer is stopped, down to the collection stage. *)
Fixpoint drainFrom (i stages : nat) : list Event :=
  match stages with
  | O => [StoppedInput i; MarkedStop CollectionThread]
  | S stages' =>
      StoppedInput i :: MarkedStop (StageThread i) :: drainFrom (S i) stages'
  end.

Definition drainWave (stages : nat) : list Event :=
  MarkedStop MainThread :: drainFrom 0 stages.

(** How far along [drainWave] a state is. *)
Definition drained {T} (s : @StreamTransform T) : nat :=
  match caller s with
  | Idle | Reading | Filling _ => 0
  | Stopping i => 1 + 2 * i
  | Waiting i =>
      2 + 2 * i + match consumerPc s i with Some Parked => 1 | _ => 0 end
  | Returned _ => 3 + 2 * length (processingStages s)
  end.

(** A stream of two counting stages, just initialised, the flags that no
    constructor sets holding a mix of values; the call on [demo_frames]; and
    the run of that call in which the threads take turns. *)
Definition demo_garbage : Uninitialised :=
  {| read_stopped := true; collection_stopped := false;
     stage_stopped := Nat.even; buffer_no_input := Nat.odd; pool_no_input := true |}.

Definition demo_stream : @StreamTransform Z := StreamTransform_init [0; 0] demo_garbage.

Definition demo_call (s : @StreamTransform Z) : list Event * @StreamTransform Z :=
  projectUpdate_enter no_video [demo_frames] s.

Definition demo_run (limit : Z) (s : @StreamTransform Z) : list Event * @StreamTransform Z :=
  schedule (demo_stage limit) (round_robin 40) (demo_call s).2.

(** A schedule that lets the caller deal the three frames and come to the
    end of the source, lets the stages pass the first frame on to the
    collection thread, and then lets the caller and the collection thread
    give their frames back to the pool at the same time. *)
Definition demo_race : list Thread :=
  replicate 8 MainThread ++ replicate 3 (StageThread 0) ++ replicate 3 (StageThread 1)
  ++ replicate 2 CollectionThread ++ [MainAndCollection].

(** The result handed back by a call that has returned. *)
Definition returned {T} (s : @StreamTransform T) : TemplateList :=
  match caller s with
  | Returned dst => dst
  | _ => []
  end.

Definition demo_source (s : @StreamTransform Z) : DataSourceManager :=
  (DataSourceManager_open no_video (dataSource (readStage s)) demo_frames).2.

(** A file that cannot be opened, and a video that opens and holds no
    frame. *)
Definition missing_clip : Template :=
  {| file := File_new "missing.avi"; matrices := [] |}.

Definition empty_video (fileName : string) : option (list Mat) := Some [].

(** The stream of the examples with a [SingleBuffer] in place of every
    [DoubleBuffer]. *)
Definition demo_single_stream : @StreamTransform Z :=
  with_buffers demo_stream (replicate 3 (Single SingleBuffer.new)).

(** A schedule that lets the caller read the source to its end and stop the
    first buffer, and the first stage work through its frames up to the
    point where its next move reads the end marker. *)
Definition demo_drain : list Thread :=
  replicate 12 MainThread ++ replicate 8 (StageThread 0).

(** A single-item apply that raises on the matrix 2.

    Modelled from the spec: the [projectUpdate(TemplateList &)] of a
    transform without state is declared in the plugin header, which is not
    part of the sources at hand.  In [demo_batch_stage] it is the batch
    apply of the transform, the way a stage "applies its Transform Node"
    under the exception policy of the single-item apply. *)
Definition picky (src dst : Template) : result Template :=
  match matrices src with
  | [{| pixels := [2] |}] => Throw
  | _ => Ok src
  end.

Definition demo_batch_stage (count : Z) (frameData : TemplateList)
    : result (Z * TemplateList) :=
  Ok (count + 1, (Transform_project_list picky "Picky" frameData []).1).

(** * Properties *)

(** ** Batch apply recovers from exceptions *)

Lemma File_getBool_setBool Globals f key :
  File_getBool Globals (File_setBool f key true) key = true.
Proof.
  unfold File_getBool, File_setBool, File_contains, File_value; simpl.
  rewrite lookup_insert_eq; simpl. reflexivity.
Qed.

Lemma failure_marker_FTE Globals src :
  File_getBool Globals (file (failure_marker src)) "FTE" = true
  /\ matrices (failure_marker src) = []
  /\ name (file (failure_marker src)) = name (file src).
Proof. split; [apply File_getBool_setBool | split; reflexivity]. Qed.

Lemma _project_fst project n src dst :
  (_project project n src dst).1
  = match project src dst with Ok d => d | Throw => failure_marker src end.
Proof. unfold _project, failure_marker. destruct (project src dst); reflexivity. Qed.

Lemma _project_snd project n src dst :
  (_project project n src dst).2
  = match project src dst with
    | Ok _ => []
    | Throw => [Exception_triggered (file src) n]
    end.
Proof. unfold _project. destruct (project src dst); reflexivity. Qed.

(** Slot [i + k] is handed to the call for the [k]-th item as it was at the
    start: the calls before it have written to other slots. *)
Lemma project_slots_fst project n src : forall i dst,
  (i + length src <= length dst)%nat ->
  (project_slots project n i src dst).1
  = take i dst
    ++ zip_with (fun s d => (_project project n s d).1) src (drop i dst)
    ++ drop (i + length src) dst.
Proof.
  induction src as [|s src IH]; intros i dst Hlen.
  - simpl. rewrite Nat.add_0_r, take_drop. reflexivity.
  - cbn [project_slots length] in *.
    destruct (lookup_lt_is_Some_2 dst i) as [d0 Hd0]; [lia|].
    rewrite Hd0. cbn [default from_option id].
    destruct (_project project n s d0) as [d w] eqn:Hd. cbv iota beta.
    specialize (IH (S i) (<[i:=d]> dst)).
    destruct (project_slots project n (S i) src (<[i:=d]> dst)) as [dst' w'] eqn:Hs.
    cbn [fst] in *. rewrite IH by (rewrite length_insert; lia).
    rewrite !drop_insert_lt by lia.
    replace (S i + length src)%nat with (i + S (length src))%nat by lia.
    rewrite (take_S_r (<[i:=d]> dst) i d) by (apply list_lookup_insert_eq; lia).
    rewrite take_insert_ge by lia.
    rewrite (drop_S dst d0 i Hd0). cbn [zip_with]. rewrite Hd. cbn [fst].
    rewrite <- app_assoc. reflexivity.
Qed.

Lemma project_slots_snd project n src : forall i dst,
  (i + length src <= length dst)%nat ->
  (project_slots project n i src dst).2
  = concat (zip_with (fun s d => (_project project n s d).2) src (drop i dst)).
Proof.
  induction src as [|s src IH]; intros i dst Hlen; [reflexivity|].
  cbn [project_slots length] in *.
  destruct (lookup_lt_is_Some_2 dst i) as [d0 Hd0]; [lia|].
  rewrite Hd0. cbn [default from_option id].
  destruct (_project project n s d0) as [d w] eqn:Hd. cbv iota beta.
  specialize (IH (S i) (<[i:=d]> dst)).
  destruct (project_slots project n (S i) src (<[i:=d]> dst)) as [dst' w'] eqn:Hs.
  cbn [snd] in *. rewrite IH by (rewrite length_insert; lia).
  rewrite drop_insert_lt by lia.
  rewrite (drop_S dst d0 i Hd0). cbn [zip_with concat]. rewrite Hd. reflexivity.
Qed.
(** ** The per-channel adapter *)

Lemma Independent_project_from_Ok Globals ind src : forall channels i dst results,
  imap (fun k c =>
          (fun child => Transform_project1 child (Template_of (file src) c))
            <$> transforms ind !! ((i + k) mod length (transforms ind))%nat) channels
  = (fun r => Some (Ok r)) <$> results ->
  Independent_project_from Globals ind src i channels dst
  = Ok (foldl (Template_merge Globals) dst results).
Proof.
  induction channels as [|c channels IH]; intros i dst results H.
  - destruct results; [reflexivity|discriminate].
  - destruct results as [|r results]; [discriminate|].
    cbn [imap fmap list_fmap] in H. injection H as Hc Hrest.
    rewrite Nat.add_0_r in Hc.
    cbn [Independent_project_from foldl].
    destruct (transforms ind !! (i mod length (transforms ind))%nat) as [child|];
      [|discriminate].
    simpl in Hc. injection Hc as ->.
    apply IH. rewrite <- Hrest. apply imap_ext.
    intros k x _. simpl. do 3 f_equal. lia.
Qed.

Lemma foldl_merge_matrices Globals results : forall dst,
  matrices (foldl (Template_merge Globals) dst results)
  = matrices dst ++ concat (matrices <$> results).
Proof.
  induction results as [|r results IH]; intros dst; simpl.
  - rewrite app_nil_r. reflexivity.
  - rewrite IH. simpl. rewrite app_assoc. reflexivity.
Qed.



Lemma one_word_inv words :
  one_word words = true -> exists ws, words = Made ws /\ (1 <? length ws)%nat = false.
Proof.
  destruct words as [ws| |]; try discriminate. simpl.
  intros H. exists ws. split; [reflexivity|]. destruct (1 <? length ws)%nat; [discriminate|reflexivity].
Qed.

Lemma make_leaf abbreviations registry fuel str f meta props :
  abbreviations !! str = None ->
  no_shorthand str = true ->
  File_init ("." +:+ str) = Made f ->
  registry !! File_suffix f = Some meta ->
  Object_init_keys (make abbreviations registry fuel) meta (map_to_list (m_metadata f)) []
    = Made props ->
  make abbreviations registry (S fuel) str
  = Made (if declaresIndependent meta then IndependentOf (Object (File_suffix f) props)
          else Object (File_suffix f) props).
Proof.
  intros Habbr Hplain Hf Hreg Hprops.
  unfold no_shorthand in Hplain.
  repeat (apply andb_prop in Hplain; destruct Hplain as [Hplain ?]).
  apply one_word_inv in Hplain as (bang & Hbang & Hb).
  match goal with H : one_word (parse str "+") = true |- _ =>
    apply one_word_inv in H as (plus & Hplus & Hp) end.
  match goal with H : one_word (parse str "/") = true |- _ =>
    apply one_word_inv in H as (slash & Hslash & Hs) end.
  repeat match goal with H : negb ?b = true |- _ => apply negb_true_iff in H end.
  cbn [make]. rewrite Habbr, Hbang. cbn [mbind outcome_bind]. rewrite Hb, Hplus.
  cbn [mbind outcome_bind]. rewrite Hp, Hslash. cbn [mbind outcome_bind]. rewrite Hs.
  repeat match goal with H : _ && _ = false |- _ => rewrite H; clear H end.
  rewrite Hf. cbn [mbind outcome_bind]. unfold Factory_make. rewrite Hreg, Hprops.
  destruct (declaresIndependent meta); reflexivity.
Qed.

(** C5. A leaf whose registered class declares itself independent comes out
    of [Transform::make] inside the [Independent] adapter; on an item of [k]
    channels the adapter hands each channel, as a single-channel item with
    the parent's file, to the child picked for its index, and merges the [k]
    results in channel order into one item that starts from the parent's
    file.  Wrapped or not, what [make] returns is a transform node like any
    other. *)
Theorem Independent_adapter_transparent abbreviations registry fuel str f meta props
    Globals (ind : Independent) (src : Template) (results : list Template) :
  abbreviations !! str = None ->
  no_shorthand str = true ->
  File_init ("." +:+ str) = Made f ->
  registry !! File_suffix f = Some meta ->
  declaresIndependent meta = true ->
  Object_init_keys (make abbreviations registry fuel) meta (map_to_list (m_metadata f)) []
    = Made props ->
  channel_results ind src = (fun r => Some (Ok r)) <$> results ->
  make abbreviations registry (S fuel) str
    = Made (IndependentOf (Object (File_suffix f) props))
  /\ length results = length (matrices src)
  /\ Independent_project Globals ind src Template_empty
     = Ok (foldl (Template_merge Globals) (Template_of_file (file src)) results)
  /\ matrices (foldl (Template_merge Globals) (Template_of_file (file src)) results)
     = concat (matrices <$> results).
Proof.
  intros Habbr Hplain Hf Hreg Hind Hprops Hres. repeat split.
  - rewrite (make_leaf _ _ _ _ _ _ _ Habbr Hplain Hf Hreg Hprops), Hind. reflexivity.
  - apply (f_equal length) in Hres. unfold channel_results in Hres.
    rewrite length_imap, length_fmap in Hres. congruence.
  - unfold Independent_project. apply Independent_project_from_Ok. exact Hres.
  - rewrite foldl_merge_matrices. reflexivity.
Qed.

Lemma Independent_adapter_transparent_witness :
  make ∅ demo_registry 1 "Leaf(2)" = Made (IndependentOf (Object "Leaf" [("scale"%string, VText "2")]))
  /\ Independent_project demo_Globals (Independent_new (Transform_new demo_Leaf)) demo_item
       Template_empty
     = Ok {| file := File_new "item";
             matrices := [{| pixels := [2] |}; {| pixels := [4] |}; {| pixels := [6] |}] |}.
Proof.
  pose proof (Independent_adapter_transparent ∅ demo_registry 0 "Leaf(2)"
                {| name := ".Leaf"; m_metadata := {["_Arg0"%string := QStr "2"]} |}
                {| metaProperties := [("scale"%string, other_t)]; declaresIndependent := true |}
                [("scale"%string, VText "2")]
                demo_Globals (Independent_new (Transform_new demo_Leaf)) demo_item
                [ {| file := File_new "item"; matrices := [{| pixels := [2] |}] |};
                  {| file := File_new "item"; matrices := [{| pixels := [4] |}] |};
                  {| file := File_new "item"; matrices := [{| pixels := [6] |}] |} ]) as H.
  destruct H as (Hmake & _ & Hproject & _); try (vm_compute; reflexivity).
  split; [exact Hmake|]. rewrite Hproject. vm_compute. reflexivity.
Defined.

(** ** The composition grammar *)

Section MakeFacts.
Variable abbreviations : gmap string string.
Variable registry : gmap string MetaObject.

Local Abbreviation mk := (make abbreviations registry).

Lemma make_abbreviation fuel str expansion :
  abbreviations !! str = Some expansion -> mk (S fuel) str = mk fuel expansion.
Proof. intros H. cbn [make]. rewrite H. reflexivity. Qed.

Lemma make_Chain fuel str bang :
  abbreviations !! str = None ->
  parse str "!" = Made bang -> (1 <? length bang)%nat = true ->
  mk (S fuel) str = mk fuel ("Chain([" +:+ QStringList_join bang "," +:+ "])").
Proof.
  intros Ha Hb Hn. cbn [make]. rewrite Ha, Hb. cbn [mbind outcome_bind].
  rewrite Hn. reflexivity.
Qed.

Lemma make_Pipe fuel str plus :
  abbreviations !! str = None ->
  one_word (parse str "!") = true ->
  parse str "+" = Made plus -> (1 <? length plus)%nat = true ->
  mk (S fuel) str = mk fuel ("Pipe([" +:+ QStringList_join plus "," +:+ "])").
Proof.
  intros Ha (bang & Hb & Hn)%one_word_inv Hp Hm. cbn [make].
  rewrite Ha, Hb. cbn [mbind outcome_bind]. rewrite Hn, Hp. cbn [mbind outcome_bind].
  rewrite Hm. reflexivity.
Qed.

Lemma make_Fork fuel str slash :
  abbreviations !! str = None ->
  one_word (parse str "!") = true ->
  one_word (parse str "+") = true ->
  parse str "/" = Made slash -> (1 <? length slash)%nat = true ->
  mk (S fuel) str = mk fuel ("Fork([" +:+ QStringList_join slash "," +:+ "])").
Proof.
  intros Ha (bang & Hb & Hn)%one_word_inv (plus & Hp & Hm)%one_word_inv Hs Hk.
  cbn [make].
  rewrite Ha, Hb. cbn [mbind outcome_bind]. rewrite Hn, Hp. cbn [mbind outcome_bind].
  rewrite Hm, Hs. cbn [mbind outcome_bind]. rewrite Hk. reflexivity.
Qed.

(** Once no separator applies, an enclosing bracket pair is unwrapped:
    braces first, then angle brackets, then parentheses. *)
Lemma make_brackets fuel str :
  abbreviations !! str = None ->
  one_word (parse str "!") = true ->
  one_word (parse str "+") = true ->
  one_word (parse str "/") = true ->
  let inner := QString_mid str 1 (String.length str - 2) in
  if QString_startsWith str "{" && QString_endsWith str "}"
  then mk (S fuel) str = mk fuel ("Cache(" +:+ inner +:+ ")")
  else if QString_startsWith str "<" && QString_endsWith str ">"
  then mk (S fuel) str = mk fuel ("LoadStore(" +:+ inner +:+ ")")
  else if QString_startsWith str "(" && QString_endsWith str ")"
  then mk (S fuel) str = mk fuel inner
  else True.
Proof.
  intros Ha (bang & Hb & Hn)%one_word_inv (plus & Hp & Hm)%one_word_inv
    (slash & Hs & Hk)%one_word_inv inner.
  cbn [make].
  rewrite Ha, Hb. cbn [mbind outcome_bind]. rewrite Hn, Hp. cbn [mbind outcome_bind].
  rewrite Hm, Hs. cbn [mbind outcome_bind]. rewrite Hk.
  destruct (QString_startsWith str "{" && QString_endsWith str "}"); [reflexivity|].
  destruct (QString_startsWith str "<" && QString_endsWith str ">"); [reflexivity|].
  destruct (QString_startsWith str "(" && QString_endsWith str ")"); [reflexivity|].
  exact I.
Qed.

(** A plain registered name, without arguments. *)
Lemma make_name fuel str meta :
  abbreviations !! str = None ->
  no_shorthand str = true ->
  File_init ("." +:+ str) = Made {| name := "." +:+ str; m_metadata := ∅ |} ->
  File_suffix {| name := "." +:+ str; m_metadata := ∅ |} = str ->
  registry !! str = Some meta ->
  mk (S fuel) str
  = Made (if declaresIndependent meta then IndependentOf (Object str []) else Object str []).
Proof.
  intros Ha Hp Hf Hs Hr.
  erewrite make_leaf; [| exact Ha | exact Hp | exact Hf | rewrite Hs; exact Hr | ].
  - rewrite Hs. reflexivity.
  - simpl. rewrite map_to_list_empty. reflexivity.
Qed.

(** A composite built from its word list: [Name([w1,...,wn])]. *)
Lemma make_composite fuel text cls arg prop children :
  abbreviations !! text = None ->
  no_shorthand text = true ->
  File_init ("." +:+ text)
    = Made {| name := "." +:+ cls; m_metadata := {["_Arg0"%string := QStr ("[" +:+ arg +:+ "]")]} |} ->
  File_suffix {| name := "." +:+ cls; m_metadata := ∅ |} = cls ->
  registry !! cls
    = Some {| metaProperties := [(prop, QList_Transform)]; declaresIndependent := false |} ->
  QString_mid ("[" +:+ arg +:+ "]") 1 (String.length ("[" +:+ arg +:+ "]") - 2) = arg ->
  (words ← parse arg ","; mapM (mk fuel) words) = Made children ->
  mk (S fuel) text = Made (Object cls [(prop, VTransforms children)]).
Proof.
  intros Ha Hp Hf Hs Hr Hmid Hc.
  assert (Hs' : File_suffix {| name := "." +:+ cls;
                  m_metadata := {["_Arg0"%string := QStr ("[" +:+ arg +:+ "]")]} |} = cls)
    by exact Hs.
  erewrite make_leaf; [| exact Ha | exact Hp | exact Hf | rewrite Hs'; exact Hr | ].
  - rewrite Hs'. reflexivity.
  - cbn [m_metadata]. rewrite map_to_list_singleton.
    cbn [Object_init_keys QVariant_toString].
    replace (String.prefix "_Arg" "_Arg0") with true by reflexivity.
    replace (QString_toInt (QString_mid "_Arg0" 4 (String.length "_Arg0" - 4)))
      with (Some 0) by reflexivity.
    cbn [default Z.to_nat metaProperties lookup list_lookup fmap option_fmap option_map fst].
    unfold setProperty.
    replace (propertyType _ prop) with (Some QList_Transform).
    2:{ unfold propertyType. cbn [metaProperties list_find]. 
        rewrite decide_True by reflexivity. reflexivity. }
    replace (QString_startsWith ("[" +:+ arg +:+ "]") "[") with true by reflexivity.
    cbn [negb]. rewrite Hmid.
    destruct (parse arg ",") as [words| |]; try discriminate.
    cbn [mbind outcome_bind] in *. rewrite Hc. reflexivity.
Qed.
End MakeFacts.


(** C4. [Transform::make] tries its rules in a fixed order: a registered
    abbreviation is expanded; otherwise the text is cut at the top-level
    ['!'] into a Chain, else at ['+'] into a Pipe, else at ['/'] into a Fork;
    otherwise an enclosing pair of braces becomes a Cache, of angle brackets
    a LoadStore, and parentheses are dropped; every piece is made in turn.
    "A+B" is a Pipe of A then B, and "(A+B)/C" is a Fork whose first child is
    that Pipe. *)
Theorem Transform_make_grammar abbreviations registry fuel str ma mb mc :
  Forall (fun s => abbreviations !! s = None) example_texts ->
  registry !! "Pipe" = Some composite_class ->
  registry !! "Fork" = Some composite_class ->
  registry !! "A" = Some ma ->
  registry !! "B" = Some mb ->
  registry !! "C" = Some mc ->
  (forall expansion, abbreviations !! str = Some expansion ->
     make abbreviations registry (S fuel) str = make abbreviations registry fuel expansion)
  /\ (abbreviations !! str = None ->
      forall bang, parse str "!" = Made bang ->
      if (1 <? length bang)%nat
      then make abbreviations registry (S fuel) str
           = make abbreviations registry fuel ("Chain([" +:+ QStringList_join bang "," +:+ "])")
      else
      forall plus, parse str "+" = Made plus ->
      if (1 <? length plus)%nat
      then make abbreviations registry (S fuel) str
           = make abbreviations registry fuel ("Pipe([" +:+ QStringList_join plus "," +:+ "])")
      else
      forall slash, parse str "/" = Made slash ->
      if (1 <? length slash)%nat
      then make abbreviations registry (S fuel) str
           = make abbreviations registry fuel ("Fork([" +:+ QStringList_join slash "," +:+ "])")
      else
      let inner := QString_mid str 1 (String.length str - 2) in
      if QString_startsWith str "{" && QString_endsWith str "}"
      then make abbreviations registry (S fuel) str
           = make abbreviations registry fuel ("Cache(" +:+ inner +:+ ")")
      else if QString_startsWith str "<" && QString_endsWith str ">"
      then make abbreviations registry (S fuel) str
           = make abbreviations registry fuel ("LoadStore(" +:+ inner +:+ ")")
      else if QString_startsWith str "(" && QString_endsWith str ")"
      then make abbreviations registry (S fuel) str = make abbreviations registry fuel inner
      else True)
  /\ make abbreviations registry (3 + fuel) "A+B"
     = Made (Object "Pipe" [("transforms"%string, VTransforms [leaf ma "A"; leaf mb "B"])])
  /\ make abbreviations registry (6 + fuel) "(A+B)/C"
     = Made (Object "Fork"
               [("transforms"%string,
                 VTransforms
                   [Object "Pipe" [("transforms"%string, VTransforms [leaf ma "A"; leaf mb "B"])];
                    leaf mc "C"])]).
Proof.
  intros Habbr HPipe HFork HA HB HC.
  assert (Hnone : forall s, s ∈ example_texts -> abbreviations !! s = None)
    by (apply Forall_forall; exact Habbr).
  assert (Hleaf : forall n s m, s ∈ ["A"; "B"; "C"]%string -> registry !! s = Some m ->
            make abbreviations registry (S n) s = Made (leaf m s)).
  { intros n s m Hs Hm.
    repeat (apply elem_of_cons in Hs as [->|Hs]); [| | |inversion Hs];
      (apply make_name; [apply Hnone, list_elem_of_In; simpl; tauto
                        | reflexivity | reflexivity | reflexivity | exact Hm]). }
  assert (HAB : forall n, make abbreviations registry (3 + n) "A+B"
            = Made (Object "Pipe"
                      [("transforms"%string, VTransforms [leaf ma "A"; leaf mb "B"])])).
  { intros n. change (3 + n)%nat with (S (2 + n)).
    rewrite (make_Pipe abbreviations registry (2 + n) "A+B" ["A"; "B"]%string);
      [| apply Hnone; apply list_elem_of_In; simpl; tauto | reflexivity..].
    change (2 + n)%nat with (S (1 + n)).
    apply (make_composite abbreviations registry (1 + n) "Pipe([A,B])" "Pipe" "A,B");
      [apply Hnone; apply list_elem_of_In; simpl; tauto | reflexivity.. | exact HPipe
      | reflexivity |].
    replace (parse "A,B" ",") with (Made ["A"; "B"]%string) by reflexivity.
    cbn [mbind outcome_bind mapM]. change (1 + n)%nat with (S n).
    rewrite (Hleaf n "A"%string ma), (Hleaf n "B"%string mb) by (assumption || (apply list_elem_of_In; simpl; tauto)).
    reflexivity. }
  split; [|split; [|split]].
  - intros expansion H. apply make_abbreviation. exact H.
  - intros Hstr bang Hbang. destruct (1 <? length bang)%nat eqn:Hb.
    { apply make_Chain; assumption. }
    assert (one_word (parse str "!") = true) by (rewrite Hbang; simpl; rewrite Hb; reflexivity).
    intros plus Hplus. destruct (1 <? length plus)%nat eqn:Hp.
    { apply make_Pipe; assumption. }
    assert (one_word (parse str "+") = true) by (rewrite Hplus; simpl; rewrite Hp; reflexivity).
    intros slash Hslash. destruct (1 <? length slash)%nat eqn:Hs.
    { apply make_Fork; assumption. }
    assert (one_word (parse str "/") = true) by (rewrite Hslash; simpl; rewrite Hs; reflexivity).
    apply make_brackets; assumption.
  - apply HAB.
  - change (6 + fuel)%nat with (S (5 + fuel)).
    rewrite (make_Fork abbreviations registry (5 + fuel) "(A+B)/C" ["(A+B)"; "C"]%string);
      [| apply Hnone; apply list_elem_of_In; simpl; tauto | reflexivity..].
    change (5 + fuel)%nat with (S (4 + fuel)).
    apply (make_composite abbreviations registry (4 + fuel) "Fork([(A+B),C])" "Fork" "(A+B),C");
      [apply Hnone; apply list_elem_of_In; simpl; tauto | reflexivity.. | exact HFork
      | reflexivity |].
    replace (parse "(A+B),C" ",") with (Made ["(A+B)"; "C"]%string) by reflexivity.
    cbn [mbind outcome_bind mapM]. change (4 + fuel)%nat with (S (3 + fuel)).
    rewrite (Hleaf (3 + fuel)%nat "C"%string mc) by (assumption || (apply list_elem_of_In; simpl; tauto)).
    pose proof (make_brackets abbreviations registry (3 + fuel) "(A+B)") as Hparen.
    cbv zeta in Hparen.
    replace (QString_startsWith "(A+B)" "{" && QString_endsWith "(A+B)" "}") with false
      in Hparen by reflexivity.
    replace (QString_startsWith "(A+B)" "<" && QString_endsWith "(A+B)" ">") with false
      in Hparen by reflexivity.
    replace (QString_startsWith "(A+B)" "(" && QString_endsWith "(A+B)" ")") with true
      in Hparen by reflexivity.
    replace (QString_mid "(A+B)" 1 (String.length "(A+B)" - 2)) with "A+B"%string
      in Hparen by reflexivity.
    rewrite Hparen; [| apply Hnone; apply list_elem_of_In; simpl; tauto | reflexivity..].
    rewrite (HAB fuel). reflexivity.
Qed.

Lemma Transform_make_grammar_witness :
  make ∅ demo_registry 3 "A+B"
  = Made (Object "Pipe" [("transforms"%string, VTransforms [Object "A" []; Object "B" []])])
  /\ make ∅ demo_registry 6 "(A+B)/C"
     = Made (Object "Fork"
               [("transforms"%string,
                 VTransforms
                   [Object "Pipe"
                      [("transforms"%string, VTransforms [Object "A" []; Object "B" []])];
                    Object "C" []])]).
Proof.
  pose proof (Transform_make_grammar ∅ demo_registry 0 "A+B"
                {| metaProperties := []; declaresIndependent := false |}
                {| metaProperties := []; declaresIndependent := false |}
                {| metaProperties := []; declaresIndependent := false |}) as H.
  destruct H as (_ & _ & HAB & HABC); try (vm_compute; reflexivity).
  - unfold example_texts. repeat constructor.
  - split; [exact HAB | exact HABC].
Defined.

(** ** The downsampling policy *)

Lemma QList_mid_prefix {A} (l : list A) (n : Z) : exists k, QList_mid l 0 n = take k l.
Proof.
  unfold QList_mid. destruct (_ || _).
  - exists (length l). rewrite drop_0, firstn_all. reflexivity.
  - exists (Z.to_nat n). rewrite drop_0. reflexivity.
Qed.

Lemma QList_mid_take {A} (l : list A) (n : Z) :
  0 <= n -> QList_mid l 0 n = take (Z.to_nat n) l.
Proof.
  intros Hn. unfold QList_mid. rewrite drop_0.
  destruct (n <? 0) eqn:H1; [apply Z.ltb_lt in H1; lia|]. simpl.
  destruct (Z.of_nat (length l) <? Z.of_nat 0 + n) eqn:H2; [|reflexivity].
  apply Z.ltb_lt in H2. rewrite take_ge by lia. reflexivity.
Qed.

Lemma QMap_keys_NoDup (m : gmap Z Z) : NoDup (QMap_keys m).
Proof.
  unfold QMap_keys. rewrite merge_sort_Permutation. apply NoDup_fst_map_to_list.
Qed.

Lemma filter_none {A} (P : A -> Prop) `{forall x, Decision (P x)} (l : list A) :
  Forall (fun x => ~ P x) l -> filter P l = [].
Proof.
  induction 1 as [|x l Hx _ IH]; [reflexivity|].
  rewrite filter_cons, decide_False by exact Hx. exact IH.
Qed.

(** Items that come in chunks, the items of a chunk sharing a key and the
    chunks having different keys: no key has more items than a chunk. *)
Lemma chunks_keys {K} (key : Template -> K) (chunks : list (list Template)) (keys : list K) :
  Forall2 (fun chunk k => Forall (fun t => key t = k) chunk) chunks keys ->
  forall t, t ∈ concat chunks -> key t ∈ keys.
Proof.
  induction 1 as [|chunk k chunks keys Hc _ IH]; intros t Ht; simpl in Ht.
  - inversion Ht.
  - apply elem_of_app in Ht as [Ht|Ht].
    + rewrite Forall_forall in Hc. rewrite (Hc t Ht). left.
    + right. apply IH. exact Ht.
Qed.

Lemma chunks_count {K} `{EqDecision K} (key : Template -> K) (N : Z)
    (chunks : list (list Template)) (keys : list K) x :
  0 <= N -> NoDup keys ->
  Forall2 (fun chunk k => Z.of_nat (length chunk) <= N
                          /\ Forall (fun t => key t = k) chunk) chunks keys ->
  Z.of_nat (length (filter (fun t => key t = x) (concat chunks))) <= N.
Proof.
  intros HN Hnd H. induction H as [|chunk k chunks keys [Hlen Hc] Hrest IH]; simpl; [lia|].
  inversion Hnd as [|? ? Hnotin Hnd']; subst.
  rewrite filter_app, length_app.
  destruct (decide (k = x)) as [->|Hne].
  - assert (Hnil : filter (fun t => key t = x) (concat chunks) = []).
    { apply filter_none, Forall_forall. intros t Ht Hl. apply Hnotin. rewrite <- Hl.
      eapply chunks_keys; [|exact Ht].
      eapply Forall2_impl; [exact Hrest|]. intros ? ? [_ ?]. assumption. }
    rewrite Hnil. simpl. pose proof (length_filter (fun t => key t = x) chunk). lia.
  - assert (Hnil : filter (fun t => key t = x) chunk = []).
    { apply filter_none. eapply Forall_impl; [exact Hc|]. simpl. intros t Ht. congruence. }
    rewrite Hnil. simpl. apply IH. exact Hnd'.
Qed.

(** A prefix of a shuffle treats the candidates alike: if the shuffle does
    (relabelling the candidates by [π] does not change how often it
    satisfies any condition), then a set of candidates is selected as often
    as the set that [π] makes of it. *)
Lemma take_shuffle_exchangeable {R A} `{EqDecision A}
    (shuffle : list A -> R -> list A * R) (candidates : list A) (n : nat)
    (Ω : list R) (π : A -> A) :
  Inj (=) (=) π ->
  (forall (E : list A -> Prop) (HE : forall l, Decision (E l)),
     chance Ω (fun ω => E (π <$> (shuffle candidates ω).1))
     = chance Ω (fun ω => E (shuffle candidates ω).1)) ->
  forall S,
    chance Ω (fun ω => take n (shuffle candidates ω).1 ≡ₚ π <$> S)
    = chance Ω (fun ω => take n (shuffle candidates ω).1 ≡ₚ S).
Proof.
  intros Hinj Hex S.
  pose proof (Hex (fun l => take n l ≡ₚ π <$> S) _) as H. cbv beta in H.
  rewrite <- H. clear H.
  unfold chance. f_equal. apply list_filter_iff. intros ω.
  rewrite <- fmap_take. split.
  - intros Hp. apply Permutation_map_inv in Hp as (l3 & Heq & Hp).
    apply (list_fmap_eq_inj π Hinj) in Heq. subst l3. symmetry. exact Hp.
  - intros Hp. rewrite Hp. reflexivity.
Qed.

Lemma QList_mid_0 {A} (l : list A) (n : Z) :
  QList_mid l 0 n = take (if n <? 0 then length l else Z.to_nat n) l.
Proof.
  unfold QList_mid. rewrite drop_0.
  destruct (n <? 0) eqn:H1; simpl; [rewrite firstn_all; reflexivity|].
  apply Z.ltb_ge in H1.
  destruct (Z.of_nat (length l) <? Z.of_nat 0 + n) eqn:H2; [|reflexivity].
  apply Z.ltb_lt in H2. rewrite take_ge by lia. reflexivity.
Qed.

Section SamplingFacts.
Context {R : Type}.
Variable random_shuffle : forall A : Type, list A -> R -> list A * R.
Variable labelCounts : TemplateList -> bool -> gmap Z Z.
Variable conv : FloatConversions.
Variable Globals : Context.

Local Abbreviation label := (fun t : Template => narrow (File_label conv Globals (file t))).

Lemma eligibleLabels_NoDup templates transform :
  NoDup (eligibleLabels labelCounts templates transform).
Proof. unfold eligibleLabels. apply QMap_keys_NoDup. Qed.

(** The class cap keeps the first [classes] labels of a shuffle, or every
    label when there are no more than that. *)
Lemma selectLabels_shape uniqueLabels transform rng :
  0 <= classes transform ->
  (selectLabels random_shuffle uniqueLabels transform rng).1
  = if classes transform <? Z.of_nat (length uniqueLabels)
    then take (Z.to_nat (classes transform)) (random_shuffle Z uniqueLabels rng).1
    else uniqueLabels.
Proof.
  intros HC. unfold selectLabels. destruct (_ <? _); [|reflexivity].
  destruct (random_shuffle Z uniqueLabels rng) as [shuffled rng']. simpl.
  apply QList_mid_take. exact HC.
Qed.

(** The instance cap keeps, for the [k]-th selected label, the first
    [instances] positions of a shuffle of the positions of its items. *)
Lemma selectInstances_shape templates transform :
  0 <= instances transform ->
  forall selected i rng acc, exists draws,
    Forall2 (fun draw l =>
               exists rng', draw = (random_shuffle nat (labelIndices conv Globals templates l) rng').1)
            draws selected
    /\ (selectInstances random_shuffle conv Globals templates transform i selected rng acc).1
       = acc ++ concat (imap (fun k draw =>
                                pick templates transform (i + k)
                                  <$> take (Z.to_nat (instances transform)) draw) draws).
Proof.
  intros HN. induction selected as [|l selected IH]; intros i rng acc.
  - exists []. split; [constructor|]. simpl. rewrite app_nil_r. reflexivity.
  - simpl.
    destruct (random_shuffle nat (labelIndices conv Globals templates l) rng)
      as [indices rng'] eqn:Hsh.
    destruct (instances transform <? 0) eqn:Hat; [apply Z.ltb_lt in Hat; lia|].
    destruct (IH (S i) rng'
                (acc ++ (pick templates transform i
                           <$> take (Z.to_nat (Z.min (Z.of_nat (length indices))
                                                     (Z.abs (instances transform))))
                                    indices)))
      as (draws & Hdraws & Heq).
    exists (indices :: draws). split.
    + constructor; [|exact Hdraws]. exists rng. rewrite Hsh. reflexivity.
    + rewrite Heq. simpl. rewrite <- app_assoc. f_equal.
      rewrite Nat.add_0_r. f_equal.
      * f_equal. destruct (decide (Z.to_nat (instances transform) <= length indices)%nat).
        -- f_equal. lia.
        -- rewrite !take_ge by lia. reflexivity.
      * f_equal. apply imap_ext. intros k draw _. simpl. f_equal. f_equal. lia.
Qed.

Lemma labelIndices_elem templates l j :
  j ∈ labelIndices conv Globals templates l ->
  exists t, templates !! j = Some t /\ label t = l
            /\ File_getBool Globals (file t) "FTE" = false.
Proof.
  unfold labelIndices. intros H.
  apply list_elem_of_fmap in H as ([j' t] & -> & H).
  apply list_elem_of_filter in H as [[Hl Hf] H]. simpl in *.
  apply elem_of_lookup_imap in H as (i & t' & Heq & Hi).
  injection Heq as -> ->. exists t'. auto.
Qed.

Lemma labelIndices_intro templates l j t :
  templates !! j = Some t -> label t = l -> File_getBool Globals (file t) "FTE" = false ->
  j ∈ labelIndices conv Globals templates l.
Proof.
  intros Ht Hl Hf. unfold labelIndices. apply list_elem_of_fmap. exists (j, t).
  split; [reflexivity|]. apply list_elem_of_filter. split; [split; assumption|].
  apply elem_of_lookup_imap. exists j, t. split; [reflexivity|exact Ht].
Qed.

Lemma labelIndices_NoDup templates l : NoDup (labelIndices conv Globals templates l).
Proof.
  unfold labelIndices.
  assert (H : forall (ts : TemplateList) (f : nat -> nat),
             Inj (=) (=) f ->
             NoDup ((fun jt : nat * Template => jt.1)
                      <$> filter (fun jt => label jt.2 = l
                                            /\ File_getBool Globals (file jt.2) "FTE" = false)
                                 (imap (fun j t => (f j, t)) ts))
             /\ forall x, x ∈ ((fun jt : nat * Template => jt.1)
                      <$> filter (fun jt => label jt.2 = l
                                            /\ File_getBool Globals (file jt.2) "FTE" = false)
                                 (imap (fun j t => (f j, t)) ts)) ->
                          exists j, x = f j).
  { induction ts as [|t ts IH]; intros f Hf.
    - split; [constructor|]. intros x Hx. inversion Hx.
    - simpl. destruct (IH (f ∘ S)) as [Hnd Hin].
      { intros a b Hab. apply Hf in Hab. lia. }
      rewrite filter_cons. case_decide.
      + simpl. split.
        * constructor; [|exact Hnd]. intros Hx. apply Hin in Hx as [j Hj].
          apply Hf in Hj. lia.
        * intros x Hx. apply elem_of_cons in Hx as [->|Hx]; [exists 0%nat; reflexivity|].
          apply Hin in Hx as [j ->]. exists (S j). reflexivity.
      + split; [exact Hnd|]. intros x Hx. apply Hin in Hx as [j ->]. exists (S j). reflexivity. }
  apply (H templates id). intros a b Hab. exact Hab.
Qed.

Lemma pick_written templates transform k j :
  relabel transform = true ->
  m_metadata (file (pick templates transform k j)) !! "Label" = Some (QInt (Z.of_nat k)).
Proof.
  intros H. unfold pick. rewrite H. simpl. unfold File_insert. simpl.
  apply lookup_insert_eq.
Qed.
End SamplingFacts.

Section DownsampleTheorem.
Context {R : Type}.
Variable random_shuffle : forall A : Type, list A -> R -> list A * R.
Variable seedRNG : R -> R.
Variable labelCounts : TemplateList -> bool -> gmap Z Z.
Variable conv : FloatConversions.
Variable Globals : Context.
Hypothesis random_shuffle_permutes :
  forall A (l : list A) (rng : R), (random_shuffle A l rng).1 ≡ₚ l.

Local Abbreviation label := (fun t : Template => narrow (File_label conv Globals (file t))).

Lemma pick_label templates transform k l j :
  j ∈ labelIndices conv Globals templates l ->
  label (pick templates transform k j)
  = if relabel transform then relabelled conv Globals k else l.
Proof.
  intros Hj. apply labelIndices_elem in Hj as (t & Ht & Hl & _).
  unfold pick. rewrite Ht. simpl. destruct (relabel transform); [|exact Hl].
  unfold relabelled, File_label, File_value, File_insert. simpl.
  rewrite !lookup_insert_eq. reflexivity.
Qed.

(** The sampled items come in chunks, one per selected label; a key that
    is the same on all the items drawn for a label is the same on its
    chunk, and no chunk is longer than the cap. *)
Lemma sampled_chunks {K} (key : Template -> K) (keyOf : nat -> Z -> K)
    templates transform draws (selected : list Z) :
  Forall2 (fun draw l =>
             exists rng', draw = (random_shuffle nat (labelIndices conv Globals templates l) rng').1)
          draws selected ->
  (forall k l j, j ∈ labelIndices conv Globals templates l ->
                 key (pick templates transform k j) = keyOf k l) ->
  Forall2 (fun chunk k => Z.of_nat (length chunk) <= Z.of_nat (Z.to_nat (instances transform))
                          /\ Forall (fun t => key t = k) chunk)
          (imap (fun k draw => pick templates transform k
                                 <$> take (Z.to_nat (instances transform)) draw) draws)
          (imap keyOf selected).
Proof.
  intros Hdraws Hkey. apply Forall2_same_length_lookup_2.
  - rewrite !length_imap. eapply Forall2_length. exact Hdraws.
  - intros k chunk x Hc Hx. rewrite list_lookup_imap in Hc. rewrite list_lookup_imap in Hx.
    destruct (draws !! k) as [draw|] eqn:Hd; [|discriminate].
    destruct (selected !! k) as [l|] eqn:Hl; [|discriminate].
    simpl in Hc, Hx. injection Hc as <-. injection Hx as <-.
    destruct (Forall2_lookup_lr _ _ _ _ _ _ Hdraws Hd Hl) as [rng' ->]. split.
    + rewrite length_fmap, length_take. lia.
    + apply Forall_forall. intros t Ht.
      apply list_elem_of_fmap in Ht as (j & -> & Hj). apply Hkey.
      rewrite <- (random_shuffle_permutes nat _ rng').
      eapply subseteq_take. exact Hj.
Qed.

Lemma selected_facts (eligible : list Z) transform rng :
  NoDup eligible -> 0 <= classes transform ->
  let selected :=
    if classes transform <? Z.of_nat (length eligible)
    then take (Z.to_nat (classes transform)) (random_shuffle Z eligible rng).1
    else eligible in
  NoDup selected /\ selected ⊆ eligible /\ Z.of_nat (length selected) <= classes transform.
Proof.
  intros Hnd HC. cbv zeta. destruct (_ <? _) eqn:Hlt.
  - pose proof (random_shuffle_permutes Z eligible rng) as Hp. split; [|split].
    + eapply sublist_NoDup; [|apply sublist_take]. rewrite Hp. exact Hnd.
    + intros x Hx. rewrite <- Hp. eapply subseteq_take. exact Hx.
    + rewrite length_take. lia.
  - apply Z.ltb_ge in Hlt. split; [exact Hnd|]. split; [intros x Hx; exact Hx|lia].
Qed.

Lemma fraction_rest (sampled : TemplateList) rng' n :
  take n (random_shuffle Template sampled rng').1
    ++ drop n (random_shuffle Template sampled rng').1 ≡ₚ sampled.
Proof. rewrite take_drop. apply random_shuffle_permutes. Qed.

End DownsampleTheorem.

Lemma coin_shuffle_permutes A (l : list A) (rng : bool) : (coin_shuffle A l rng).1 ≡ₚ l.
Proof. destruct rng; simpl; [apply reverse_Permutation|reflexivity]. Qed.

Lemma swap_5_7_inj : Inj (=) (=) swap_5_7.
Proof.
  intros a b. unfold swap_5_7.
  destruct (Z.eqb_spec a 5), (Z.eqb_spec a 7), (Z.eqb_spec b 5), (Z.eqb_spec b 7); lia.
Qed.

(** The coin shuffle treats the labels 5 and 7 alike. *)
Lemma coin_shuffle_exchangeable (E : list Z -> Prop) (HE : forall l, Decision (E l)) :
  chance [true; false] (fun ω => E (swap_5_7 <$> (coin_shuffle Z [5; 7] ω).1))
  = chance [true; false] (fun ω => E (coin_shuffle Z [5; 7] ω).1).
Proof.
  unfold chance. rewrite !filter_cons, !filter_nil.
  change (swap_5_7 <$> (coin_shuffle Z [5; 7] true).1) with [5; 7].
  change (swap_5_7 <$> (coin_shuffle Z [5; 7] false).1) with [7; 5].
  change (coin_shuffle Z [5; 7] true).1 with [7; 5].
  change (coin_shuffle Z [5; 7] false).1 with [5; 7].
  destruct (decide (E [5; 7])), (decide (E [7; 5])); reflexivity.
Qed.


(** ** Training the per-channel adapter *)

Lemma appendChannels_length templatesList t :
  length (appendChannels templatesList t)
  = Nat.max (length templatesList) (length (matrices t)).
Proof. unfold appendChannels. rewrite length_imap, length_app, length_replicate. lia. Qed.

Lemma appendChannels_lookup templatesList t i :
  (i < Nat.max (length templatesList) (length (matrices t)))%nat ->
  appendChannels templatesList t !! i
  = Some (default [] (templatesList !! i) ++ channel i [t]).
Proof.
  intros Hi. unfold appendChannels, channel. rewrite list_lookup_imap.
  assert ((templatesList ++ replicate (length (matrices t) - length templatesList) []) !! i
          = Some (default [] (templatesList !! i))) as ->.
  { destruct (decide (i < length templatesList)%nat) as [Hlt|Hge].
    - rewrite lookup_app_l by exact Hlt.
      destruct (lookup_lt_is_Some_2 templatesList i Hlt) as [x ->]. reflexivity.
    - rewrite lookup_app_r by lia. rewrite (proj2 (lookup_ge_None templatesList i)) by lia.
      simpl. apply lookup_replicate_2. lia. }
  simpl. destruct (matrices t !! i); simpl; [reflexivity|]. rewrite app_nil_r. reflexivity.
Qed.

Lemma channel_app i (a b : TemplateList) : channel i (a ++ b) = channel i a ++ channel i b.
Proof. unfold channel. apply omap_app. Qed.

Lemma channelCount_cons t data :
  channelCount (t :: data) = Nat.max (length (matrices t)) (channelCount data).
Proof. reflexivity. Qed.

Lemma splitChannels_length data : forall templatesList,
  length (splitChannels data templatesList).1
  = Nat.max (length templatesList) (channelCount data).
Proof.
  induction data as [|t data IH]; intros tl.
  - simpl. unfold channelCount. simpl. lia.
  - cbn [splitChannels]. specialize (IH (appendChannels tl t)).
    destruct (splitChannels data (appendChannels tl t)) as [tl' w]. cbn [fst] in *.
    rewrite IH, appendChannels_length, channelCount_cons. lia.
Qed.

Lemma splitChannels_lookup data : forall templatesList i,
  (i < Nat.max (length templatesList) (channelCount data))%nat ->
  (splitChannels data templatesList).1 !! i
  = Some (default [] (templatesList !! i) ++ channel i data).
Proof.
  induction data as [|t data IH]; intros tl i Hi.
  - unfold channelCount in Hi. simpl in *. rewrite Nat.max_0_r in Hi.
    destruct (lookup_lt_is_Some_2 tl i Hi) as [x ->]. simpl. rewrite app_nil_r. reflexivity.
  - cbn [splitChannels]. specialize (IH (appendChannels tl t) i).
    destruct (splitChannels data (appendChannels tl t)) as [tl' w]. cbn [fst] in *.
    rewrite channelCount_cons in Hi.
    rewrite IH by (rewrite appendChannels_length; lia).
    destruct (decide (i < Nat.max (length tl) (length (matrices t)))%nat) as [Hlt|Hge].
    + rewrite appendChannels_lookup by exact Hlt. cbn [default].
      rewrite (channel_app i [t] data : channel i (t :: data) = _), app_assoc. reflexivity.
    + rewrite (proj2 (lookup_ge_None (appendChannels tl t) i))
        by (rewrite appendChannels_length; lia).
      rewrite (proj2 (lookup_ge_None tl i)) by lia.
      rewrite (channel_app i [t] data : channel i (t :: data) = _).
      unfold channel at 2. simpl. rewrite (proj2 (lookup_ge_None (matrices t) i)) by lia.
      reflexivity.
Qed.

Lemma splitChannels_app pre post : forall templatesList,
  splitChannels (pre ++ post) templatesList
  = let '(tl1, w1) := splitChannels pre templatesList in
    let '(tl2, w2) := splitChannels post tl1 in (tl2, w1 ++ w2).
Proof.
  induction pre as [|t pre IH]; intros tl.
  - simpl. destruct (splitChannels post tl). reflexivity.
  - cbn [app splitChannels]. rewrite IH.
    destruct (splitChannels pre (appendChannels tl t)) as [tl1 w1].
    destruct (splitChannels post tl1) as [tl2 w2]. rewrite app_assoc. reflexivity.
Qed.

Lemma splitChannels_warns pre t post :
  channelCount pre <> 0%nat ->
  length (matrices t) <> channelCount pre ->
  Independent_train_size (file t) (length (matrices t)) (channelCount pre)
    ∈ (splitChannels (pre ++ t :: post) []).2.
Proof.
  intros Hne Hmis. rewrite splitChannels_app.
  pose proof (splitChannels_length pre []) as Hlen.
  destruct (splitChannels pre []) as [tl1 w1]. cbn [fst length] in Hlen.
  rewrite Nat.max_0_l in Hlen.
  cbn [splitChannels].
  destruct (splitChannels post (appendChannels tl1 t)) as [tl2 w2]. cbn [snd].
  apply elem_of_app. right. apply elem_of_app. left.
  rewrite Hlen.
  replace (channelCount pre =? length (matrices t))%nat with false
    by (symmetry; apply Nat.eqb_neq; lia).
  rewrite bool_decide_eq_false_2 by (intros ->; simpl in Hlen; lia).
  simpl. left.
Qed.

(** The warnings of the first loop are those of the templates that follow
    a template with a channel and differ from the channels seen by then. *)
Lemma splitChannels_only data m :
  m ∈ (splitChannels data []).2 ->
  exists pre t post,
    data = pre ++ t :: post
    /\ channelCount pre <> 0%nat
    /\ length (matrices t) <> channelCount pre
    /\ m = Independent_train_size (file t) (length (matrices t)) (channelCount pre).
Proof.
  revert m. induction data as [|t data IH] using rev_ind; intros m Hm.
  - inversion Hm.
  - rewrite splitChannels_app in Hm.
    pose proof (splitChannels_length data []) as Hlen.
    destruct (splitChannels data []) as [tl1 w1]. cbn [fst snd length] in *.
    rewrite Nat.max_0_l in Hlen. cbn [splitChannels] in Hm. cbn [snd] in Hm.
    apply elem_of_app in Hm as [Hm|Hm].
    + destruct (IH m Hm) as (pre & t' & post & -> & H1 & H2 & H3).
      exists pre, t', (post ++ [t]). rewrite <- app_assoc. auto.
    + rewrite app_nil_r in Hm.
      destruct (negb (length tl1 =? length (matrices t))%nat) eqn:Hsize; [|inversion Hm].
      destruct (negb (bool_decide (tl1 = []))) eqn:Hempty; [|inversion Hm].
      simpl in Hm. apply list_elem_of_singleton in Hm.
      apply negb_true_iff, Nat.eqb_neq in Hsize.
      apply negb_true_iff, bool_decide_eq_false in Hempty.
      exists data, t, []. rewrite <- Hlen. split; [reflexivity|]. split; [|split].
      * destruct tl1; [contradiction|simpl; lia].
      * lia.
      * exact Hm.
Qed.

Section TrainFacts.
Context {R : Type}.
Variable random_shuffle : forall A : Type, list A -> R -> list A * R.
Variable seedRNG : R -> R.
Variable labelCounts : TemplateList -> bool -> gmap Z Z.
Variable conv : FloatConversions.
Variable Globals : Context.

Local Abbreviation Downsample' := (Downsample random_shuffle seedRNG labelCounts conv Globals).
Local Abbreviation downsampleAll' :=
  (downsampleAll random_shuffle seedRNG labelCounts conv Globals).

Lemma Downsample_log templates transform rng m :
  m ∈ (Downsample' templates transform rng).1.2 ->
  exists requested available, m = Downsample_requested requested available.
Proof.
  unfold Downsample. destruct (_ && _ && _); [intros H; inversion H|].
  destruct (selectLabels _ _ _ _) as [selectedLabels rng1].
  destruct (selectInstances _ _ _ _ _ _ _ _ _) as [sampled rng2].
  destruct (applyFraction _ _ _ _) as [out rng3]. cbn [fst snd].
  destruct (_ && _); intros H; [|inversion H].
  apply list_elem_of_singleton in H. eauto.
Qed.

Lemma downsampleAll_log templatesList : forall transforms rng m,
  m ∈ (downsampleAll' templatesList transforms rng).1.2 ->
  exists requested available, m = Downsample_requested requested available.
Proof.
  induction templatesList as [|tl tls IH]; intros trs rng m Hm; [inversion Hm|].
  destruct trs as [|tr trs]; [inversion Hm|].
  cbn [downsampleAll] in Hm.
  pose proof (Downsample_log tl tr rng m) as Hd.
  destruct (Downsample' tl tr rng) as [[d w] rng1].
  specialize (IH trs rng1 m).
  destruct (downsampleAll' tls trs rng1) as [[ds ws] rng2]. cbn [fst snd] in *.
  apply elem_of_app in Hm as [Hm|Hm]; auto.
Qed.

Lemma downsampleAll_spec templatesList : forall transforms rng,
  (length templatesList <= length transforms)%nat ->
  length (downsampleAll' templatesList transforms rng).1.1 = length templatesList
  /\ forall i tl tr, templatesList !! i = Some tl -> transforms !! i = Some tr ->
       exists rng_i, (downsampleAll' templatesList transforms rng).1.1 !! i
                     = Some (Downsample' tl tr rng_i).1.1.
Proof.
  induction templatesList as [|tl0 tls IH]; intros trs rng Hlen.
  - split; [reflexivity|]. intros i tl tr H. inversion H.
  - destruct trs as [|tr0 trs]; [simpl in Hlen; lia|].
    cbn [downsampleAll].
    destruct (Downsample' tl0 tr0 rng) as [[d w] rng1] eqn:Hd.
    specialize (IH trs rng1). 
    destruct (downsampleAll' tls trs rng1) as [[ds ws] rng2]. cbn [fst] in *.
    destruct IH as [IHlen IHget]; [simpl in Hlen; lia|].
    split; [simpl; rewrite IHlen; reflexivity|].
    intros [|i] tl tr Htl Htr; simpl in *.
    + injection Htl as <-. injection Htr as <-. exists rng. rewrite Hd. reflexivity.
    + apply IHget; assumption.
Qed.

Lemma trainAll_length transforms : forall templatesList,
  length (trainAll transforms templatesList) = length transforms.
Proof.
  induction transforms as [|tr trs IH]; intros [|tl tls]; simpl; try reflexivity.
  rewrite IH. reflexivity.
Qed.

Lemma trainAll_lookup transforms : forall templatesList i tr tl,
  transforms !! i = Some tr -> templatesList !! i = Some tl ->
  trainAll transforms templatesList !! i = Some (Transform_train tr tl).
Proof.
  induction transforms as [|tr0 trs IH]; intros [|tl0 tls] [|i] tr tl Htr Htl;
    simpl in *; try discriminate.
  - injection Htr as <-. injection Htl as <-. reflexivity.
  - apply IH; assumption.
Qed.

Lemma trainAll_lookup_ge transforms : forall templatesList i,
  (length templatesList <= i)%nat ->
  trainAll transforms templatesList !! i = transforms !! i.
Proof.
  induction transforms as [|tr0 trs IH]; intros [|tl0 tls] [|i] Hi;
    simpl in *; try reflexivity; try lia.
  apply IH. lia.
Qed.

(** C9. [Independent::train] never aborts on a batch whose templates have
    different numbers of channels.  With an untrainable first transform it
    returns at once: nothing is trained and nothing is logged.  Otherwise it
    logs a warning for each template whose size differs from the largest
    number of channels seen so far, unless no template with a channel has
    been seen yet, and goes on; nothing else is logged but the warnings of
    [Downsample].  After the call the adapter holds a transform for every
    channel index of the batch, clones of the first being added as needed,
    the transform of channel [i] has been trained on the downsampled items
    of channel [i], and a transform past the last channel index is as it
    was. *)
Theorem Independent_train_continues ind first others data rng :
  transforms ind = first :: others ->
  let '(ind', log, _) :=
    Independent_train random_shuffle seedRNG labelCounts conv Globals ind data rng in
  if untrainable (plugin first) then ind' = ind /\ log = []
  else
    let grown :=
      transforms ind
        ++ replicate (channelCount data - length (transforms ind)) (Transform_clone first) in
    length (transforms ind') = Nat.max (length (transforms ind)) (channelCount data)
    /\ (forall i, (i < channelCount data)%nat ->
          exists tr rng_i,
            grown !! i = Some tr
            /\ transforms ind' !! i
               = Some (Transform_train tr (Downsample' (channel i data) tr rng_i).1.1))
    /\ (forall i, (channelCount data <= i)%nat -> transforms ind' !! i = transforms ind !! i)
    /\ (forall pre t post,
          data = pre ++ t :: post ->
          channelCount pre <> 0%nat ->
          length (matrices t) <> channelCount pre ->
          Independent_train_size (file t) (length (matrices t)) (channelCount pre) ∈ log)
    /\ (forall m, m ∈ log ->
          (exists requested available, m = Downsample_requested requested available)
          \/ exists pre t post,
               data = pre ++ t :: post
               /\ channelCount pre <> 0%nat
               /\ length (matrices t) <> channelCount pre
               /\ m = Independent_train_size (file t) (length (matrices t))
                                             (channelCount pre)).
Proof.
  intros Hfirst. unfold Independent_train. rewrite Hfirst.
  destruct (untrainable (plugin first)) eqn:Htrainable; [split; reflexivity|].
  rewrite <- Hfirst.
  pose proof (splitChannels_length data []) as Hlen.
  pose proof (fun i => splitChannels_lookup data [] i) as Hget.
  pose proof (fun pre t post => splitChannels_warns pre t post) as Hwarn.
  pose proof (splitChannels_only data) as Honly.
  destruct (splitChannels data []) as [templatesList w1] eqn:Hsplit.
  cbn [fst snd length] in Hlen, Hget, Honly. rewrite Nat.max_0_l in Hlen.
  rewrite Hlen.
  set (grown := transforms ind
                ++ replicate (channelCount data - length (transforms ind))
                     (Transform_clone first)).
  assert (Hgrown : length grown = Nat.max (length (transforms ind)) (channelCount data)).
  { subst grown. rewrite length_app, length_replicate. lia. }
  destruct (downsampleAll_spec templatesList grown rng) as [Hdlen Hdget]; [lia|].
  pose proof (downsampleAll_log templatesList grown rng) as Hdlog.
  destruct (downsampleAll' templatesList grown rng) as [[ds w2] rng'].
  cbn [fst snd] in Hdlen, Hdget, Hdlog. cbn [transforms].
  split; [|split; [|split; [|split]]].
  - rewrite trainAll_length. exact Hgrown.
  - intros i Hi.
    destruct (lookup_lt_is_Some_2 grown i) as [tr Htr]; [lia|].
    assert (Htl : templatesList !! i = Some (channel i data)).
    { rewrite Hget by lia. rewrite lookup_nil. reflexivity. }
    destruct (Hdget i _ tr Htl Htr) as [rng_i Hd].
    exists tr, rng_i. split; [exact Htr|].
    apply trainAll_lookup; assumption.
  - intros i Hi. rewrite trainAll_lookup_ge by lia. subst grown.
    destruct (decide (i < length (transforms ind))%nat).
    + apply lookup_app_l. assumption.
    + rewrite (proj2 (lookup_ge_None (transforms ind) i)) by lia.
      apply lookup_ge_None. rewrite length_app, length_replicate. lia.
  - intros pre t post -> Hne Hmis. apply elem_of_app. left.
    specialize (Hwarn pre t post Hne Hmis). rewrite Hsplit in Hwarn. exact Hwarn.
  - intros m Hm. apply elem_of_app in Hm as [Hm|Hm]; [right|left]; auto.
Qed.
End TrainFacts.

Lemma Independent_train_continues_witness :
  let '(ind', log, _) :=
    Independent_train keep_order id demo_labelCounts demo_conv demo_Globals
      (Independent_new (Transform_new demo_Trainable)) [one_channel; two_channels] tt in
  length (transforms ind') = 2%nat
  /\ Independent_train_size (File_new "two") 2 1 ∈ log.
Proof.
  pose proof (Independent_train_continues keep_order id demo_labelCounts demo_conv demo_Globals
                (Independent_new (Transform_new demo_Trainable))
                (Transform_new demo_Trainable) [] [one_channel; two_channels] tt
                eq_refl) as H.
  destruct (Independent_train keep_order id demo_labelCounts demo_conv demo_Globals
              (Independent_new (Transform_new demo_Trainable))
              [one_channel; two_channels] tt) as [[ind' log] rng'].
  change (untrainable (plugin (Transform_new demo_Trainable))) with false in H.
  cbv iota zeta in H.
  destruct H as (Hlen & _ & _ & Hwarn & _). split; [exact Hlen|].
  apply (Hwarn [one_channel] two_channels []); [reflexivity | discriminate | discriminate].
Defined.

(** A batch with a one-channel and a two-channel template: training runs to
    completion, with a warning, and leaves two trained transforms. *)
Lemma Independent_train_mismatch_counterexample :
  length (matrices one_channel) <> length (matrices two_channels)
  /\ Independent_train keep_order id demo_labelCounts demo_conv demo_Globals
       (Independent_new (Transform_new demo_Trainable)) [one_channel; two_channels] tt
     = ({| transforms :=
             [Transform_train (Transform_new demo_Trainable)
                [Template_of (File_new "one") {| pixels := [1] |};
                 Template_of (File_new "two") {| pixels := [2] |}];
              Transform_train (Transform_new demo_Trainable)
                [Template_of (File_new "two") {| pixels := [3] |}]] |},
        [Independent_train_size (File_new "two") 2 1], tt).
Proof. split; [discriminate|]. vm_compute. reflexivity. Qed.
(** ** The buffer contract *)

Lemma fresh_sound sb : fresh sb = true -> sound sb.
Proof.
  unfold fresh. intros [[_ _]%andb_prop Hidle]%andb_prop.
  destruct sb as [b|b]; simpl in *.
  - destruct (SingleBuffer.consumer b); [exact I|discriminate].
  - destruct (DoubleBuffer.consumer b); [exact I|discriminate..].
Qed.

Lemma addItem_spec input sb :
  sound sb ->
  sound (addItem input sb) /\ contents (addItem input sb) = contents sb ++ [input]
  /\ closed (addItem input sb) = closed sb /\ rank (addItem input sb) = rank sb.
Proof.
  destruct sb as [b|b]; simpl.
  - destruct b as [n buf [|[|]]]; simpl; intros H; repeat split; auto.
    + left. destruct buf; discriminate.
    + left. destruct buf; discriminate.
  - destruct b as [n [|] b1 b2 c]; unfold DoubleBuffer.outputBuffer, DoubleBuffer.inputBuffer;
      simpl; (destruct c as [| |[|]]; simpl; intros H; repeat split;
              try tauto; try (rewrite app_assoc; reflexivity);
              try (left; match goal with |- ?l ++ _ <> [] => destruct l; discriminate end)).
Qed.

Lemma stoppedInput_spec sb :
  sound sb ->
  sound (stoppedInput sb) /\ contents (stoppedInput sb) = contents sb
  /\ closed (stoppedInput sb) = true /\ rank (stoppedInput sb) = rank sb.
Proof.
  destruct sb as [b|b]; simpl.
  - destruct b as [n buf [|[|]]]; simpl; intros H; repeat split; auto.
  - destruct b as [n [|] b1 b2 c]; unfold DoubleBuffer.outputBuffer, DoubleBuffer.inputBuffer;
      simpl; (destruct c as [| |[|]]; simpl; intros H; repeat split; tauto).
Qed.

Lemma startInput_spec sb :
  idle sb = true ->
  sound (startInput sb) /\ contents (startInput sb) = contents sb
  /\ closed (startInput sb) = false /\ idle (startInput sb) = true.
Proof.
  destruct sb as [b|b]; simpl.
  - destruct b as [n buf [|[|]]]; simpl; intros H; try discriminate; repeat split; auto.
  - destruct b as [n [|] b1 b2 c]; unfold DoubleBuffer.outputBuffer, DoubleBuffer.inputBuffer;
      simpl; (destruct c as [| |[|]]; simpl; intros H; try discriminate; repeat split; tauto).
Qed.

(** What one step of [getItem] does to a sound buffer. *)
Lemma getItem_spec sb :
  sound sb ->
  match getItem sb with
  | Blocked => contents sb = [] /\ closed sb = false
  | Continue sb' =>
      sound sb' /\ contents sb' = contents sb /\ closed sb' = closed sb
      /\ (rank sb' < rank sb)%nat
  | Return (Some item) sb' =>
      sound sb' /\ contents sb = item :: contents sb' /\ closed sb' = closed sb
      /\ idle sb' = true
  | Return None sb' =>
      sound sb' /\ contents sb = [] /\ contents sb' = [] /\ closed sb = true
      /\ closed sb' = true /\ idle sb' = true
  | Crash => False
  end.
Proof.
  destruct sb as [b|b]; simpl.
  - destruct b as [n buf [|[|]]]; unfold SingleBuffer.getItem; simpl.
    + destruct buf as [|x buf]; [destruct n|]; simpl; intros _; repeat split; auto.
    + destruct buf as [|x buf]; simpl; intros [H|H]; try (exfalso; congruence); subst;
        repeat split; auto.
    + intros [-> ->]. split; reflexivity.
  - destruct b as [n sw b1 b2 c]; unfold DoubleBuffer.getItem, DoubleBuffer.takeFirst,
      DoubleBuffer.swap, DoubleBuffer.outputBuffer, DoubleBuffer.inputBuffer; simpl.
    destruct c as [| |[|]]; simpl.
    + destruct sw, b1 as [|x1 b1], b2 as [|x2 b2]; simpl; intros _; repeat split; auto.
    + destruct sw, b1 as [|x1 b1], b2 as [|x2 b2], n; simpl; intros H;
        try discriminate; repeat split; auto; rewrite ?app_nil_r; auto.
    + destruct sw, b1 as [|x1 b1], b2 as [|x2 b2], n; simpl; intros [H1 [H2|H2]];
        try discriminate; try (exfalso; congruence); repeat split; auto;
        rewrite ?app_nil_r; auto.
    + destruct sw; simpl; intros (-> & -> & ->); split; reflexivity.
Qed.

Lemma Harness_invariant_start sb items :
  fresh sb = true -> Harness_invariant items (Harness_start sb items).
Proof.
  intros Hf. pose proof (fresh_sound sb Hf) as Hs.
  unfold fresh in Hf. apply andb_prop in Hf as [[Hc Ho]%andb_prop Hi].
  unfold Harness_invariant, Harness_start. simpl.
  destruct (contents sb) eqn:Hcont; [|discriminate].
  apply negb_true_iff in Ho.
  repeat split; auto; discriminate.
Qed.

Lemma Harness_invariant_step items a h h' :
  Harness_invariant items h -> Harness_step a h = Some h' -> Harness_invariant items h'.
Proof.
  intros (Hs & Hc & Hitems & Hcl & Hfin & Hend) Hstep.
  assert (Hne : ended h = true -> finished h = true) by (intros He; apply Hend, He).
  destruct a; simpl in Hstep.
  - unfold producer_step in Hstep. destruct (toPush h) as [|input rest] eqn:Hpush.
    + destruct (finished h) eqn:Hf; [discriminate|]. injection Hstep as <-.
      destruct (stoppedInput_spec _ Hs) as (Hs' & Hcont & Hcl' & _).
      unfold Harness_invariant. simpl. rewrite Hcont, Hcl'.
      split; [exact Hs'|]. split; [exact Hc|]. split; [exact Hitems|].
      split; [reflexivity|]. split; [reflexivity|].
      intros He. specialize (Hne He). discriminate.
    + injection Hstep as <-.
      destruct (addItem_spec input _ Hs) as (Hs' & Hcont & Hcl' & _).
      unfold Harness_invariant. simpl. rewrite Hcont, Hcl'.
      assert (finished h = false) as Hnf.
      { destruct (finished h); [|reflexivity]. specialize (Hfin eq_refl). discriminate. }
      split; [exact Hs'|]. split; [exact Hc|].
      split; [rewrite <- Hitems, <- !app_assoc; reflexivity|].
      split; [exact Hcl|]. split; [intros Hf; congruence|].
      intros He. specialize (Hne He). congruence.
  - unfold consumer_step in Hstep.
    destruct (ended h) eqn:He; [discriminate|]. rewrite Hc in Hstep. simpl in Hstep.
    pose proof (getItem_spec _ Hs) as Hg.
    destruct (getItem (shared h)) as [|sb'|[item|] sb'|]; try discriminate;
      injection Hstep as <-; unfold Harness_invariant; simpl.
    + destruct Hg as (Hs' & Hcont & Hcl' & _). rewrite Hcont, Hcl'.
      split; [exact Hs'|]. split; [reflexivity|]. split; [exact Hitems|].
      split; [exact Hcl|]. split; [exact Hfin|]. discriminate.
    + destruct Hg as (Hs' & Hcont & Hcl' & _). rewrite Hcl'.
      split; [exact Hs'|]. split; [reflexivity|].
      split; [rewrite <- Hitems, Hcont, <- !app_assoc; reflexivity|].
      split; [exact Hcl|]. split; [exact Hfin|]. discriminate.
    + destruct Hg as (Hs' & Hcont & Hcont' & Hcl0 & Hcl' & _).
      rewrite Hcont', Hcl'.
      split; [exact Hs'|]. split; [reflexivity|].
      split; [rewrite <- Hitems, Hcont; reflexivity|].
      split; [congruence|]. split; [exact Hfin|].
      intros _. split; [reflexivity|congruence].
    + destruct Hg.
Qed.

Lemma Harness_invariant_run items h h' :
  Harness_invariant items h -> Harness_run h h' -> Harness_invariant items h'.
Proof.
  intros Hinv Hrun. induction Hrun as [|h a h' h'' _ IH Hstep]; [exact Hinv|].
  eapply Harness_invariant_step; [apply IH; exact Hinv|exact Hstep].
Qed.

Lemma Harness_run_trans h h1 h2 :
  Harness_run h h1 -> Harness_run h1 h2 -> Harness_run h h2.
Proof.
  intros H1 H2. induction H2 as [|h1 a h2 h3 _ IH Hstep]; [exact H1|].
  econstructor; [apply IH; exact H1|exact Hstep].
Qed.

Lemma Harness_schedule_run sched : forall h, Harness_run h (Harness_schedule sched h).
Proof.
  induction sched as [|a sched IH]; intros h; simpl; [constructor|].
  destruct (Harness_step a h) as [h'|] eqn:Hstep; simpl; [|apply IH].
  eapply Harness_run_trans; [|apply IH]. econstructor; [constructor|exact Hstep].
Qed.

(** C2. For either buffer implementation, started empty and expecting
    input, with one producer that adds the items and then stops the input and
    one consumer that calls [getItem] until it is handed the end marker: at
    every point of every interleaving the items received so far, those in the
    buffer and those still to be pushed make up the pushed sequence, in
    order; the end marker is handed over only once every item was received;
    no call dereferences an empty list; the producer is never blocked; some
    thread can always move until the end marker is delivered; and every step
    lowers a bound, so that every interleaving delivers the end marker. *)
Theorem Buffer_contract sb items h :
  fresh sb = true ->
  Harness_run (Harness_start sb items) h ->
  crashed h = false
  /\ received h ++ contents (shared h) ++ toPush h = items
  /\ (ended h = true -> received h = items /\ contents (shared h) = [] /\ toPush h = [])
  /\ (finished h = false -> is_Some (producer_step h))
  /\ (ended h = false -> exists a h', Harness_step a h = Some h')
  /\ (forall a h', Harness_step a h = Some h' ->
        (Harness_measure h' < Harness_measure h)%nat).
Proof.
  intros Hf Hrun.
  pose proof (Harness_invariant_run items _ _ (Harness_invariant_start sb items Hf) Hrun)
    as (Hs & Hc & Hitems & Hcl & Hfin & Hend).
  split; [exact Hc|]. split; [exact Hitems|]. split; [|split; [|split]].
  - intros He. destruct (Hend He) as [Hcont Hfd]. specialize (Hfin Hfd).
    rewrite Hcont, Hfin in Hitems. rewrite !app_nil_r in Hitems. auto.
  - intros Hnf. unfold producer_step. destruct (toPush h); [rewrite Hnf|]; eauto.
  - intros He. destruct (finished h) eqn:Hfd.
    + exists Consumer. simpl. unfold consumer_step. rewrite He, Hc. simpl.
      pose proof (getItem_spec _ Hs) as Hg.
      destruct (getItem (shared h)) as [|sb'|[item|] sb'|];
        [destruct Hg as [_ Hopen]; congruence | eauto | eauto | eauto | destruct Hg].
    + exists Producer. simpl. unfold producer_step.
      destruct (toPush h); [rewrite Hfd|]; eauto.
  - intros a h' Hstep. unfold Harness_measure. destruct a; simpl in Hstep.
    + unfold producer_step in Hstep. destruct (toPush h) as [|input rest] eqn:Hpush.
      * destruct (finished h) eqn:Hfd; [discriminate|]. injection Hstep as <-. simpl.
        destruct (stoppedInput_spec _ Hs) as (_ & Hcont & _ & Hrank).
        rewrite Hcont, Hrank. lia.
      * injection Hstep as <-. simpl.
        destruct (addItem_spec input _ Hs) as (_ & Hcont & _ & Hrank).
        rewrite Hcont, Hrank, length_app. simpl. lia.
    + unfold consumer_step in Hstep.
      destruct (ended h) eqn:He; [discriminate|]. rewrite Hc in Hstep. simpl in Hstep.
      pose proof (getItem_spec _ Hs) as Hg.
      assert (Hr : forall sb', idle sb' = true -> rank sb' = 3%nat).
      { intros [b|b]; simpl; [destruct (SingleBuffer.consumer b)
                             |destruct (DoubleBuffer.consumer b)];
          intros; try discriminate; reflexivity. }
      assert (Hr1 : (1 <= rank (shared h))%nat).
      { destruct (shared h) as [b|b]; simpl;
          [destruct (SingleBuffer.consumer b)|destruct (DoubleBuffer.consumer b)]; lia. }
      destruct (getItem (shared h)) as [|sb'|[item|] sb'|]; try discriminate;
        injection Hstep as <-; simpl.
      * destruct Hg as (_ & Hcont & _ & Hrank). rewrite Hcont. lia.
      * destruct Hg as (_ & Hcont & _ & Hidle). rewrite Hcont, (Hr _ Hidle). simpl. lia.
      * destruct Hg as (_ & Hcont & Hcont' & _ & _ & Hidle).
        rewrite Hcont, Hcont', (Hr _ Hidle). simpl. lia.
      * destruct Hg.
Qed.

Lemma Buffer_contract_witness :
  let h := Harness_schedule demo_interleaving
             (Harness_start (Double (DoubleBuffer.startInput (DoubleBuffer.new true)))
                [frame 0; frame 1; frame 2]) in
  ended h = true /\ received h = [frame 0; frame 1; frame 2] /\ crashed h = false.
Proof.
  cbv zeta.
  pose proof (Buffer_contract (Double (DoubleBuffer.startInput (DoubleBuffer.new true)))
                [frame 0; frame 1; frame 2]
                (Harness_schedule demo_interleaving
                   (Harness_start (Double (DoubleBuffer.startInput (DoubleBuffer.new true)))
                      [frame 0; frame 1; frame 2]))
                eq_refl (Harness_schedule_run _ _))
    as (Hc & _ & He & _).
  split; [vm_compute; reflexivity|]. split; [|exact Hc].
  apply He. vm_compute. reflexivity.
Defined.

(** ** The streaming executor *)

Lemma idle_addItem input sb : idle (addItem input sb) = idle sb.
Proof.
  destruct sb as [b|b]; simpl;
    [destruct (SingleBuffer.consumer b) as [|[|]]
    |destruct (DoubleBuffer.consumer b) as [| |[|]]]; reflexivity.
Qed.

Lemma idle_stoppedInput sb : idle (stoppedInput sb) = idle sb.
Proof.
  destruct sb as [b|b]; simpl;
    [destruct (SingleBuffer.consumer b) as [|[|]]
    |destruct (DoubleBuffer.consumer b) as [| |[|]]]; reflexivity.
Qed.

(** [getNext] hands out the next of the remaining frames, or reports the
    end when none remains. *)
Lemma ActualSource_getNext_remaining a output :
  match ActualSource_getNext a output with
  | (true, frame, a') =>
      exists f, remaining a = f :: remaining a'
                /\ frame = {| sequenceNumber := sequenceNumber f;
                              data := data output ++ data f |}
  | (false, _, a') => remaining a = [] /\ remaining a' = []
  end.
Proof.
  destruct a as [basis [[|m rest]|] next_idx|basis current_idx next_sequence]; simpl.
  - split; reflexivity.
  - exists {| sequenceNumber := next_idx; data := [Template_of (file basis) m] |}.
    split; [|reflexivity]. rewrite Z.add_0_r. f_equal.
    apply imap_ext. intros k x _. simpl. f_equal. lia.
  - split; reflexivity.
  - destruct (current_idx <? length (matrices basis))%nat eqn:Hlt.
    + apply Nat.ltb_lt in Hlt.
      destruct (lookup_lt_is_Some_2 _ _ Hlt) as [m Hm].
      rewrite (drop_S _ _ _ Hm). rewrite Hm. simpl.
      exists {| sequenceNumber := next_sequence; data := [Template_of_mat m] |}.
      split; [|reflexivity]. rewrite Z.add_0_r.
      f_equal. apply imap_ext. intros k x _. simpl. f_equal. lia.
    + apply Nat.ltb_ge in Hlt. simpl. rewrite drop_ge by lia. split; reflexivity.
Qed.


Section StreamFacts.
Context {T : Type}.
Variable projectUpdate : T -> TemplateList -> result (T * TemplateList).

Implicit Types s : @StreamTransform T.

Lemma consumerPc_stages s stages' j :
  length stages' = length (processingStages s) ->
  consumerPc (with_stages s stages') j
  = match stages' !! j with
    | Some st => Some (pc st)
    | None => consumerPc s j
    end.
Proof.
  intros Hlen. unfold consumerPc. simpl. rewrite Hlen.
  destruct (stages' !! j) as [st|] eqn:Hj; [reflexivity|].
  apply lookup_ge_None in Hj. rewrite Hlen in Hj.
  rewrite (proj2 (lookup_ge_None (processingStages s) j)) by exact Hj. reflexivity.
Qed.

Lemma consumerPc_insert s i st st' j :
  processingStages s !! i = Some st ->
  consumerPc (with_stages s (<[i := st']> (processingStages s))) j
  = if decide (i = j) then Some (pc st') else consumerPc s j.
Proof.
  intros Hi. rewrite consumerPc_stages by apply length_insert.
  apply lookup_lt_Some in Hi as Hlt.
  rewrite list_lookup_insert. destruct (decide (i = j)) as [->|Hne].
  - rewrite decide_True by auto. reflexivity.
  - rewrite decide_False by tauto. unfold consumerPc. destruct (processingStages s !! j); reflexivity.
Qed.

Lemma consumerPc_stage s i st :
  processingStages s !! i = Some st -> consumerPc s i = Some (pc st).
Proof. intros H. unfold consumerPc. rewrite H. reflexivity. Qed.

Lemma consumerPc_collection s :
  consumerPc s (length (processingStages s)) = Some (collectionPc (collectionStage s)).
Proof.
  unfold consumerPc. rewrite (proj2 (lookup_ge_None _ _)) by lia.
  rewrite decide_True by reflexivity. reflexivity.
Qed.

Lemma consumerPc_with_collection s c j :
  consumerPc (with_collection s c) j
  = if decide (j = length (processingStages s)) then Some (collectionPc c)
    else consumerPc s j.
Proof.
  unfold consumerPc. simpl. destruct (decide (j = length (processingStages s))) as [->|Hne].
  - rewrite (proj2 (lookup_ge_None _ _)) by lia. reflexivity.
  - destruct (processingStages s !! j); reflexivity.
Qed.

Lemma consumerPc_is_Some s j b :
  wired s -> sharedBuffers s !! j = Some b -> is_Some (consumerPc s j).
Proof.
  intros (Hlen & _) Hb. apply lookup_lt_Some in Hb. rewrite Hlen in Hb.
  unfold consumerPc. destruct (processingStages s !! j) eqn:Hj; [eauto|].
  apply lookup_ge_None in Hj. rewrite decide_True by lia. eauto.
Qed.

Local Arguments sound : simpl never.
Local Arguments contents : simpl never.
Local Arguments closed : simpl never.
Local Arguments idle : simpl never.
Local Arguments addItem : simpl never.
Local Arguments stoppedInput : simpl never.
Local Arguments startInput : simpl never.
Local Arguments getItem : simpl never.

Ltac solve_wired :=
  unfold wired; simpl; rewrite ?length_insert; (split; [|split; [|split]]); auto;
  try (intros ? ? [(<- & <- & _)|[_ ?]]%list_lookup_insert_Some; simpl; auto).

Lemma StreamInv_terminate s why :
  StreamInv s -> why = Uncaught_exception -> StreamInv (terminate s why).
Proof. intros [] ->. constructor; simpl; auto. Qed.

Lemma StreamInv_race s : StreamInv s -> StreamInv (terminate s Data_race).
Proof. intros []. constructor; simpl; auto. Qed.

Lemma racing_addItem_Some s ev s' :
  racing_addItem s = Some (ev, s') -> ev = [] /\ s' = terminate s Data_race.
Proof.
  unfold racing_addItem. intros H. repeat case_match; simplify_eq. split; reflexivity.
Qed.

Lemma wired_length s : wired s -> length (sharedBuffers s) = S (length (processingStages s)).
Proof. intros [H _]. exact H. Qed.

Lemma StreamInv_caller_step s ev s' :
  StreamInv s -> caller_step s = Some (ev, s') -> StreamInv s'.
Proof.
  intros Hinv Hstep. unfold caller_step in Hstep.
  destruct Hinv as [Hw Ht Hp Hc Hb Ha Hst].
  destruct (caller s) as [| |aFrame|i|i|dst] eqn:Hcaller; try discriminate.
  - (* Reading: allFrames.getItem() *)
    destruct Hp as [Hps Hpo].
    pose proof (getItem_spec (Double (allFrames (dataSource (readStage s)))) Hps) as Hg.
    change (getItem (Double ?b)) with (GetItem_map Double (DoubleBuffer.getItem b)) in Hg.
    destruct (DoubleBuffer.getItem (allFrames (dataSource (readStage s))))
      as [|pool|[f|] pool|]; simpl in Hg; try discriminate.
    + injection Hstep as <- <-. destruct Hg as (Hs' & _ & Hcl & _).
      constructor; simpl;
        [> exact Hw | exact Ht | split; [exact Hs'|exact (eq_trans Hcl Hpo)]
         | rewrite Hcaller; exact Hc | exact Hb | exact Ha | exact Hst ].
    + injection Hstep as <- <-. destruct Hg as (Hs' & _ & Hcl & _).
      constructor; simpl;
        [> exact Hw | exact Ht | split; [exact Hs'|exact (eq_trans Hcl Hpo)]
         | exact Hc | | | exact Hst ].
      * intros j b p Hj Hpc. specialize (Hb j b p Hj Hpc).
        unfold stoppedBuffers in *. simpl. rewrite Hcaller in Hb. exact Hb.
      * intros j p Hj. unfold awaited in Hj. simpl in Hj. lia.
    + destruct Hg as (_ & _ & _ & Hcl & _). unfold closed in Hcl. congruence.
    + destruct Hg.
  - (* Filling: getNext, then addItem on the first buffer or the end of the source *)
    destruct (actualSource (dataSource (readStage s))) as [source|] eqn:Hsrc;
      [|destruct Hc as [? ?]; discriminate].
    pose proof (ActualSource_getNext_remaining source {| sequenceNumber := -1; data := [] |})
      as Hnext.
    destruct (ActualSource_getNext source {| sequenceNumber := -1; data := [] |})
      as [[res frame] source'].
    destruct Hw as (Hlen & Hread & Hcoll & Hlinks).
    destruct res.
    + rewrite Hread in Hstep.
      destruct (sharedBuffers s !! 0%nat) as [b|] eqn:Hb0;
        [|apply lookup_ge_None in Hb0; lia].
      injection Hstep as <- <-.
      constructor; simpl;
        [> solve_wired | exact Ht | exact Hp
         | eexists; reflexivity | | | exact Hst ].
      * intros j b' p Hj Hpc. change (consumerPc _ j) with (consumerPc s j) in Hpc.
        unfold stoppedBuffers. simpl.
        apply list_lookup_insert_Some in Hj as [(<- & <- & _)|[Hne Hj]].
        -- destruct (Hb 0%nat b p Hb0 Hpc) as (Hs & Hcl & Hid & Hpk).
           unfold stoppedBuffers in Hcl. rewrite Hcaller in Hcl.
           destruct (addItem_spec frame b Hs) as (Hs' & _ & Hcl' & _).
           split; [exact Hs'|]. rewrite Hcl', idle_addItem.
           split; [exact Hcl|]. split; [exact Hid|].
           intros Hpk'. destruct (Hpk Hpk') as [_ Hc']. specialize (Hcl Hc'). lia.
        -- specialize (Hb j b' p Hj Hpc). unfold stoppedBuffers in Hb.
           rewrite Hcaller in Hb. exact Hb.
      * intros j p Hj. unfold awaited in Hj. simpl in Hj. lia.
    + injection Hstep as <- <-. destruct Hnext as [_ Hnil].
      destruct Hp as [Hps Hpo].
      destruct (addItem_spec frame _ Hps) as (Hs' & _ & Hcl' & _).
      constructor; simpl;
        [> solve_wired | exact Ht | split; [exact Hs'|exact (eq_trans Hcl' Hpo)]
         | split; [lia|unfold upcoming; simpl; exact Hnil] | | | exact Hst ].
      * intros j b' p Hj Hpc. change (consumerPc _ j) with (consumerPc s j) in Hpc.
        specialize (Hb j b' p Hj Hpc). unfold stoppedBuffers in *. simpl.
        rewrite Hcaller in Hb. exact Hb.
      * intros j p Hj. unfold awaited in Hj. simpl in Hj. lia.
  - (* Stopping i: stoppedInput on buffer i *)
    destruct Hc as [Hi Hup].
    destruct (sharedBuffers s !! i) as [b|] eqn:Hbi; [|apply lookup_ge_None in Hbi; lia].
    injection Hstep as <- <-.
    destruct Hw as (Hlen & Hread & Hcoll & Hlinks).
    constructor; simpl;
      [> solve_wired | exact Ht | exact Hp
       | split; [rewrite length_insert; exact Hi|exact Hup] | | | exact Hst ].
    + intros j b' p Hj Hpc. change (consumerPc _ j) with (consumerPc s j) in Hpc.
      unfold stoppedBuffers. simpl.
      apply list_lookup_insert_Some in Hj as [(<- & <- & _)|[Hne Hj]].
      * destruct (Hb i b p Hbi Hpc) as (Hs & Hcl & Hid & Hpk).
        destruct (stoppedInput_spec b Hs) as (Hs' & Hcont & Hcl' & _).
        split; [exact Hs'|]. rewrite idle_stoppedInput, Hcont.
        split; [intros _; lia|]. split; [exact Hid|].
        intros Hpk'. split; [apply Hpk, Hpk'|exact Hcl'].
      * destruct (Hb j b' p Hj Hpc) as (Hs & Hcl & Hid & Hpk).
        unfold stoppedBuffers in Hcl. rewrite Hcaller in Hcl.
        split; [exact Hs|]. split; [intros Hc'; specialize (Hcl Hc'); lia|].
        split; assumption.
    + intros j p Hj Hpc. change (consumerPc _ j) with (consumerPc s j) in Hpc.
      apply (Ha j p); [unfold awaited; rewrite Hcaller; exact Hj|exact Hpc].
  - (* Waiting i: waitStop on stage i, or on the collection stage *)
    destruct Hc as [Hi Hup].
    destruct Hw as (Hlen & Hread & Hcoll & Hlinks).
    destruct (S i <? length (sharedBuffers s))%nat eqn:Hlast.
    + apply Nat.ltb_lt in Hlast.
      destruct (processingStages s !! i) as [st|] eqn:Hsti;
        [|apply lookup_ge_None in Hsti; lia].
      destruct (stopped st) eqn:Hstop; [|discriminate].
      injection Hstep as <- <-.
      constructor; simpl;
        [> solve_wired | exact Ht | exact Hp
         | split; [exact Hlast|exact Hup] | | | exact Hst ].
      * intros j b' p Hj Hpc. change (consumerPc _ j) with (consumerPc s j) in Hpc.
        specialize (Hb j b' p Hj Hpc). unfold stoppedBuffers in *. simpl.
        rewrite Hcaller in Hb. exact Hb.
      * intros j p Hj Hpc. change (consumerPc _ j) with (consumerPc s j) in Hpc.
        unfold awaited in Hj. simpl in Hj.
        destruct (decide (j = i)) as [->|Hne].
        -- rewrite (consumerPc_stage s i st Hsti) in Hpc. injection Hpc as <-.
           destruct Hst as [Hst _]. apply (Hst i st Hsti). exact Hstop.
        -- apply (Ha j p); [unfold awaited; rewrite Hcaller; lia|exact Hpc].
    + apply Nat.ltb_ge in Hlast.
      destruct (collectionStopped (collectionStage s)) eqn:Hstop; [|discriminate].
      injection Hstep as <- <-.
      constructor; simpl;
        [> solve_wired | exact Ht | exact Hp | exact Hup | | | rewrite Hstop; exact Hst ].
      * intros j b' p Hj Hpc. change (consumerPc _ j) with (consumerPc s j) in Hpc.
        destruct (Hb j b' p Hj Hpc) as (Hs & Hcl & Hid & Hpk).
        split; [exact Hs|]. split; [|split; assumption].
        intros _. unfold stoppedBuffers. simpl. apply lookup_lt_Some in Hj. exact Hj.
      * intros j p Hj Hpc. change (consumerPc _ j) with (consumerPc s j) in Hpc.
        unfold awaited in Hj. simpl in Hj.
        destruct (decide (j < i)%nat) as [Hlt|Hge].
        -- apply (Ha j p); [unfold awaited; rewrite Hcaller; lia|exact Hpc].
        -- assert (j = length (processingStages s)) as -> by lia.
           rewrite consumerPc_collection in Hpc. injection Hpc as <-.
           apply Hst. reflexivity.
Qed.

Lemma awaited_of_stopped s i : (S i < stoppedBuffers s)%nat -> (i < awaited s)%nat.
Proof. unfold stoppedBuffers, awaited. destruct (caller s); lia. Qed.

Lemma StreamInv_stage_step s i ev s' :
  StreamInv s -> stage_step projectUpdate i s = Some (ev, s') -> StreamInv s'.
Proof.
  intros Hinv Hstep. unfold stage_step in Hstep.
  destruct (processingStages s !! i) as [st|] eqn:Hsti; [|discriminate].
  pose proof (lookup_lt_Some _ _ _ Hsti) as Hi.
  pose proof (consumerPc_stage s i st Hsti) as Hpci.
  destruct (pc st) as [| |x] eqn:Hpc; [discriminate| |].
  - (* Getting *)
    destruct Hinv as [Hw Ht Hp Hc Hb Ha Hst].
    destruct Hw as (Hlen & Hread & Hcoll & Hlinks).
    destruct (Hlinks i st Hsti) as [Hin Hout]. rewrite Hin in Hstep.
    destruct (sharedBuffers s !! i) as [b|] eqn:Hbi; [|apply lookup_ge_None in Hbi; lia].
    destruct (Hb i b Getting Hbi Hpci) as (Hs & Hcl & _ & _).
    pose proof (getItem_spec b Hs) as Hg.
    destruct (getItem b) as [|b'|[item|] b'|]; try discriminate; [| | |destruct Hg].
    + (* still inside getItem *)
      injection Hstep as <- <-. destruct Hg as (Hs' & _ & Hcl' & _).
      constructor; simpl;
        [> solve_wired | exact Ht | exact Hp
         | destruct (caller s); rewrite ?length_insert; exact Hc | | | exact Hst ].
      * intros j b0 p Hj Hpcj. change (consumerPc _ j) with (consumerPc s j) in Hpcj.
        replace (stoppedBuffers _) with (stoppedBuffers s)
          by (unfold stoppedBuffers; simpl; rewrite length_insert; reflexivity).
        apply list_lookup_insert_Some in Hj as [(<- & <- & _)|[Hne Hj]].
        -- rewrite Hpci in Hpcj. injection Hpcj as <-. rewrite Hcl'.
           split; [exact Hs'|]. split; [exact Hcl|]. split; intros; congruence.
        -- exact (Hb j b0 p Hj Hpcj).
      * intros j p Hj Hpcj. change (consumerPc _ j) with (consumerPc s j) in Hpcj.
        apply (Ha j p); [|exact Hpcj].
        unfold awaited in *. simpl in Hj. rewrite length_insert in Hj. exact Hj.
    + (* handed an item *)
      injection Hstep as <- <-. destruct Hg as (Hs' & _ & Hcl' & Hid').
      constructor; simpl;
        [> solve_wired | exact Ht | exact Hp
         | destruct (caller s); rewrite ?length_insert; exact Hc | | | ].
      * intros j b0 p Hj Hpcj.
        replace (stoppedBuffers _) with (stoppedBuffers s)
          by (unfold stoppedBuffers; simpl; rewrite length_insert; reflexivity).
        change (consumerPc _ j)
          with (consumerPc (with_stages s (<[i:=at_pc st (Holding item)]> (processingStages s))) j)
          in Hpcj.
        rewrite (consumerPc_insert s i st _ j Hsti) in Hpcj.
        apply list_lookup_insert_Some in Hj as [(<- & <- & _)|[Hne Hj]].
        -- rewrite decide_True in Hpcj by reflexivity. injection Hpcj as <-. rewrite Hcl'.
           split; [exact Hs'|]. split; [exact Hcl|]. split; [intros _; exact Hid'|].
           intros; discriminate.
        -- rewrite decide_False in Hpcj by exact Hne. exact (Hb j b0 p Hj Hpcj).
      * intros j p Hj Hpcj.
        change (consumerPc _ j)
          with (consumerPc (with_stages s (<[i:=at_pc st (Holding item)]> (processingStages s))) j)
          in Hpcj.
        rewrite (consumerPc_insert s i st _ j Hsti) in Hpcj.
        assert (Hj' : (j < awaited s)%nat)
          by (unfold awaited in *; simpl in Hj; rewrite length_insert in Hj; exact Hj).
        destruct (decide (i = j)) as [<-|Hne].
        -- specialize (Ha i Getting Hj' Hpci). discriminate.
        -- exact (Ha j p Hj' Hpcj).
      * destruct Hst as [Hst Hcs]. split; [|exact Hcs].
        intros k st0 [(<- & <- & _)|[_ Hk]]%list_lookup_insert_Some; [|exact (Hst k st0 Hk)].
        simpl. pose proof (Hst i st Hsti) as Hiff. rewrite Hpc in Hiff.
        split; [intros H; apply Hiff in H; discriminate|discriminate].
    + (* handed the end marker *)
      injection Hstep as <- <-. destruct Hg as (Hs' & _ & Hcont' & Hcl0 & Hcl' & Hid').
      constructor; simpl;
        [> solve_wired | exact Ht | exact Hp
         | destruct (caller s); rewrite ?length_insert; exact Hc | | | ].
      * intros j b0 p Hj Hpcj.
        replace (stoppedBuffers _) with (stoppedBuffers s)
          by (unfold stoppedBuffers; simpl; rewrite length_insert; reflexivity).
        match type of Hpcj with consumerPc ?s0 j = _ =>
          change (consumerPc s0 j)
            with (consumerPc (with_stages s (processingStages s0)) j) in Hpcj end.
        simpl in Hpcj. rewrite (consumerPc_insert s i st _ j Hsti) in Hpcj.
        apply list_lookup_insert_Some in Hj as [(<- & <- & _)|[Hne Hj]].
        -- rewrite decide_True in Hpcj by reflexivity. injection Hpcj as <-.
           split; [exact Hs'|]. split; [intros _; exact (Hcl Hcl0)|].
           split; [intros _; exact Hid'|]. intros _. split; assumption.
        -- rewrite decide_False in Hpcj by exact Hne. exact (Hb j b0 p Hj Hpcj).
      * intros j p Hj Hpcj.
        match type of Hpcj with consumerPc ?s0 j = _ =>
          change (consumerPc s0 j)
            with (consumerPc (with_stages s (processingStages s0)) j) in Hpcj end.
        simpl in Hpcj. rewrite (consumerPc_insert s i st _ j Hsti) in Hpcj.
        assert (Hj' : (j < awaited s)%nat)
          by (unfold awaited in *; simpl in Hj; rewrite length_insert in Hj; exact Hj).
        destruct (decide (i = j)) as [<-|Hne].
        -- simpl in Hpcj. congruence.
        -- exact (Ha j p Hj' Hpcj).
      * destruct Hst as [Hst Hcs]. split; [|exact Hcs].
        intros k st0 [(<- & <- & _)|[_ Hk]]%list_lookup_insert_Some; [|exact (Hst k st0 Hk)].
        simpl. split; reflexivity.
  - (* Holding x: projectUpdate, then addItem on the output buffer *)
    destruct (projectUpdate (transform st) (data x)) as [[transform' data']|] eqn:Hpu.
    2:{ injection Hstep as <- <-. apply StreamInv_terminate; [exact Hinv|reflexivity]. }
    destruct Hinv as [Hw Ht Hp Hc Hb Ha Hst].
    destruct Hw as (Hlen & Hread & Hcoll & Hlinks).
    destruct (Hlinks i st Hsti) as [Hin Hout]. rewrite Hout in Hstep.
    destruct (sharedBuffers s !! S i) as [b|] eqn:Hbi; [|apply lookup_ge_None in Hbi; lia].
    injection Hstep as <- <-.
    constructor; simpl;
      [> solve_wired | exact Ht | exact Hp
       | destruct (caller s); rewrite ?length_insert; exact Hc | | | ].
    + intros j b0 p Hj Hpcj.
      replace (stoppedBuffers _) with (stoppedBuffers s)
        by (unfold stoppedBuffers; simpl; rewrite length_insert; reflexivity).
      match type of Hpcj with consumerPc ?s0 j = _ =>
        change (consumerPc s0 j)
          with (consumerPc (with_stages s (processingStages s0)) j) in Hpcj end.
      simpl in Hpcj. rewrite (consumerPc_insert s i st _ j Hsti) in Hpcj.
      apply list_lookup_insert_Some in Hj as [(<- & <- & _)|[Hne Hj]].
      * rewrite decide_False in Hpcj by lia.
        destruct (Hb (S i) b p Hbi Hpcj) as (Hs & Hcl & Hid & Hpk).
        destruct (addItem_spec {| sequenceNumber := sequenceNumber x; data := data' |} b Hs)
          as (Hs' & _ & Hcl' & _).
        rewrite Hcl', idle_addItem. split; [exact Hs'|]. split; [exact Hcl|].
        split; [exact Hid|]. intros Hpk'. exfalso.
        destruct (Hpk Hpk') as [_ Hclosed]. specialize (Hcl Hclosed).
        apply awaited_of_stopped in Hcl. specialize (Ha i (Holding x) Hcl Hpci).
        discriminate.
      * destruct (decide (i = j)) as [<-|Hne'].
        -- injection Hpcj as <-. destruct (Hb i b0 (Holding x) Hj Hpci) as (Hs & Hcl & _ & _).
           split; [exact Hs|]. split; [exact Hcl|]. split; intros; congruence.
        -- exact (Hb j b0 p Hj Hpcj).
    + intros j p Hj Hpcj.
      match type of Hpcj with consumerPc ?s0 j = _ =>
        change (consumerPc s0 j)
          with (consumerPc (with_stages s (processingStages s0)) j) in Hpcj end.
      simpl in Hpcj. rewrite (consumerPc_insert s i st _ j Hsti) in Hpcj.
      assert (Hj' : (j < awaited s)%nat)
        by (unfold awaited in *; simpl in Hj; rewrite length_insert in Hj; exact Hj).
      destruct (decide (i = j)) as [<-|Hne].
      * specialize (Ha i (Holding x) Hj' Hpci). discriminate.
      * exact (Ha j p Hj' Hpcj).
    + destruct Hst as [Hst Hcs]. split; [|exact Hcs].
      intros k st0 [(<- & <- & _)|[_ Hk]]%list_lookup_insert_Some; [|exact (Hst k st0 Hk)].
      simpl. pose proof (Hst i st Hsti) as Hiff. rewrite Hpc in Hiff.
      split; [intros H; apply Hiff in H; discriminate|discriminate].
Qed.

Lemma StreamInv_collection_step s ev s' :
  StreamInv s -> collection_step s = Some (ev, s') -> StreamInv s'.
Proof.
  intros Hinv Hstep. unfold collection_step in Hstep.
  destruct Hinv as [Hw Ht Hp Hc Hb Ha Hst].
  destruct Hw as (Hlen & Hread & Hcoll & Hlinks).
  pose proof (consumerPc_collection s) as Hpcn.
  set (n := length (processingStages s)) in *.
  destruct (collectionPc (collectionStage s)) as [| |frame] eqn:Hpc; [discriminate| |].
  - (* Getting *)
    rewrite Hcoll in Hstep.
    destruct (sharedBuffers s !! n) as [b|] eqn:Hbn; [|apply lookup_ge_None in Hbn; lia].
    destruct (Hb n b Getting Hbn Hpcn) as (Hs & Hcl & _ & _).
    pose proof (getItem_spec b Hs) as Hg.
    destruct (getItem b) as [|b'|[item|] b'|]; try discriminate; [| | |destruct Hg].
    + injection Hstep as <- <-. destruct Hg as (Hs' & _ & Hcl' & _).
      constructor; simpl;
        [> solve_wired | exact Ht | exact Hp
         | destruct (caller s); rewrite ?length_insert; exact Hc | |
         | rewrite Hpc; exact Hst ].
      * intros j b0 p Hj Hpcj. change (consumerPc _ j) with (consumerPc s j) in Hpcj.
        replace (stoppedBuffers _) with (stoppedBuffers s)
          by (unfold stoppedBuffers; simpl; rewrite length_insert; reflexivity).
        apply list_lookup_insert_Some in Hj as [(<- & <- & _)|[Hne Hj]].
        -- rewrite Hpcn in Hpcj. injection Hpcj as <-. rewrite Hcl'.
           split; [exact Hs'|]. split; [exact Hcl|]. split; intros; congruence.
        -- exact (Hb j b0 p Hj Hpcj).
      * intros j p Hj Hpcj. change (consumerPc _ j) with (consumerPc s j) in Hpcj.
        apply (Ha j p); [|exact Hpcj].
        unfold awaited in *. simpl in Hj. rewrite length_insert in Hj. exact Hj.
    + injection Hstep as <- <-. destruct Hg as (Hs' & _ & Hcl' & Hid').
      constructor; simpl;
        [> solve_wired | exact Ht | exact Hp
         | destruct (caller s); rewrite ?length_insert; exact Hc | | | ].
      * intros j b0 p Hj Hpcj.
        replace (stoppedBuffers _) with (stoppedBuffers s)
          by (unfold stoppedBuffers; simpl; rewrite length_insert; reflexivity).
        match type of Hpcj with consumerPc ?s0 j = _ =>
          change (consumerPc s0 j)
            with (consumerPc (with_collection s (collectionStage s0)) j) in Hpcj end.
        rewrite consumerPc_with_collection in Hpcj. simpl in Hpcj. fold n in Hpcj.
        apply list_lookup_insert_Some in Hj as [(<- & <- & _)|[Hne Hj]].
        -- rewrite decide_True in Hpcj by reflexivity. injection Hpcj as <-. rewrite Hcl'.
           split; [exact Hs'|]. split; [exact Hcl|]. split; [intros _; exact Hid'|].
           intros; discriminate.
        -- rewrite decide_False in Hpcj by auto. exact (Hb j b0 p Hj Hpcj).
      * intros j p Hj Hpcj.
        match type of Hpcj with consumerPc ?s0 j = _ =>
          change (consumerPc s0 j)
            with (consumerPc (with_collection s (collectionStage s0)) j) in Hpcj end.
        rewrite consumerPc_with_collection in Hpcj. simpl in Hpcj. fold n in Hpcj.
        assert (Hj' : (j < awaited s)%nat)
          by (unfold awaited in *; simpl in Hj; rewrite length_insert in Hj; exact Hj).
        destruct (decide (j = n)) as [->|Hne].
        -- specialize (Ha n Getting Hj' Hpcn). discriminate.
        -- exact (Ha j p Hj' Hpcj).
      * destruct Hst as [Hst Hcs]. split; [exact Hst|].
        split; [intros H; apply Hcs in H; discriminate|discriminate].
    + injection Hstep as <- <-. destruct Hg as (Hs' & _ & Hcont' & Hcl0 & Hcl' & Hid').
      constructor; simpl;
        [> solve_wired | exact Ht | exact Hp
         | destruct (caller s); rewrite ?length_insert; exact Hc | | | ].
      * intros j b0 p Hj Hpcj.
        replace (stoppedBuffers _) with (stoppedBuffers s)
          by (unfold stoppedBuffers; simpl; rewrite length_insert; reflexivity).
        match type of Hpcj with consumerPc ?s0 j = _ =>
          change (consumerPc s0 j)
            with (consumerPc (with_collection s (collectionStage s0)) j) in Hpcj end.
        rewrite consumerPc_with_collection in Hpcj. simpl in Hpcj. fold n in Hpcj.
        apply list_lookup_insert_Some in Hj as [(<- & <- & _)|[Hne Hj]].
        -- rewrite decide_True in Hpcj by reflexivity. injection Hpcj as <-.
           split; [exact Hs'|]. split; [intros _; exact (Hcl Hcl0)|].
           split; [intros _; exact Hid'|]. intros _. split; assumption.
        -- rewrite decide_False in Hpcj by auto. exact (Hb j b0 p Hj Hpcj).
      * intros j p Hj Hpcj.
        match type of Hpcj with consumerPc ?s0 j = _ =>
          change (consumerPc s0 j)
            with (consumerPc (with_collection s (collectionStage s0)) j) in Hpcj end.
        rewrite consumerPc_with_collection in Hpcj. simpl in Hpcj. fold n in Hpcj.
        assert (Hj' : (j < awaited s)%nat)
          by (unfold awaited in *; simpl in Hj; rewrite length_insert in Hj; exact Hj).
        destruct (decide (j = n)) as [->|Hne].
        -- congruence.
        -- exact (Ha j p Hj' Hpcj).
      * destruct Hst as [Hst Hcs]. split; [exact Hst|]. split; reflexivity.
  - (* Holding frame: append its templates, return it to the pool *)
    injection Hstep as <- <-.
    destruct Hp as [Hps Hpo].
    destruct (addItem_spec frame _ Hps) as (Hs' & _ & Hcl' & _).
    destruct (sharedBuffers s !! n) as [b|] eqn:Hbn; [|apply lookup_ge_None in Hbn; lia].
    constructor; simpl;
      [> solve_wired | exact Ht | split; [exact Hs'|exact (eq_trans Hcl' Hpo)]
       | destruct (caller s); exact Hc | | | ].
    + intros j b0 p Hj Hpcj.
      replace (stoppedBuffers _) with (stoppedBuffers s) by reflexivity.
      match type of Hpcj with consumerPc ?s0 j = _ =>
        change (consumerPc s0 j)
          with (consumerPc (with_collection s (collectionStage s0)) j) in Hpcj end.
      rewrite consumerPc_with_collection in Hpcj. simpl in Hpcj. fold n in Hpcj.
      destruct (decide (j = n)) as [->|Hne].
      * injection Hpcj as <-. destruct (Hb n b0 (Holding frame) Hj Hpcn) as (Hs & Hcl & _ & _).
        split; [exact Hs|]. split; [exact Hcl|]. split; intros; congruence.
      * exact (Hb j b0 p Hj Hpcj).
    + intros j p Hj Hpcj.
      match type of Hpcj with consumerPc ?s0 j = _ =>
        change (consumerPc s0 j)
          with (consumerPc (with_collection s (collectionStage s0)) j) in Hpcj end.
      rewrite consumerPc_with_collection in Hpcj. simpl in Hpcj. fold n in Hpcj.
      assert (Hj' : (j < awaited s)%nat) by exact Hj.
      destruct (decide (j = n)) as [->|Hne].
      * specialize (Ha n (Holding frame) Hj' Hpcn). discriminate.
      * exact (Ha j p Hj' Hpcj).
    + destruct Hst as [Hst Hcs]. split; [exact Hst|].
      split; [intros H; apply Hcs in H; discriminate|discriminate].
Qed.

Lemma StreamInv_step s t ev s' :
  StreamInv s -> step projectUpdate t s = Some (ev, s') -> StreamInv s'.
Proof.
  intros Hinv Hstep. unfold step in Hstep. destruct (terminated s); [discriminate|].
  destruct t.
  - eapply StreamInv_caller_step; eassumption.
  - eapply StreamInv_stage_step; eassumption.
  - eapply StreamInv_collection_step; eassumption.
  - apply racing_addItem_Some in Hstep as [-> ->]. apply StreamInv_race, Hinv.
Qed.

Lemma StreamInv_run s tr s' :
  StreamInv s -> run projectUpdate s tr s' -> StreamInv s'.
Proof.
  intros Hinv Hrun. induction Hrun as [|s tr s' t ev s'' _ IH Hstep]; [exact Hinv|].
  eapply StreamInv_step; [apply IH; exact Hinv|exact Hstep].
Qed.

Lemma contents_addItem input sb : contents (addItem input sb) = contents sb ++ [input].
Proof.
  destruct sb as [b|b]; unfold contents, addItem; simpl; [reflexivity|].
  unfold DoubleBuffer.outputBuffer, DoubleBuffer.inputBuffer. simpl.
  destruct (DoubleBuffer.inputIsBuffer1 b); rewrite <- ?app_assoc; reflexivity.
Qed.

Lemma contents_stoppedInput sb : contents (stoppedInput sb) = contents sb.
Proof. destruct sb as [b|b]; reflexivity. Qed.

(** A frame that is about to arrive behind the contents of the first buffer
    may as well be in it. *)
Lemma through_push stages b b' buffers x up :
  contents b' = contents b ++ [x] ->
  through projectUpdate stages (b' :: buffers) up
  = through projectUpdate stages (b :: buffers) (x :: up).
Proof.
  intros Hc. destruct stages as [|st stages]; simpl; rewrite Hc, <- !app_assoc; reflexivity.
Qed.

Lemma through_buffer stages : forall buffers j b b' up,
  buffers !! j = Some b -> contents b' = contents b ->
  through projectUpdate stages (<[j := b']> buffers) up
  = through projectUpdate stages buffers up.
Proof.
  induction stages as [|st stages IH]; intros [|b0 buffers] [|j] b b' up Hj Hc;
    simpl in *; try discriminate; try reflexivity.
  - injection Hj as ->. rewrite Hc. reflexivity.
  - injection Hj as ->. rewrite Hc. reflexivity.
  - destruct (run_stage projectUpdate _ _); [|reflexivity]. eapply IH; eassumption.
Qed.

Lemma through_get stages : forall buffers i st b b' x up,
  stages !! i = Some st -> pc st = Getting ->
  buffers !! i = Some b -> contents b = x :: contents b' ->
  through projectUpdate (<[i := at_pc st (Holding x)]> stages) (<[i := b']> buffers) up
  = through projectUpdate stages buffers up.
Proof.
  induction stages as [|st0 stages IH]; intros [|b0 buffers] [|i] st b b' x up Hi Hpc Hb Hc;
    simpl in *; try discriminate.
  - injection Hi as ->. injection Hb as ->. rewrite Hpc, Hc. reflexivity.
  - destruct (run_stage projectUpdate _ _); [|reflexivity]. eapply IH; eassumption.
Qed.

Lemma through_put stages : forall buffers i st st' b x data' up,
  stages !! i = Some st -> pc st = Holding x -> pc st' = Getting ->
  projectUpdate (transform st) (data x) = Ok (transform st', data') ->
  buffers !! S i = Some b ->
  through projectUpdate (<[i := st']> stages)
    (<[S i := addItem {| sequenceNumber := sequenceNumber x; data := data' |} b]> buffers) up
  = through projectUpdate stages buffers up.
Proof.
  induction stages as [|st0 stages IH];
    intros [|b0 buffers] [|i] st st' b x data' up Hi Hpc Hpc' Hpu Hb;
    simpl in *; try discriminate.
  - injection Hi as ->. rewrite Hpc, Hpc'. simpl. rewrite Hpu.
    destruct buffers as [|b1 buffers]; [discriminate|]. injection Hb as ->. simpl.
    destruct (run_stage projectUpdate (transform st') (contents b0 ++ up)) as [out|];
      [|reflexivity].
    apply through_push. apply contents_addItem.
  - destruct (run_stage projectUpdate _ _); [|reflexivity]. eapply IH; eassumption.
Qed.

Lemma through_take stages : forall buffers b b' x up,
  buffers !! length stages = Some b -> contents b = x :: contents b' ->
  through projectUpdate stages buffers up
  = prepend [x] (through projectUpdate stages (<[length stages := b']> buffers) up).
Proof.
  induction stages as [|st stages IH]; intros [|b0 buffers] b b' x up Hb Hc;
    simpl in *; try discriminate.
  - injection Hb as ->. rewrite Hc. reflexivity.
  - destruct (run_stage projectUpdate _ _); [|reflexivity]. eapply IH; eassumption.
Qed.

Lemma through_parked stages : forall buffers,
  length buffers = S (length stages) ->
  (forall i st, stages !! i = Some st -> pc st = Parked) ->
  (forall j b, buffers !! j = Some b -> contents b = []) ->
  through projectUpdate stages buffers [] = Ok [].
Proof.
  induction stages as [|st stages IH]; intros [|b0 buffers] Hlen Hpc Hc;
    simpl in *; try discriminate.
  - rewrite (Hc 0%nat b0 eq_refl). reflexivity.
  - rewrite (Hpc 0%nat st eq_refl), (Hc 0%nat b0 eq_refl). simpl.
    apply IH; [lia | intros i; apply (Hpc (S i)) | intros j; apply (Hc (S j))].
Qed.

(** At the start of a run nothing is in flight but what the source still
    holds, and the pipeline is that of the transforms, in order. *)
Lemma through_started stages : forall buffers up,
  length buffers = S (length stages) ->
  (forall i st, stages !! i = Some st -> pc st = Getting) ->
  (forall j b, buffers !! j = Some b -> contents b = []) ->
  through projectUpdate stages buffers up
  = run_all projectUpdate (transform <$> stages) up.
Proof.
  induction stages as [|st stages IH]; intros [|b0 buffers] up Hlen Hpc Hc;
    simpl in *; try discriminate.
  - rewrite (Hc 0%nat b0 eq_refl). reflexivity.
  - rewrite (Hpc 0%nat st eq_refl), (Hc 0%nat b0 eq_refl). simpl.
    destruct (run_stage projectUpdate (transform st) up); [|reflexivity].
    apply IH; [lia | intros i; apply (Hpc (S i)) | intros j; apply (Hc (S j))].
Qed.

Lemma through_stage stages : forall buffers i st st' up,
  stages !! i = Some st -> transform st' = transform st -> held (pc st') = held (pc st) ->
  through projectUpdate (<[i := st']> stages) buffers up
  = through projectUpdate stages buffers up.
Proof.
  induction stages as [|st0 stages IH]; intros [|b0 buffers] [|i] st st' up Hi Ht Hh;
    simpl in *; try discriminate; try reflexivity.
  - injection Hi as ->. rewrite Ht, Hh. reflexivity.
  - destruct (run_stage projectUpdate _ _); [|reflexivity]. eapply IH; eassumption.
Qed.

Lemma prepend_nil r : prepend [] r = r.
Proof. destruct r; reflexivity. Qed.

Lemma in_flight_terminate s why : in_flight projectUpdate (terminate s why) = in_flight projectUpdate s.
Proof. reflexivity. Qed.

Lemma in_flight_caller_step s ev s' :
  StreamInv s -> caller_step s = Some (ev, s') ->
  in_flight projectUpdate s = prepend (collectedFrames ev) (in_flight projectUpdate s').
Proof.
  intros Hinv Hstep. unfold caller_step in Hstep.
  destruct (caller s) as [| |aFrame|i|i|dst] eqn:Hcaller; try discriminate.
  - destruct (DoubleBuffer.getItem (allFrames (dataSource (readStage s))))
      as [|pool|[f|] pool|]; try discriminate; injection Hstep as <- <-;
      rewrite prepend_nil; reflexivity.
  - destruct (actualSource (dataSource (readStage s))) as [source|] eqn:Hsrc;
      [|injection Hstep as <- <-; rewrite prepend_nil; reflexivity].
    pose proof (ActualSource_getNext_remaining source {| sequenceNumber := -1; data := [] |})
      as Hnext.
    destruct (ActualSource_getNext source {| sequenceNumber := -1; data := [] |})
      as [[res frame] source'].
    destruct res.
    + destruct (inv_wired s Hinv) as (_ & Hread & _). rewrite Hread in Hstep.
      destruct (sharedBuffers s !! 0%nat) as [b|] eqn:Hb0;
        [|injection Hstep as <- <-; rewrite prepend_nil; reflexivity].
      injection Hstep as <- <-. rewrite prepend_nil.
      destruct Hnext as (f & Hrem & ->). destruct f as [n d]. simpl.
      unfold in_flight, upcoming. simpl. rewrite Hsrc, Hrem.
      destruct (sharedBuffers s) as [|b0 buffers]; [discriminate|].
      injection Hb0 as ->. simpl.
      rewrite (through_push _ b (addItem _ b) _ {| sequenceNumber := n; data := d |})
        by apply contents_addItem.
      reflexivity.
    + injection Hstep as <- <-. rewrite prepend_nil. destruct Hnext as [Hrem Hrem'].
      unfold in_flight, upcoming. simpl. rewrite Hsrc, Hrem, Hrem'. reflexivity.
  - destruct (sharedBuffers s !! i) as [b|] eqn:Hbi;
      injection Hstep as <- <-; rewrite prepend_nil; [|reflexivity].
    unfold in_flight, upcoming. simpl.
    rewrite (through_buffer _ _ _ b) by (exact Hbi || apply contents_stoppedInput).
    reflexivity.
  - destruct (S i <? length (sharedBuffers s))%nat.
    + destruct (processingStages s !! i) as [st|];
        [destruct (stopped st); [|discriminate]|];
        injection Hstep as <- <-; rewrite prepend_nil; reflexivity.
    + destruct (collectionStopped (collectionStage s)); [|discriminate].
      injection Hstep as <- <-; rewrite prepend_nil; reflexivity.
Qed.

Lemma in_flight_stage_step s i ev s' :
  StreamInv s -> stage_step projectUpdate i s = Some (ev, s') ->
  in_flight projectUpdate s = prepend (collectedFrames ev) (in_flight projectUpdate s').
Proof.
  intros Hinv Hstep. unfold stage_step in Hstep.
  destruct (processingStages s !! i) as [st|] eqn:Hsti; [|discriminate].
  destruct (inv_wired s Hinv) as (Hlen & _ & _ & Hlinks).
  destruct (Hlinks i st Hsti) as [Hin Hout].
  pose proof (consumerPc_stage s i st Hsti) as Hpci.
  destruct (pc st) as [| |x] eqn:Hpc; [discriminate| |].
  - rewrite Hin in Hstep.
    destruct (sharedBuffers s !! i) as [b|] eqn:Hbi;
      [|injection Hstep as <- <-; rewrite prepend_nil; reflexivity].
    destruct (inv_buffers s Hinv i b Getting Hbi Hpci) as (Hs & _).
    pose proof (getItem_spec b Hs) as Hg.
    destruct (getItem b) as [|b'|[item|] b'|]; try discriminate;
      injection Hstep as <- <-; rewrite prepend_nil; unfold in_flight, upcoming; simpl.
    + destruct Hg as (_ & Hcont & _).
      rewrite (through_buffer _ _ _ b) by assumption. reflexivity.
    + destruct Hg as (_ & Hcont & _).
      rewrite (through_get _ _ _ st b) by assumption. reflexivity.
    + destruct Hg as (_ & Hcont & Hcont' & _).
      rewrite (through_stage _ _ _ st) by (try rewrite Hpc; auto).
      rewrite (through_buffer _ _ _ b) by congruence. reflexivity.
    + reflexivity.
  - destruct (projectUpdate (transform st) (data x)) as [[transform' data']|] eqn:Hpu;
      [|injection Hstep as <- <-; rewrite prepend_nil; reflexivity].
    rewrite Hout in Hstep.
    destruct (sharedBuffers s !! S i) as [b|] eqn:Hbi;
      injection Hstep as <- <-; rewrite prepend_nil; [|reflexivity].
    unfold in_flight, upcoming; simpl.
    rewrite (through_put _ _ _ st _ b x data') by (reflexivity || assumption). reflexivity.
Qed.

Lemma in_flight_collection_step s ev s' :
  StreamInv s -> collection_step s = Some (ev, s') ->
  in_flight projectUpdate s = prepend (collectedFrames ev) (in_flight projectUpdate s').
Proof.
  intros Hinv Hstep. unfold collection_step in Hstep.
  destruct (inv_wired s Hinv) as (Hlen & _ & Hcoll & _).
  pose proof (consumerPc_collection s) as Hpcn.
  destruct (collectionPc (collectionStage s)) as [| |frame] eqn:Hpc; [discriminate| |].
  - rewrite Hcoll in Hstep.
    destruct (sharedBuffers s !! length (processingStages s)) as [b|] eqn:Hbn;
      [|injection Hstep as <- <-; rewrite prepend_nil; reflexivity].
    destruct (inv_buffers s Hinv _ b Getting Hbn Hpcn) as (Hs & _).
    pose proof (getItem_spec b Hs) as Hg.
    destruct (getItem b) as [|b'|[item|] b'|]; try discriminate;
      injection Hstep as <- <-; rewrite prepend_nil; unfold in_flight, upcoming; simpl;
      rewrite ?Hpc; simpl.
    + destruct Hg as (_ & Hcont & _).
      rewrite (through_buffer _ _ _ b) by assumption. reflexivity.
    + destruct Hg as (_ & Hcont & _).
      rewrite (through_take _ _ b b' item) by assumption.
      destruct (through _ _ _ _); reflexivity.
    + destruct Hg as (_ & Hcont & Hcont' & _).
      rewrite (through_buffer _ _ _ b) by congruence. reflexivity.
    + reflexivity.
  - injection Hstep as <- <-. unfold in_flight, upcoming; simpl. rewrite Hpc. simpl.
    destruct (through _ _ _ _); reflexivity.
Qed.

Lemma in_flight_step s t ev s' :
  StreamInv s -> step projectUpdate t s = Some (ev, s') ->
  in_flight projectUpdate s = prepend (collectedFrames ev) (in_flight projectUpdate s').
Proof.
  intros Hinv Hstep. unfold step in Hstep. destruct (terminated s); [discriminate|].
  destruct t.
  - apply in_flight_caller_step; assumption.
  - eapply in_flight_stage_step; eassumption.
  - apply in_flight_collection_step; assumption.
  - apply racing_addItem_Some in Hstep as [-> ->]. rewrite prepend_nil. reflexivity.
Qed.

Lemma collectedFrames_app tr1 tr2 :
  collectedFrames (tr1 ++ tr2) = collectedFrames tr1 ++ collectedFrames tr2.
Proof. apply omap_app. Qed.

Lemma prepend_app a b r : prepend (a ++ b) r = prepend a (prepend b r).
Proof. destruct r; simpl; [rewrite app_assoc|]; reflexivity. Qed.

Lemma in_flight_run s tr s' :
  StreamInv s -> run projectUpdate s tr s' ->
  in_flight projectUpdate s = prepend (collectedFrames tr) (in_flight projectUpdate s').
Proof.
  intros Hinv Hrun. induction Hrun as [|s tr s' t ev s'' Hrun IH Hstep].
  - rewrite prepend_nil. reflexivity.
  - rewrite (IH Hinv), collectedFrames_app, prepend_app.
    rewrite (in_flight_step s' t ev s'' (StreamInv_run _ _ _ Hinv Hrun) Hstep). reflexivity.
Qed.
(** Once the caller has returned, every thread has come to rest. *)
Lemma step_Returned s t dst :
  StreamInv s -> caller s = Returned dst -> step projectUpdate t s = None.
Proof.
  intros Hinv Hcaller. unfold step. destruct (terminated s); [reflexivity|].
  destruct (inv_wired s Hinv) as (Hlen & _).
  pose proof (inv_awaited s Hinv) as Haw. unfold awaited in Haw. rewrite Hcaller in Haw.
  destruct t as [|i| |].
  - unfold caller_step. rewrite Hcaller. reflexivity.
  - unfold stage_step. destruct (processingStages s !! i) as [st|] eqn:Hst; [|reflexivity].
    rewrite (Haw i (pc st)); [reflexivity| |apply consumerPc_stage, Hst].
    apply lookup_lt_Some in Hst. lia.
  - unfold collection_step.
    rewrite (Haw (length (processingStages s)) (collectionPc (collectionStage s)));
      [reflexivity|lia|apply consumerPc_collection].
  - unfold racing_addItem. rewrite Hcaller. reflexivity.
Qed.

Lemma collectedOutput_step s t ev s' :
  step projectUpdate t s = Some (ev, s') ->
  collectedOutput (collectionStage s')
  = collectedOutput (collectionStage s) ++ concat (data <$> collectedFrames ev).
Proof.
  unfold step, caller_step, stage_step, collection_step, racing_addItem. intros Hstep.
  repeat case_match; simplify_eq; simpl; rewrite ?app_nil_r; reflexivity.
Qed.

Lemma collectedOutput_run s tr s' :
  run projectUpdate s tr s' ->
  collectedOutput (collectionStage s')
  = collectedOutput (collectionStage s) ++ concat (data <$> collectedFrames tr).
Proof.
  induction 1 as [|s tr s' t ev s'' Hrun IH Hstep]; simpl.
  - rewrite app_nil_r. reflexivity.
  - rewrite (collectedOutput_step _ _ _ _ Hstep), IH, collectedFrames_app, fmap_app,
      concat_app, app_assoc. reflexivity.
Qed.

Lemma step_to_Returned s t ev s' dst :
  StreamInv s -> step projectUpdate t s = Some (ev, s') -> caller s' = Returned dst ->
  dst = collectedOutput (collectionStage s') /\ terminated s' = None.
Proof.
  intros Hinv Hstep Hret.
  destruct (caller s) as [| |aFrame|i|i|dst0] eqn:Hcaller;
    try (rewrite (step_Returned s t dst0 Hinv Hcaller) in Hstep; discriminate);
    revert Hstep; unfold step, caller_step, stage_step, collection_step, racing_addItem;
    rewrite ?Hcaller;
    intros Hstep; repeat case_match; simplify_eq; simpl in *;
    try congruence; try (split; congruence).
Qed.

Lemma run_to_Returned s tr s' dst :
  StreamInv s -> (forall d, caller s <> Returned d) ->
  run projectUpdate s tr s' -> caller s' = Returned dst ->
  dst = collectedOutput (collectionStage s') /\ terminated s' = None.
Proof.
  intros Hinv Hne Hrun. revert dst.
  induction Hrun as [|s tr s' t ev s'' Hrun IH Hstep]; intros dst Hret.
  - destruct (Hne dst Hret).
  - eapply step_to_Returned; [|exact Hstep|exact Hret].
    eapply StreamInv_run; eassumption.
Qed.

(** When the caller returns nothing is left between the source and the
    collected output. *)
Lemma in_flight_Returned s dst :
  StreamInv s -> caller s = Returned dst -> in_flight projectUpdate s = Ok [].
Proof.
  intros Hinv Hcaller.
  destruct (inv_wired s Hinv) as (Hlen & _).
  pose proof (inv_awaited s Hinv) as Haw. unfold awaited in Haw. rewrite Hcaller in Haw.
  pose proof (inv_caller s Hinv) as Hup. rewrite Hcaller in Hup.
  assert (Hparked : forall i st, processingStages s !! i = Some st -> pc st = Parked).
  { intros i st Hst. apply (Haw i); [|apply consumerPc_stage, Hst].
    apply lookup_lt_Some in Hst. lia. }
  unfold in_flight. rewrite Hup.
  rewrite (Haw (length (processingStages s)) (collectionPc (collectionStage s)));
    [|lia|apply consumerPc_collection].
  rewrite through_parked; [reflexivity|exact Hlen|exact Hparked|].
  intros j b Hb.
  destruct (consumerPc_is_Some s j b) as [p Hp]; [apply (inv_wired s Hinv)|exact Hb|].
  assert (p = Parked) as -> by (apply (Haw j); [apply lookup_lt_Some in Hb; lia|exact Hp]).
  apply (inv_buffers s Hinv j b Parked Hb Hp). reflexivity.
Qed.

(** A state in which the caller has returned is ready for the next call. *)
Lemma quiescent_Returned s dst :
  StreamInv s -> caller s = Returned dst -> terminated s = None -> quiescent s.
Proof.
  intros Hinv Hcaller Hterm.
  destruct (inv_wired s Hinv) as (Hlen & _).
  pose proof (inv_awaited s Hinv) as Haw. unfold awaited in Haw. rewrite Hcaller in Haw.
  unfold quiescent. rewrite Hcaller.
  split; [apply (inv_wired s Hinv)|]. split; [exact Hterm|]. split; [exact I|].
  split; [|split; [|split; [|apply (inv_pool s Hinv)]]].
  - intros j b Hb.
    destruct (consumerPc_is_Some s j b) as [p Hp]; [apply (inv_wired s Hinv)|exact Hb|].
    assert (p = Parked) as -> by (apply (Haw j); [apply lookup_lt_Some in Hb; lia|exact Hp]).
    destruct (inv_buffers s Hinv j b Parked Hb Hp) as (_ & _ & Hidle & Hc).
    split; [apply Hidle; discriminate|apply Hc; reflexivity].
  - intros i st Hst. apply (Haw i); [|apply consumerPc_stage, Hst].
    apply lookup_lt_Some in Hst. lia.
  - apply (Haw (length (processingStages s))); [lia|apply consumerPc_collection].
Qed.
Variable VideoCapture : string -> option (list Mat).

Lemma DataSourceManager_open_true d input d' :
  DataSourceManager_open VideoCapture d input = (true, d') ->
  allFrames d' = allFrames d
  /\ exists source, actualSource d' = Some source
       /\ source = (if bool_decide (matrices input = [])
                    then VideoDataSource input (VideoCapture (name (file input))) 0
                    else TemplateDataSource input 0 0).
Proof.
  unfold DataSourceManager_open. destruct (ActualSource_isOpen _); [|discriminate].
  intros [= <-]. simpl. eauto.
Qed.

(** The state in which the caller starts to read: the invariant holds, and
    what is in flight is the whole pipeline applied to the frames of the
    source. *)
Lemma StreamInv_enter s input d :
  quiescent s ->
  DataSourceManager_open VideoCapture (dataSource (readStage s)) input = (true, d) ->
  let s1 := (projectUpdate_enter VideoCapture [input] s).2 in
  caller s1 = Reading
  /\ StreamInv s1
  /\ actualSource (dataSource (readStage s1)) = actualSource d
  /\ in_flight projectUpdate s1
     = run_all projectUpdate (transform <$> processingStages s) (upcoming s1)
  /\ collectedOutput (collectionStage s1) = collectedOutput (collectionStage s).
Proof.
  intros (Hwired & Hterm & _ & Hbuf & Hparked & Hcoll & Hpool) Hopen.
  destruct (DataSourceManager_open_true _ _ _ Hopen) as (Hframes & source & Hsource & _).
  destruct Hwired as (Hlen & Hread & Hcollect & Hlinks).
  unfold projectUpdate_enter. rewrite Hopen. cbn [snd].
  set (stages' := (fun st => {| stopped := false; inputBuffer := inputBuffer st;
                                outputBuffer := outputBuffer st; transform := transform st;
                                pc := Getting |}) <$> processingStages s).
  assert (Hstages : forall i st', stages' !! i = Some st' ->
            pc st' = Getting /\ stopped st' = false
            /\ exists st, processingStages s !! i = Some st
                          /\ inputBuffer st' = inputBuffer st
                          /\ outputBuffer st' = outputBuffer st).
  { intros i st' Hst'. unfold stages' in Hst'. rewrite list_lookup_fmap in Hst'.
    destruct (processingStages s !! i) as [st|]; [|discriminate].
    simpl in Hst'. injection Hst' as <-. simpl. eauto 10. }
  assert (Hbuffers : forall j b', (startInput <$> sharedBuffers s) !! j = Some b' ->
            sound b' /\ contents b' = [] /\ closed b' = false /\ idle b' = true).
  { intros j b' Hb'. rewrite list_lookup_fmap in Hb'.
    destruct (sharedBuffers s !! j) as [b|] eqn:Hb; [|discriminate].
    simpl in Hb'. injection Hb' as <-. destruct (Hbuf j b Hb) as [Hidle Hc].
    destruct (startInput_spec b Hidle) as (? & Hc' & ? & ?).
    rewrite Hc' , Hc. auto. }
  split; [reflexivity|]. split; [|split; [reflexivity|split; [|reflexivity]]].
  - constructor; simpl.
    + unfold wired; simpl. unfold stages'. rewrite !length_fmap.
      split; [exact Hlen|]. split; [exact Hread|]. split; [exact Hcollect|].
      intros i st' Hst'. destruct (Hstages i st' Hst') as (_ & _ & st & Hst & -> & ->).
      apply (Hlinks i st Hst).
    + left. exact Hterm.
    + rewrite Hframes. exact Hpool.
    + rewrite Hsource. eauto.
    + intros j b' p Hb' Hp.
      destruct (Hbuffers j b' Hb') as (Hs & Hc & Hcl & Hidle).
      assert (p = Getting) as ->.
      { unfold consumerPc in Hp. simpl in Hp.
        destruct (stages' !! j) as [st'|] eqn:Hst'.
        - destruct (Hstages j st' Hst') as (Hpc & _). congruence.
        - destruct (decide _); congruence. }
      split; [exact Hs|]. split; [congruence|]. split; [congruence|discriminate].
    + intros j p Hj. unfold awaited in Hj. simpl in Hj. lia.
    + split.
      * intros i st' Hst'. destruct (Hstages i st' Hst') as (-> & -> & _).
        split; discriminate.
      * split; discriminate.
  - unfold in_flight; simpl. fold stages'.
    rewrite through_started.
    + replace (transform <$> stages') with (transform <$> processingStages s).
      * destruct (run_all _ _ _); reflexivity.
      * unfold stages'. rewrite <- list_fmap_compose. reflexivity.
    + unfold stages'. rewrite !length_fmap. exact Hlen.
    + intros i st' Hst'. apply (Hstages i st' Hst').
    + intros j b' Hb'. apply (Hbuffers j b' Hb').
Qed.
(** A stage hands on one frame per frame, under the same number. *)
Lemma run_stage_sequence : forall frames t out,
  run_stage projectUpdate t frames = Ok out ->
  sequenceNumber <$> out = sequenceNumber <$> frames.
Proof.
  induction frames as [|f frames IH]; intros t out; simpl.
  - intros [= <-]. reflexivity.
  - destruct (projectUpdate t (data f)) as [[t' d]|]; [|discriminate].
    destruct (run_stage projectUpdate t' frames) as [out'|] eqn:Hrest; [|discriminate].
    intros [= <-]. simpl. f_equal. apply (IH t' out' Hrest).
Qed.

Lemma run_all_sequence : forall ts frames out,
  run_all projectUpdate ts frames = Ok out ->
  sequenceNumber <$> out = sequenceNumber <$> frames.
Proof.
  induction ts as [|t ts IH]; intros frames out; simpl.
  - intros [= <-]. reflexivity.
  - destruct (run_stage projectUpdate t frames) as [mid|] eqn:Hstage; [|discriminate].
    intros Hrest. rewrite (IH mid out Hrest). apply (run_stage_sequence frames t mid Hstage).
Qed.

Lemma remaining_sequence a :
  sequenceNumber <$> remaining a
  = match a with
    | VideoDataSource _ _ next_idx => (fun k => next_idx + Z.of_nat k)
    | TemplateDataSource _ _ next_sequence => (fun k => next_sequence + Z.of_nat k)
    end <$> seq 0 (length (remaining a)).
Proof.
  destruct a as [basis video next_idx|basis current_idx next_sequence]; simpl;
    rewrite length_imap; apply list_eq; intros k;
    rewrite !list_lookup_fmap, list_lookup_imap;
    match goal with |- context [?l !! k] => destruct (l !! k) eqn:Hk end; simpl.
  all: try (apply lookup_lt_Some in Hk as Hlt;
            rewrite (lookup_seq_lt 0 _ k Hlt); reflexivity).
  all: apply lookup_ge_None in Hk; rewrite lookup_seq_ge by lia; reflexivity.
Qed.

(** A stage that holds a frame on which its transform raises makes what is
    in flight raise. *)
Lemma through_throw stages : forall buffers i st x up,
  stages !! i = Some st -> pc st = Holding x ->
  projectUpdate (transform st) (data x) = Throw ->
  through projectUpdate stages buffers up = Throw.
Proof.
  induction stages as [|st0 stages IH]; intros [|b0 buffers] [|i] st x up Hi Hpc Hpu;
    simpl in *; try discriminate; try reflexivity.
  - injection Hi as ->. rewrite Hpc. simpl. rewrite Hpu. reflexivity.
  - destruct (run_stage projectUpdate _ _); [|reflexivity]. eapply IH; eassumption.
Qed.

Lemma step_Uncaught s t ev s' :
  step projectUpdate t s = Some (ev, s') -> terminated s' = Some Uncaught_exception ->
  in_flight projectUpdate s' = Throw.
Proof.
  unfold step. destruct (terminated s) eqn:Hterm; [discriminate|].
  destruct t as [|i| |]; unfold caller_step, stage_step, collection_step, racing_addItem;
    intros Hstep Hunc.
  - repeat case_match; simplify_eq; simpl in *; congruence.
  - destruct (processingStages s !! i) as [st|] eqn:Hst; [|discriminate].
    destruct (pc st) as [| |x] eqn:Hpc; [discriminate| |].
    + repeat case_match; simplify_eq; simpl in *; congruence.
    + destruct (projectUpdate (transform st) (data x)) as [[transform' data']|] eqn:Hpu.
      * repeat case_match; simplify_eq; simpl in *; congruence.
      * injection Hstep as <- <-. unfold in_flight. simpl.
        rewrite (through_throw _ _ i st x _ Hst Hpc Hpu). reflexivity.
  - repeat case_match; simplify_eq; simpl in *; congruence.
  - repeat case_match; simplify_eq; simpl in *; congruence.
Qed.

Lemma run_Uncaught s tr s' :
  terminated s = None -> run projectUpdate s tr s' ->
  terminated s' = Some Uncaught_exception -> in_flight projectUpdate s' = Throw.
Proof.
  intros Hterm Hrun. destruct Hrun as [|s tr s' t ev s'' Hrun Hstep].
  - congruence.
  - apply (step_Uncaught s' t ev s'' Hstep).
Qed.

(** With the workers parked and the caller outside [projectUpdate], no
    thread moves. *)
Lemma step_parked s t :
  match caller s with Idle | Returned _ => True | _ => False end ->
  (forall i st, processingStages s !! i = Some st -> pc st = Parked) ->
  collectionPc (collectionStage s) = Parked ->
  step projectUpdate t s = None.
Proof.
  intros Hcaller Hparked Hcoll. unfold step. destruct (terminated s); [reflexivity|].
  destruct t as [|i| |].
  - unfold caller_step. destruct (caller s); tauto.
  - unfold stage_step. destruct (processingStages s !! i) as [st|] eqn:Hst; [|reflexivity].
    rewrite (Hparked i st Hst). reflexivity.
  - unfold collection_step. rewrite Hcoll. reflexivity.
  - unfold racing_addItem. destruct (caller s); tauto.
Qed.

Lemma run_parked s tr s' :
  match caller s with Idle | Returned _ => True | _ => False end ->
  (forall i st, processingStages s !! i = Some st -> pc st = Parked) ->
  collectionPc (collectionStage s) = Parked ->
  run projectUpdate s tr s' -> tr = [] /\ s' = s.
Proof.
  intros Hcaller Hparked Hcoll Hrun.
  induction Hrun as [|s tr s' t ev s'' Hrun IH Hstep]; [split; reflexivity|].
  destruct (IH Hcaller Hparked Hcoll) as [-> ->].
  rewrite (step_parked s t Hcaller Hparked Hcoll) in Hstep. discriminate.
Qed.

Lemma run_step_left s t ev s' tr s'' :
  step projectUpdate t s = Some (ev, s') -> run projectUpdate s' tr s'' ->
  run projectUpdate s (ev ++ tr) s''.
Proof.
  intros Hstep Hrun. induction Hrun as [|s' tr s1 t' ev' s2 Hrun IH Hstep'].
  - rewrite app_nil_r. eapply (run_step projectUpdate s [] s t ev); [constructor|exact Hstep].
  - rewrite app_assoc. eapply run_step; [apply IH; exact Hstep|exact Hstep'].
Qed.

Lemma schedule_run threads : forall s,
  run projectUpdate s (schedule projectUpdate threads s).1 (schedule projectUpdate threads s).2.
Proof.
  induction threads as [|t threads IH]; intros s; simpl; [constructor|].
  destruct (step projectUpdate t s) as [[ev s']|] eqn:Hstep; [|apply IH].
  specialize (IH s'). destruct (schedule projectUpdate threads s') as [tr s'']. simpl in *.
  eapply run_step_left; eassumption.
Qed.

(** [init] leaves a stream that is ready to run, whatever the flags that no
    constructor sets happen to hold. *)
Lemma StreamTransform_init_quiescent (transforms : list T) garbage :
  quiescent (StreamTransform_init transforms garbage).
Proof.
  unfold quiescent, StreamTransform_init, wired; cbn [sharedBuffers processingStages
    readStage collectionStage caller terminated readOutputBuffer collectionInputBuffer
    collectionPc dataSource].
  rewrite length_fmap, length_seq, length_imap.
  split; [|split; [reflexivity|split; [exact I|]]].
  - split; [reflexivity|]. split; [reflexivity|]. split; [reflexivity|].
    intros i st Hst. rewrite list_lookup_imap in Hst.
    destruct (transforms !! i); [|discriminate]. simpl in Hst. injection Hst as <-.
    split; reflexivity.
  - split; [|split; [|split; [reflexivity|split; [exact I|reflexivity]]]].
    + intros j b Hb. rewrite list_lookup_fmap in Hb.
      destruct (seq 0 (S (length transforms)) !! j); [|discriminate].
      simpl in Hb. injection Hb as <-. split; reflexivity.
    + intros i st Hst. rewrite list_lookup_imap in Hst.
      destruct (transforms !! i); [|discriminate]. simpl in Hst. injection Hst as <-.
      reflexivity.
Qed.
Lemma upcoming_enter s input d :
  DataSourceManager_open VideoCapture (dataSource (readStage s)) input = (true, d) ->
  upcoming (projectUpdate_enter VideoCapture [input] s).2 = emitted VideoCapture input
  /\ terminated (projectUpdate_enter VideoCapture [input] s).2 = terminated s.
Proof.
  intros Hopen. destruct (DataSourceManager_open_true _ _ _ Hopen) as (_ & source & Hs & ->).
  unfold projectUpdate_enter, upcoming. rewrite Hopen. simpl. rewrite Hs. split; reflexivity.
Qed.

Lemma emitted_sequence input :
  sequenceNumber <$> emitted VideoCapture input
  = Z.of_nat <$> seq 0 (length (emitted VideoCapture input)).
Proof.
  unfold emitted. rewrite remaining_sequence. destruct (bool_decide _); reflexivity.
Qed.

(** What a call that returns has done, from a stream at rest. *)
Lemma projectUpdate_returns s input d tr s' dst :
  quiescent s ->
  DataSourceManager_open VideoCapture (dataSource (readStage s)) input = (true, d) ->
  run projectUpdate (projectUpdate_enter VideoCapture [input] s).2 tr s' ->
  caller s' = Returned dst ->
  run_all projectUpdate (transform <$> processingStages s) (emitted VideoCapture input)
  = Ok (collectedFrames tr)
  /\ dst = collectedOutput (collectionStage s) ++ concat (data <$> collectedFrames tr)
  /\ collectedOutput (collectionStage s') = dst
  /\ StreamInv s' /\ terminated s' = None.
Proof.
  intros Hq Hopen Hrun Hret.
  destruct (StreamInv_enter s input d Hq Hopen) as (Hc1 & Hinv1 & _ & Hfl & Hco).
  destruct (upcoming_enter s input d Hopen) as [Hup _].
  cbv zeta in *. set (s1 := (projectUpdate_enter VideoCapture [input] s).2) in *.
  pose proof (StreamInv_run s1 tr s' Hinv1 Hrun) as Hinv'.
  destruct (run_to_Returned s1 tr s' dst Hinv1) as [Hdst Hterm];
    [intros d0; rewrite Hc1; discriminate|exact Hrun|exact Hret|].
  pose proof (in_flight_run s1 tr s' Hinv1 Hrun) as Hflight.
  rewrite (in_flight_Returned s' dst Hinv' Hret), Hfl, Hup in Hflight. simpl in Hflight.
  rewrite app_nil_r in Hflight.
  split; [exact Hflight|]. split; [|split; [congruence|split; assumption]].
  rewrite Hdst, (collectedOutput_run s1 tr s' Hrun), Hco. reflexivity.
Qed.

(** X1. A call of [StreamTransform::projectUpdate] that returns, on a stream
    at rest whose source opens: the collection stage has received one frame
    per frame of the source, in the order of the source, numbered 0, 1, ...,
    each one passed through the transforms of the stages in order (every
    stage seeing the frames in order, with the state left by the frame
    before); the result is what [collectedOutput] held before the call
    followed by the templates of these frames, and the stream is at rest
    again. *)
Theorem StreamTransform_projectUpdate_collects s input d tr s' dst :
  quiescent s ->
  DataSourceManager_open VideoCapture (dataSource (readStage s)) input = (true, d) ->
  run projectUpdate (projectUpdate_enter VideoCapture [input] s).2 tr s' ->
  caller s' = Returned dst ->
  exists out,
    run_all projectUpdate (transform <$> processingStages s) (emitted VideoCapture input)
    = Ok out
    /\ collectedFrames tr = out
    /\ sequenceNumber <$> out = Z.of_nat <$> seq 0 (length (emitted VideoCapture input))
    /\ dst = collectedOutput (collectionStage s) ++ concat (data <$> out)
    /\ quiescent s'.
Proof.
  intros Hq Hopen Hrun Hret.
  destruct (projectUpdate_returns s input d tr s' dst Hq Hopen Hrun Hret)
    as (Hall & Hdst & _ & Hinv' & Hterm).
  exists (collectedFrames tr). split; [exact Hall|]. split; [reflexivity|].
  split; [|split; [exact Hdst|exact (quiescent_Returned s' dst Hinv' Hret Hterm)]].
  rewrite (run_all_sequence _ _ _ Hall). apply emitted_sequence.
Qed.

(** X2. Nothing in a stage worker catches what its transform raises: a run
    dies of an uncaught exception only when the pipeline, applied in
    sequence to the frames of the source, raises, and then no thread moves
    any more; and when the pipeline raises on the frames of the source, no
    run ever returns to the caller. *)
Theorem ProcessingStage_run_exception s input d tr s' :
  quiescent s ->
  DataSourceManager_open VideoCapture (dataSource (readStage s)) input = (true, d) ->
  run projectUpdate (projectUpdate_enter VideoCapture [input] s).2 tr s' ->
  (terminated s' = Some Uncaught_exception ->
     run_all projectUpdate (transform <$> processingStages s) (emitted VideoCapture input)
     = Throw
     /\ forall t, step projectUpdate t s' = None)
  /\ (run_all projectUpdate (transform <$> processingStages s) (emitted VideoCapture input)
      = Throw ->
      forall dst, caller s' <> Returned dst).
Proof.
  intros Hq Hopen Hrun.
  destruct (StreamInv_enter s input d Hq Hopen) as (Hc1 & Hinv1 & _ & Hfl & _).
  destruct (upcoming_enter s input d Hopen) as [Hup Hterm1].
  cbv zeta in *. set (s1 := (projectUpdate_enter VideoCapture [input] s).2) in *.
  pose proof (in_flight_run s1 tr s' Hinv1 Hrun) as Hflight.
  rewrite Hfl, Hup in Hflight.
  split.
  - intros Hunc. split.
    + rewrite Hflight, (run_Uncaught s1 tr s'); [reflexivity| |exact Hrun|exact Hunc].
      rewrite Hterm1. apply Hq.
    + intros t. unfold step. rewrite Hunc. reflexivity.
  - intros Hthrow dst Hret.
    rewrite (in_flight_Returned s' dst (StreamInv_run s1 tr s' Hinv1 Hrun) Hret) in Hflight.
    rewrite Hthrow in Hflight. discriminate.
Qed.

Lemma step_Data_race s t ev s' :
  step projectUpdate t s = Some (ev, s') -> terminated s' = Some Data_race ->
  exists aFrame frame source,
    caller s' = Filling aFrame
    /\ collectionPc (collectionStage s') = Holding frame
    /\ actualSource (dataSource (readStage s')) = Some source
    /\ (ActualSource_getNext source {| sequenceNumber := -1; data := [] |}).1.1 = false.
Proof.
  unfold step. destruct (terminated s) eqn:Hterm; [discriminate|].
  destruct t as [|i| |]; unfold caller_step, stage_step, collection_step, racing_addItem;
    intros Hstep Hrace.
  - repeat case_match; simplify_eq; simpl in *; congruence.
  - repeat case_match; simplify_eq; simpl in *; congruence.
  - repeat case_match; simplify_eq; simpl in *; congruence.
  - repeat case_match; simplify_eq; simpl in *. eauto 10.
Qed.

(** X3. No run hands a null frame from the pool to [getFrame], takes the
    first item of an empty list in [getItem], or reaches for a buffer or a
    source that is not there.  The one invalid access that a run can make is
    the race on the frame pool: a run ends in it only from a state in which
    the caller holds the unused frame at the end of the source and the
    collection thread holds a frame, so that both are about to call
    [allFrames.addItem], which takes the lock for reading only. *)
Theorem StreamTransform_run_safe s input d tr s' :
  quiescent s ->
  DataSourceManager_open VideoCapture (dataSource (readStage s)) input = (true, d) ->
  run projectUpdate (projectUpdate_enter VideoCapture [input] s).2 tr s' ->
  terminated s' <> Some Invalid_access
  /\ (terminated s' = Some Data_race ->
      exists aFrame frame source,
        caller s' = Filling aFrame
        /\ collectionPc (collectionStage s') = Holding frame
        /\ actualSource (dataSource (readStage s')) = Some source
        /\ (ActualSource_getNext source {| sequenceNumber := -1; data := [] |}).1.1 = false).
Proof.
  intros Hq Hopen Hrun.
  destruct (StreamInv_enter s input d Hq Hopen) as (_ & Hinv1 & _).
  destruct (upcoming_enter s input d Hopen) as [_ Hterm1].
  split.
  - destruct (inv_terminated s' (StreamInv_run _ tr s' Hinv1 Hrun)) as [H|[H|H]];
      rewrite H; discriminate.
  - intros Hrace. cbv zeta in *.
    destruct Hrun as [s1|s1 tr s' t ev s'' Hrun Hstep].
    + rewrite Hterm1 in Hrace. destruct Hq as (_ & Hterm & _). congruence.
    + apply (step_Data_race s' t ev s'' Hstep Hrace).
Qed.
Lemma drainFrom_stage : forall k i j, (j < k)%nat ->
  drainFrom i k !! (2 * j)%nat = Some (StoppedInput (i + j))
  /\ drainFrom i k !! S (2 * j) = Some (MarkedStop (StageThread (i + j))).
Proof.
  induction k as [|k IH]; intros i j Hj; [lia|].
  destruct j as [|j].
  - simpl. rewrite Nat.add_0_r. split; reflexivity.
  - replace (2 * S j)%nat with (S (S (2 * j))) by lia. simpl.
    replace (i + S j)%nat with (S i + j)%nat by lia. apply IH. lia.
Qed.

Lemma drainFrom_last : forall k i,
  drainFrom i k !! (2 * k)%nat = Some (StoppedInput (i + k))
  /\ drainFrom i k !! S (2 * k) = Some (MarkedStop CollectionThread).
Proof.
  induction k as [|k IH]; intros i.
  - simpl. rewrite Nat.add_0_r. split; reflexivity.
  - replace (2 * S k)%nat with (S (S (2 * k))) by lia. simpl.
    replace (i + S k)%nat with (S i + k)%nat by lia. apply IH.
Qed.

Lemma drainFrom_length : forall k i, length (drainFrom i k) = (2 + 2 * k)%nat.
Proof. induction k as [|k IH]; intros i; simpl; [reflexivity|]. rewrite IH. lia. Qed.

Lemma drainWave_stopped n i : (i <= n)%nat ->
  drainWave n !! (1 + 2 * i)%nat = Some (StoppedInput i).
Proof.
  intros Hi. unfold drainWave. change (1 + 2 * i)%nat with (S (2 * i)).
  rewrite lookup_cons. destruct (decide (i = n)) as [->|Hne].
  - apply (drainFrom_last n 0).
  - apply (drainFrom_stage n 0 i). lia.
Qed.

Lemma drainWave_marked n i : (i <= n)%nat ->
  drainWave n !! (2 + 2 * i)%nat
  = Some (MarkedStop (if decide (i = n) then CollectionThread else StageThread i)).
Proof.
  intros Hi. unfold drainWave. change (2 + 2 * i)%nat with (S (S (2 * i))).
  rewrite lookup_cons. destruct (decide (i = n)) as [->|Hne].
  - apply (drainFrom_last n 0).
  - apply (drainFrom_stage n 0 i). lia.
Qed.

Local Abbreviation drain_ok s ev s' :=
  (length (processingStages s') = length (processingStages s)
   /\ ((drainEvents ev = [] /\ drained s' = drained s)
       \/ exists e, drainEvents ev = [e] /\ drained s' = S (drained s)
                    /\ drainWave (length (processingStages s)) !! drained s = Some e)).

Lemma drain_caller_step s ev s' :
  StreamInv s -> caller_step s = Some (ev, s') -> drain_ok s ev s'.
Proof.
  intros Hinv Hstep. unfold caller_step in Hstep.
  destruct (inv_wired s Hinv) as (Hlen & Hread & _).
  destruct (caller s) as [| |aFrame|i|i|dst] eqn:Hcaller; try discriminate.
  - destruct (DoubleBuffer.getItem (allFrames (dataSource (readStage s))))
      as [|pool|[f|] pool|]; try discriminate; injection Hstep as <- <-;
      (split; [reflexivity|left; split; [reflexivity|]]);
      unfold drained; simpl; rewrite ?Hcaller; reflexivity.
  - destruct (actualSource (dataSource (readStage s))) as [source|];
      [|injection Hstep as <- <-; split; [reflexivity|left; split; reflexivity]].
    destruct (ActualSource_getNext source {| sequenceNumber := -1; data := [] |})
      as [[res frame] source'].
    destruct res.
    + destruct (sharedBuffers s !! readOutputBuffer (readStage s));
        injection Hstep as <- <-; (split; [reflexivity|left; split; [reflexivity|]]);
        unfold drained; simpl; rewrite ?Hcaller; reflexivity.
    + injection Hstep as <- <-. split; [reflexivity|right].
      exists (MarkedStop MainThread). unfold drained; simpl. rewrite Hcaller.
      split; [reflexivity|split; reflexivity].
  - pose proof (inv_caller s Hinv) as Hc. rewrite Hcaller in Hc. destruct Hc as [Hi _].
    destruct (sharedBuffers s !! i) as [b|] eqn:Hb;
      [|apply lookup_ge_None in Hb; lia].
    injection Hstep as <- <-. split; [reflexivity|right].
    exists (StoppedInput i). split; [reflexivity|].
    destruct (consumerPc_is_Some s i b (inv_wired s Hinv) Hb) as [p Hp].
    destruct (inv_buffers s Hinv i b p Hb Hp) as (_ & Hcl & _ & Hpk).
    assert (Hnp : p <> Parked).
    { intros ->. destruct (Hpk eq_refl) as [_ Hclosed]. specialize (Hcl Hclosed).
      unfold stoppedBuffers in Hcl. rewrite Hcaller in Hcl. lia. }
    unfold drained; simpl. rewrite Hcaller.
    change (consumerPc (with_caller (with_buffers s _) _) i) with (consumerPc s i).
    rewrite Hp. split; [destruct p; try lia; congruence|].
    apply drainWave_stopped. lia.
  - pose proof (inv_caller s Hinv) as Hc. rewrite Hcaller in Hc. destruct Hc as [Hi _].
    destruct (inv_stopped s Hinv) as [Hst Hcs].
    destruct (S i <? length (sharedBuffers s))%nat eqn:Hlt.
    + apply Nat.ltb_lt in Hlt.
      destruct (processingStages s !! i) as [st|] eqn:Hsti;
        [|injection Hstep as <- <-; split; [reflexivity|left; split; reflexivity]].
      destruct (stopped st) eqn:Hstopped; [|discriminate].
      injection Hstep as <- <-. split; [reflexivity|left; split; [reflexivity|]].
      unfold drained; simpl. rewrite Hcaller, (consumerPc_stage s i st Hsti).
      rewrite (proj1 (Hst i st Hsti) Hstopped). lia.
    + apply Nat.ltb_ge in Hlt.
      destruct (collectionStopped (collectionStage s)) eqn:Hstopped; [|discriminate].
      injection Hstep as <- <-. split; [reflexivity|left; split; [reflexivity|]].
      assert (i = length (processingStages s)) as -> by lia.
      unfold drained; simpl. rewrite Hcaller, consumerPc_collection.
      rewrite (proj1 Hcs eq_refl). lia.
Qed.
Lemma drained_stage s bs i st st' :
  processingStages s !! i = Some st -> pc st <> Parked -> pc st' <> Parked ->
  drained (with_stages (with_buffers s bs) (<[i := st']> (processingStages s))) = drained s.
Proof.
  intros Hi Hp Hp'. unfold drained. simpl. rewrite length_insert.
  destruct (caller s) as [| | |k|k|]; try reflexivity.
  pose proof (consumerPc_insert (with_buffers s bs) i st st' k Hi) as Hc.
  change (consumerPc (with_buffers s bs) k) with (consumerPc s k) in Hc.
  simpl in Hc. rewrite Hc.
  destruct (decide (i = k)) as [->|Hne]; [|reflexivity].
  rewrite (consumerPc_stage s k st Hi).
  destruct (pc st), (pc st'); congruence.
Qed.

Lemma drain_stage_step s i ev s' :
  StreamInv s -> stage_step projectUpdate i s = Some (ev, s') -> drain_ok s ev s'.
Proof.
  intros Hinv Hstep. unfold stage_step in Hstep.
  destruct (processingStages s !! i) as [st|] eqn:Hsti; [|discriminate].
  destruct (inv_wired s Hinv) as (Hlen & _ & _ & Hlinks).
  destruct (Hlinks i st Hsti) as [Hin Hout].
  pose proof (consumerPc_stage s i st Hsti) as Hpci.
  apply lookup_lt_Some in Hsti as Hilt.
  destruct (pc st) as [| |x] eqn:Hpc; [discriminate| |].
  - destruct (sharedBuffers s !! inputBuffer st) as [b|] eqn:Hbi;
      [|injection Hstep as <- <-; split; [reflexivity|left; split; reflexivity]].
    rewrite Hin in Hbi.
    destruct (inv_buffers s Hinv i b Getting Hbi Hpci) as (Hs & Hcl & _).
    pose proof (getItem_spec b Hs) as Hg.
    destruct (getItem b) as [|b'|[item|] b'|]; try discriminate; injection Hstep as <- <-.
    + split; [reflexivity|left; split; reflexivity].
    + split; [apply length_insert|left; split; [reflexivity|]].
      apply (drained_stage s _ i st); [exact Hsti|congruence|discriminate].
    + split; [apply length_insert|right].
      exists (MarkedStop (StageThread i)). split; [reflexivity|].
      destruct Hg as (_ & _ & _ & Hclosed & _). specialize (Hcl Hclosed).
      pose proof (inv_awaited s Hinv i Getting) as Haw.
      assert (Hna : ~ (i < awaited s)%nat).
      { intros Hlt. specialize (Haw Hlt Hpci). discriminate. }
      unfold stoppedBuffers in Hcl. unfold awaited in Hna. unfold drained. simpl.
      destruct (caller s) as [| | |k|k|] eqn:Hcaller; try lia.
      assert (k = i) as -> by lia.
      match goal with |- context [consumerPc (with_stages (with_buffers s ?bs) (<[i := ?st']> _)) i] =>
        pose proof (consumerPc_insert (with_buffers s bs) i st st' i Hsti) as Hc
      end.
      rewrite decide_True in Hc by reflexivity. simpl in Hc. rewrite Hc, Hpci.
      split; [lia|].
      match goal with |- _ !! ?n = _ => replace n with (2 + 2 * i)%nat by lia end.
      rewrite drainWave_marked by lia. rewrite decide_False by lia. reflexivity.
    + split; [reflexivity|left; split; reflexivity].
  - destruct (projectUpdate (transform st) (data x)) as [[transform' data']|];
      [|injection Hstep as <- <-; split; [reflexivity|left; split; reflexivity]].
    destruct (sharedBuffers s !! outputBuffer st) as [b|];
      injection Hstep as <- <-; [|split; [reflexivity|left; split; reflexivity]].
    split; [apply length_insert|left; split; [reflexivity|]].
    apply (drained_stage s _ i st); [exact Hsti|congruence|discriminate].
Qed.

Lemma drained_collection s bs c :
  collectionPc (collectionStage s) <> Parked -> collectionPc c <> Parked ->
  drained (with_collection (with_buffers s bs) c) = drained s.
Proof.
  intros Hp Hp'. unfold drained. simpl.
  destruct (caller s) as [| | |k|k|]; try reflexivity.
  pose proof (consumerPc_with_collection (with_buffers s bs) c k) as Hc.
  change (consumerPc (with_buffers s bs) k) with (consumerPc s k) in Hc.
  simpl in Hc. rewrite Hc.
  destruct (decide _) as [->|Hne]; [|reflexivity].
  rewrite consumerPc_collection.
  destruct (collectionPc (collectionStage s)), (collectionPc c); congruence.
Qed.

Lemma drain_collection_step s ev s' :
  StreamInv s -> collection_step s = Some (ev, s') -> drain_ok s ev s'.
Proof.
  intros Hinv Hstep. unfold collection_step in Hstep.
  destruct (inv_wired s Hinv) as (Hlen & _ & Hcoll & _).
  pose proof (consumerPc_collection s) as Hpcn.
  destruct (collectionPc (collectionStage s)) as [| |frame] eqn:Hpc; [discriminate| |].
  - rewrite Hcoll in Hstep.
    destruct (sharedBuffers s !! length (processingStages s)) as [b|] eqn:Hbn;
      [|injection Hstep as <- <-; split; [reflexivity|left; split; reflexivity]].
    destruct (inv_buffers s Hinv _ b Getting Hbn Hpcn) as (Hs & Hcl & _).
    pose proof (getItem_spec b Hs) as Hg.
    destruct (getItem b) as [|b'|[item|] b'|]; try discriminate; injection Hstep as <- <-.
    + split; [reflexivity|left; split; reflexivity].
    + split; [reflexivity|left; split; [reflexivity|]].
      apply drained_collection; [congruence|discriminate].
    + split; [reflexivity|right].
      exists (MarkedStop CollectionThread). split; [reflexivity|].
      destruct Hg as (_ & _ & _ & Hclosed & _). specialize (Hcl Hclosed).
      pose proof (inv_awaited s Hinv (length (processingStages s)) Getting) as Haw.
      assert (Hna : ~ (length (processingStages s) < awaited s)%nat).
      { intros Hlt. specialize (Haw Hlt Hpcn). discriminate. }
      unfold stoppedBuffers in Hcl. unfold awaited in Hna. unfold drained. simpl.
      destruct (caller s) as [| | |k|k|] eqn:Hcaller; try lia.
      assert (k = length (processingStages s)) as -> by lia.
      match goal with |- context [consumerPc (with_collection (with_buffers s ?bs) ?c) _] =>
        pose proof (consumerPc_with_collection (with_buffers s bs) c
                      (length (processingStages s))) as Hc
      end.
      simpl in Hc. rewrite decide_True in Hc by reflexivity. rewrite Hc, Hpcn.
      split; [lia|].
      match goal with |- _ !! ?n = _ =>
        replace n with (2 + 2 * length (processingStages s))%nat by lia
      end.
      rewrite drainWave_marked by lia. rewrite decide_True by reflexivity. reflexivity.
    + split; [reflexivity|left; split; reflexivity].
  - injection Hstep as <- <-. split; [reflexivity|left; split; [reflexivity|]].
    unfold with_pool, with_dataSource.
    match goal with |- drained ?s1 = _ =>
      change (drained s1)
        with (drained (with_collection (with_buffers
                (with_dataSource s
                   {| allFrames := DoubleBuffer.addItem frame
                                     (allFrames (dataSource (readStage s)));
                      actualSource := actualSource (dataSource (readStage s)) |})
                (sharedBuffers s))
                {| collectionStopped := collectionStopped (collectionStage s);
                   collectionInputBuffer := collectionInputBuffer (collectionStage s);
                   collectedOutput := collectedOutput (collectionStage s) ++ data frame;
                   collectionPc := Getting |}))
    end.
    rewrite drained_collection; [reflexivity|simpl; congruence|discriminate].
Qed.

Lemma drain_step s t ev s' :
  StreamInv s -> step projectUpdate t s = Some (ev, s') -> drain_ok s ev s'.
Proof.
  intros Hinv Hstep. unfold step in Hstep. destruct (terminated s); [discriminate|].
  destruct t.
  - apply drain_caller_step; assumption.
  - eapply drain_stage_step; eassumption.
  - apply drain_collection_step; assumption.
  - apply racing_addItem_Some in Hstep as [-> ->].
    split; [reflexivity|left; split; reflexivity].
Qed.

Lemma drainEvents_app tr1 tr2 : drainEvents (tr1 ++ tr2) = drainEvents tr1 ++ drainEvents tr2.
Proof. apply omap_app. Qed.

Lemma drain_run s tr s' :
  StreamInv s -> drained s = 0%nat -> run projectUpdate s tr s' ->
  length (processingStages s') = length (processingStages s)
  /\ drainEvents tr = take (drained s') (drainWave (length (processingStages s))).
Proof.
  intros Hinv H0 Hrun. induction Hrun as [|s tr s' t ev s'' Hrun IH Hstep].
  - rewrite H0. split; reflexivity.
  - destruct (IH Hinv H0) as [Hlen Htr].
    destruct (drain_step s' t ev s'' (StreamInv_run s tr s' Hinv Hrun) Hstep)
      as [Hlen' [[Hev Hd]|(e & Hev & Hd & He)]];
      (split; [congruence|]); rewrite drainEvents_app, Hev, Htr, Hd.
    + apply app_nil_r.
    + rewrite Hlen in He. symmetry. apply take_S_r. exact He.
Qed.
(** X4. A run winds down as one wave, in the order of the pipeline: the
    read stage marks itself stopped; then, buffer after buffer, the caller
    stops the input of the buffer and the stage that consumes it marks
    itself stopped, before the next buffer is touched; the collection stage
    comes last.  No worker stops a buffer.  A call that has returned has
    gone through the whole wave. *)
Theorem StreamTransform_drains_in_order s input d tr s' :
  quiescent s ->
  DataSourceManager_open VideoCapture (dataSource (readStage s)) input = (true, d) ->
  run projectUpdate (projectUpdate_enter VideoCapture [input] s).2 tr s' ->
  drainEvents tr `prefix_of` drainWave (length (processingStages s))
  /\ (forall dst, caller s' = Returned dst ->
        drainEvents tr = drainWave (length (processingStages s))).
Proof.
  intros Hq Hopen Hrun.
  destruct (StreamInv_enter s input d Hq Hopen) as (Hc1 & Hinv1 & _).
  cbv zeta in *. set (s1 := (projectUpdate_enter VideoCapture [input] s).2) in *.
  assert (Hlen1 : length (processingStages s1) = length (processingStages s)).
  { unfold s1, projectUpdate_enter. rewrite Hopen. simpl. apply length_fmap. }
  destruct (drain_run s1 tr s' Hinv1) as [Hlen Htr];
    [unfold drained; rewrite Hc1; reflexivity|exact Hrun|].
  rewrite Hlen1 in Hlen, Htr. rewrite Htr. split; [apply prefix_take|].
  intros dst Hret. apply take_ge. unfold drained. rewrite Hret, Hlen.
  unfold drainWave. simpl. rewrite drainFrom_length. lia.
Qed.

Lemma step_no_Aborted s t ev s' msg :
  step projectUpdate t s = Some (ev, s') -> Aborted msg ∉ ev.
Proof.
  unfold step, caller_step, stage_step, collection_step, racing_addItem. intros Hstep Hin.
  repeat case_match; simplify_eq; simpl in *;
    repeat match goal with
           | H : _ ∈ [] |- _ => apply elem_of_nil in H; destruct H
           | H : _ ∈ _ :: _ |- _ => apply elem_of_cons in H as [H|H]; try discriminate
           end.
Qed.

Lemma run_no_Aborted s tr s' msg :
  run projectUpdate s tr s' -> Aborted msg ∉ tr.
Proof.
  induction 1 as [|s tr s' t ev s'' Hrun IH Hstep]; [apply not_elem_of_nil|].
  rewrite elem_of_app. intros [Hin|Hin]; [exact (IH Hin)|].
  exact (step_no_Aborted _ _ _ _ msg Hstep Hin).
Qed.

Lemma run_terminated s tr s' why :
  terminated s = Some why -> run projectUpdate s tr s' -> tr = [] /\ s' = s.
Proof.
  intros Hterm Hrun. induction Hrun as [|s tr s' t ev s'' Hrun IH Hstep]; [auto|].
  destruct (IH Hterm) as [-> ->]. unfold step in Hstep. rewrite Hterm in Hstep. discriminate.
Qed.

(** X5. [StreamTransform::projectUpdate] wants exactly one template.  With
    any other number the process aborts through [qFatal] at once: no source
    is opened, no buffer is restarted, no stage is started and no thread
    moves afterwards.  With one template, that message is never written and
    no run dies of [qFatal]. *)
Theorem StreamTransform_projectUpdate_input_size s src tr s' :
  quiescent s ->
  run projectUpdate (projectUpdate_enter VideoCapture src s).2 tr s' ->
  if decide (length src = 1%nat)
  then (forall msg, terminated s' <> Some (qFatal msg))
       /\ (forall msg, Aborted msg ∉ (projectUpdate_enter VideoCapture src s).1 ++ tr)
  else (projectUpdate_enter VideoCapture src s).1
       = [Aborted "Expected single template input to stream"]
       /\ tr = []
       /\ s' = terminate s (qFatal "Expected single template input to stream").
Proof.
  intros Hq Hrun.
  destruct src as [|input [|second src]]; simpl in *.
  - destruct (run_terminated (terminate s _) tr s' _ eq_refl Hrun) as [-> ->]. auto.
  - destruct (DataSourceManager_open VideoCapture (dataSource (readStage s)) input)
      as [[|] d] eqn:Hopen.
    + destruct (StreamInv_enter s input d Hq Hopen) as (_ & Hinv1 & _).
      cbv zeta in Hinv1. unfold projectUpdate_enter in Hinv1. rewrite Hopen in Hinv1.
      split.
      * intros msg.
        destruct (inv_terminated s' (StreamInv_run _ tr s' Hinv1 Hrun)) as [H|[H|H]];
          rewrite H; discriminate.
      * intros msg [Hin|Hin]%elem_of_app; [|exact (run_no_Aborted _ _ _ msg Hrun Hin)].
        apply elem_of_app in Hin as [Hin|Hin].
        -- apply list_elem_of_fmap in Hin as (i & Hi & _). discriminate.
        -- apply elem_of_cons in Hin as [Hin|Hin]; [discriminate|].
           apply elem_of_nil in Hin. destruct Hin.
    + destruct Hq as (_ & Hterm & _ & _ & Hparked & Hcoll & _).
      destruct (run_parked (with_caller (with_dataSource s d) (Returned [input])) tr s'
                  I Hparked Hcoll Hrun) as [-> ->]. simpl.
      split.
      * intros msg. rewrite Hterm. discriminate.
      * intros msg Hin. simpl in Hin.
        apply elem_of_cons in Hin as [Hin|Hin]; [discriminate|].
        apply elem_of_nil in Hin. destruct Hin.
  - destruct (run_terminated (terminate s _) tr s' _ eq_refl Hrun) as [-> ->]. auto.
Qed.

(** X6. A template without matrices whose file cannot be opened as a video
    is not streamed: [projectUpdate] writes the warning and returns its
    input as the result, [dst = src]; no buffer is restarted, no stage is
    started, the collected output is untouched and no thread moves. *)
Theorem StreamTransform_projectUpdate_open_failure s input :
  quiescent s ->
  matrices input = [] ->
  VideoCapture (name (file input)) = None ->
  let s1 := (projectUpdate_enter VideoCapture [input] s).2 in
  (projectUpdate_enter VideoCapture [input] s).1
  = [Logged (Failed_to_stream (name (file input)))]
  /\ caller s1 = Returned [input]
  /\ sharedBuffers s1 = sharedBuffers s
  /\ processingStages s1 = processingStages s
  /\ collectionStage s1 = collectionStage s
  /\ terminated s1 = None
  /\ DataSourceManager_isOpen (dataSource (readStage s1)) = false
  /\ forall tr s', run projectUpdate s1 tr s' -> tr = [] /\ s' = s1.
Proof.
  intros Hq Hm Hv. cbv zeta.
  unfold projectUpdate_enter, DataSourceManager_open. rewrite Hm, Hv. simpl.
  destruct Hq as (_ & Hterm & _ & _ & Hparked & Hcoll & _).
  repeat (split; [first [reflexivity|exact Hterm]|]).
  intros tr s' Hrun.
  apply (run_parked (with_caller (with_dataSource s _) (Returned [input])) tr s'
           I Hparked Hcoll Hrun).
Qed.

(** X7. When [projectUpdate] returns, every stage has left its [run] and
    marked itself stopped, the collection stage included; every buffer is
    empty, with its input stopped and nobody inside [getItem]; and no thread
    moves any more. *)
Theorem StreamTransform_projectUpdate_joins s input d tr s' dst :
  quiescent s ->
  DataSourceManager_open VideoCapture (dataSource (readStage s)) input = (true, d) ->
  run projectUpdate (projectUpdate_enter VideoCapture [input] s).2 tr s' ->
  caller s' = Returned dst ->
  (forall i st, processingStages s' !! i = Some st -> stopped st = true /\ pc st = Parked)
  /\ collectionStopped (collectionStage s') = true
  /\ (forall j b, sharedBuffers s' !! j = Some b ->
        contents b = [] /\ closed b = true /\ idle b = true)
  /\ forall t, step projectUpdate t s' = None.
Proof.
  intros Hq Hopen Hrun Hret.
  destruct (projectUpdate_returns s input d tr s' dst Hq Hopen Hrun Hret)
    as (_ & _ & _ & Hinv' & Hterm).
  destruct (quiescent_Returned s' dst Hinv' Hret Hterm)
    as (Hw & _ & _ & _ & Hparked & Hcoll & _).
  destruct (inv_stopped s' Hinv') as [Hst Hcs].
  split; [|split; [|split]].
  - intros i st Hi. split; [apply (Hst i st Hi)|]; apply (Hparked i st Hi).
  - apply Hcs, Hcoll.
  - intros j b Hb. destruct (consumerPc_is_Some s' j b Hw Hb) as [p Hp].
    assert (p = Parked) as ->.
    { apply (inv_awaited s' Hinv' j); [|exact Hp]. unfold awaited. rewrite Hret.
      apply lookup_lt_Some in Hb. exact Hb. }
    destruct (inv_buffers s' Hinv' j b Parked Hb Hp) as (_ & _ & Hidle & Hc).
    destruct (Hc eq_refl) as [Hcont Hclosed].
    split; [exact Hcont|]. split; [exact Hclosed|]. apply Hidle. discriminate.
  - intros t. apply (step_Returned s' t dst Hinv' Hret).
Qed.

Lemma transform_init (transforms : list T) garbage :
  transform <$> processingStages (StreamTransform_init transforms garbage) = transforms.
Proof.
  simpl. rewrite fmap_imap. apply list_eq. intros i. rewrite list_lookup_imap.
  destruct (transforms !! i); reflexivity.
Qed.

(** X8. The first call on a stream that [init] has just linked, whatever the
    flags that no constructor sets happen to hold: if it returns, the result
    is made of the templates of the frames of the source, in order, each
    frame passed through the transforms in the order in which they were
    given, and nothing else. *)
Theorem StreamTransform_first_call transforms garbage input d tr s' dst :
  DataSourceManager_open VideoCapture
    (dataSource (readStage (StreamTransform_init transforms garbage))) input = (true, d) ->
  run projectUpdate
    (projectUpdate_enter VideoCapture [input] (StreamTransform_init transforms garbage)).2
    tr s' ->
  caller s' = Returned dst ->
  exists out,
    run_all projectUpdate transforms (emitted VideoCapture input) = Ok out
    /\ length out = length (emitted VideoCapture input)
    /\ dst = concat (data <$> out).
Proof.
  intros Hopen Hrun Hret.
  destruct (projectUpdate_returns _ input d tr s' dst
              (StreamTransform_init_quiescent transforms garbage) Hopen Hrun Hret)
    as (Hall & Hdst & _).
  rewrite transform_init in Hall.
  exists (collectedFrames tr). split; [exact Hall|]. split; [|exact Hdst].
  pose proof (run_all_sequence _ _ _ Hall) as Hseq.
  apply (f_equal length) in Hseq. rewrite !length_fmap in Hseq. exact Hseq.
Qed.

(** X9. [collectedOutput] is never cleared: a second call on the same
    stream returns the whole result of the first call followed by the
    templates collected during the second. *)
Theorem StreamTransform_projectUpdate_accumulates
    s input1 d1 tr1 s1 dst1 input2 d2 tr2 s2 dst2 :
  quiescent s ->
  DataSourceManager_open VideoCapture (dataSource (readStage s)) input1 = (true, d1) ->
  run projectUpdate (projectUpdate_enter VideoCapture [input1] s).2 tr1 s1 ->
  caller s1 = Returned dst1 ->
  DataSourceManager_open VideoCapture (dataSource (readStage s1)) input2 = (true, d2) ->
  run projectUpdate (projectUpdate_enter VideoCapture [input2] s1).2 tr2 s2 ->
  caller s2 = Returned dst2 ->
  dst2 = dst1 ++ concat (data <$> collectedFrames tr2)
  /\ run_all projectUpdate (transform <$> processingStages s1) (emitted VideoCapture input2)
     = Ok (collectedFrames tr2).
Proof.
  intros Hq Hopen1 Hrun1 Hret1 Hopen2 Hrun2 Hret2.
  destruct (projectUpdate_returns s input1 d1 tr1 s1 dst1 Hq Hopen1 Hrun1 Hret1)
    as (_ & _ & Hout1 & Hinv1 & Hterm1).
  destruct (projectUpdate_returns s1 input2 d2 tr2 s2 dst2
              (quiescent_Returned s1 dst1 Hinv1 Hret1 Hterm1) Hopen2 Hrun2 Hret2)
    as (Hall & Hdst & _).
  split; [|exact Hall]. rewrite Hdst, Hout1. reflexivity.
Qed.
Lemma step_no_Logged s t ev s' m :
  step projectUpdate t s = Some (ev, s') -> Logged m ∉ ev.
Proof.
  unfold step, caller_step, stage_step, collection_step, racing_addItem. intros Hstep Hin.
  repeat case_match; simplify_eq; simpl in *;
    repeat match goal with
           | H : _ ∈ [] |- _ => apply elem_of_nil in H; destruct H
           | H : _ ∈ _ :: _ |- _ => apply elem_of_cons in H as [H|H]; try discriminate
           end.
Qed.

Lemma run_no_Logged s tr s' m :
  run projectUpdate s tr s' -> Logged m ∉ tr.
Proof.
  induction 1 as [|s tr s' t ev s'' Hrun IH Hstep]; [apply not_elem_of_nil|].
  rewrite elem_of_app. intros [Hin|Hin]; [exact (IH Hin)|].
  exact (step_no_Logged _ _ _ _ m Hstep Hin).
Qed.

Lemma step_terminated s t why : terminated s = Some why -> step projectUpdate t s = None.
Proof. intros H. unfold step. rewrite H. reflexivity. Qed.

Lemma step_no_qFatal s t ev s' msg :
  step projectUpdate t s = Some (ev, s') -> terminated s' <> Some (qFatal msg).
Proof.
  unfold step. destruct (terminated s) eqn:Hterm; [discriminate|].
  destruct t as [|i| |]; unfold caller_step, stage_step, collection_step, racing_addItem;
    intros Hstep Hfatal; repeat case_match; simplify_eq; simpl in *; congruence.
Qed.

Lemma run_no_qFatal s tr s' :
  (forall msg, terminated s <> Some (qFatal msg)) -> run projectUpdate s tr s' ->
  forall msg, terminated s' <> Some (qFatal msg).
Proof.
  intros Halive Hrun. induction Hrun as [|s tr s' t ev s'' Hrun IH Hstep]; [exact Halive|].
  intros msg. exact (step_no_qFatal _ _ _ _ msg Hstep).
Qed.

(** C10. [StreamTransform::projectUpdate] requires exactly one input
    template.  Called with a list of any other size, in whatever state the
    stream is, it aborts through [qFatal] before anything else happens: the
    buffers, the stages, the source and the collected output are as they
    were, nothing is started and no thread moves afterwards.  Called with
    one template, the abort is out of reach: the message is never written
    and no run ends in [qFatal]. *)
Theorem StreamTransform_projectUpdate_single_template s src :
  (length src <> 1%nat ->
     let entered := projectUpdate_enter VideoCapture src s in
     entered.1 = [Aborted "Expected single template input to stream"]
     /\ terminated entered.2 = Some (qFatal "Expected single template input to stream")
     /\ sharedBuffers entered.2 = sharedBuffers s
     /\ processingStages entered.2 = processingStages s
     /\ readStage entered.2 = readStage s
     /\ collectionStage entered.2 = collectionStage s
     /\ caller entered.2 = caller s
     /\ (forall t, step projectUpdate t entered.2 = None)
     /\ forall tr s', run projectUpdate entered.2 tr s' -> tr = [] /\ s' = entered.2)
  /\ (length src = 1%nat ->
      terminated s = None ->
      forall tr s', run projectUpdate (projectUpdate_enter VideoCapture src s).2 tr s' ->
        (forall msg, terminated s' <> Some (qFatal msg))
        /\ forall msg, Aborted msg ∉ (projectUpdate_enter VideoCapture src s).1 ++ tr).
Proof.
  split.
  - intros Hlen.
    assert (Henter : projectUpdate_enter VideoCapture src s
                     = ([Aborted "Expected single template input to stream"],
                        terminate s (qFatal "Expected single template input to stream"))).
    { destruct src as [|input [|second src]]; [reflexivity|simpl in Hlen; lia|reflexivity]. }
    cbv zeta. rewrite Henter. cbn [fst snd].
    do 7 (split; [reflexivity|]). split.
    + intros t. apply (step_terminated (terminate s _) t _ eq_refl).
    + intros tr s' Hrun. exact (run_terminated (terminate s _) tr s' _ eq_refl Hrun).
  - intros Hlen Halive tr s' Hrun.
    destruct src as [|input [|second src]]; [discriminate Hlen| |discriminate Hlen].
    assert (Hterm : terminated (projectUpdate_enter VideoCapture [input] s).2 = None).
    { unfold projectUpdate_enter.
      destruct (DataSourceManager_open VideoCapture (dataSource (readStage s)) input)
        as [[|] d]; exact Halive. }
    split.
    + apply (run_no_qFatal (projectUpdate_enter VideoCapture [input] s).2 tr s');
        [|exact Hrun].
      intros msg. rewrite Hterm. discriminate.
    + intros msg [Hin|Hin]%elem_of_app; [|exact (run_no_Aborted _ _ _ msg Hrun Hin)].
      unfold projectUpdate_enter in Hin.
      destruct (DataSourceManager_open VideoCapture (dataSource (readStage s)) input)
        as [[|] d]; cbn [fst] in Hin.
      * apply elem_of_app in Hin as [Hin|Hin].
        -- apply list_elem_of_fmap in Hin as (i & Hi & _). discriminate.
        -- apply elem_of_cons in Hin as [Hin|Hin]; [discriminate|].
           apply elem_of_nil in Hin. destruct Hin.
      * apply elem_of_cons in Hin as [Hin|Hin]; [discriminate|].
        apply elem_of_nil in Hin. destruct Hin.
Qed.


Lemma run_stage_total t frames :
  (forall t src, projectUpdate t src <> Throw) ->
  run_stage projectUpdate t frames <> Throw.
Proof.
  intros Hno. revert t. induction frames as [|f frames IH]; intros t; [discriminate|].
  simpl. destruct (projectUpdate t (data f)) as [[t' d]|] eqn:Hp;
    [|destruct (Hno _ _ Hp)].
  specialize (IH t'). destruct (run_stage projectUpdate t' frames); [discriminate|].
  contradiction.
Qed.

Lemma run_all_total ts : forall frames,
  (forall t src, projectUpdate t src <> Throw) ->
  run_all projectUpdate ts frames <> Throw.
Proof.
  induction ts as [|t ts IH]; intros frames Hno; [discriminate|].
  simpl. pose proof (run_stage_total t frames Hno) as Hs.
  destruct (run_stage projectUpdate t frames); [apply IH; exact Hno|contradiction].
Qed.



Lemma closed_addItem input sb : closed (addItem input sb) = closed sb.
Proof. destruct sb as [b|b]; reflexivity. Qed.

Lemma closed_insert (buffers : list SharedBuffer) j b b' :
  buffers !! j = Some b -> closed b' = closed b ->
  closed <$> <[j := b']> buffers = closed <$> buffers.
Proof.
  intros Hb Hc. rewrite list_fmap_insert. apply list_insert_id.
  rewrite list_lookup_fmap, Hb. simpl. rewrite Hc. reflexivity.
Qed.

(** No worker changes the flag of a buffer that says that its input has
    stopped. *)
Lemma worker_step_closed s t ev s' :
  StreamInv s -> t <> MainThread -> step projectUpdate t s = Some (ev, s') ->
  closed <$> sharedBuffers s' = closed <$> sharedBuffers s.
Proof.
  intros Hinv Ht Hstep. unfold step in Hstep.
  destruct (terminated s); [discriminate|].
  destruct (inv_wired s Hinv) as (Hlen & _ & Hcin & Hwire).
  destruct t as [|i| |]; [contradiction| | |].
  - unfold stage_step in Hstep.
    destruct (processingStages s !! i) as [st|] eqn:Hst; [|discriminate].
    destruct (Hwire i st Hst) as [Hin Hout].
    destruct (pc st) eqn:Hpc; [discriminate| |].
    + destruct (sharedBuffers s !! inputBuffer st) as [b|] eqn:Hb;
        [|injection Hstep as <- <-; reflexivity].
      pose proof (consumerPc_stage s i st Hst) as Hp. rewrite <- Hin in Hp.
      destruct (inv_buffers s Hinv _ b _ Hb Hp) as (Hsound & _).
      pose proof (getItem_spec b Hsound) as Hget.
      destruct (getItem b) as [| b' | [item|] b' |]; try discriminate;
        injection Hstep as <- <-; simpl; try reflexivity;
        apply (closed_insert _ _ b b' Hb).
      * apply Hget.
      * apply Hget.
      * destruct Hget as (_ & _ & _ & -> & -> & _). reflexivity.
    + destruct (projectUpdate (transform st) (data currentItem)) as [[t' d']|];
        [|injection Hstep as <- <-; reflexivity].
      destruct (sharedBuffers s !! outputBuffer st) as [b|] eqn:Hb;
        injection Hstep as <- <-; [|reflexivity]. simpl.
      apply (closed_insert _ _ b _ Hb). apply closed_addItem.
  - unfold collection_step in Hstep.
    destruct (collectionPc (collectionStage s)) eqn:Hpc; [discriminate| |].
    + destruct (sharedBuffers s !! collectionInputBuffer (collectionStage s)) as [b|] eqn:Hb;
        [|injection Hstep as <- <-; reflexivity].
      pose proof (consumerPc_collection s) as Hp. rewrite <- Hcin, Hpc in Hp.
      destruct (inv_buffers s Hinv _ b _ Hb Hp) as (Hsound & _).
      pose proof (getItem_spec b Hsound) as Hget.
      destruct (getItem b) as [| b' | [item|] b' |]; try discriminate;
        injection Hstep as <- <-; simpl; try reflexivity;
        apply (closed_insert _ _ b b' Hb).
      * apply Hget.
      * apply Hget.
      * destruct Hget as (_ & _ & _ & -> & -> & _). reflexivity.
    + injection Hstep as <- <-. reflexivity.
  - unfold racing_addItem in Hstep. repeat case_match; simplify_eq. reflexivity.
Qed.

(** A buffer whose input has stopped is one that the caller has stopped. *)
Lemma closed_by_caller s j b :
  StreamInv s -> sharedBuffers s !! j = Some b -> closed b = true ->
  (j < stoppedBuffers s)%nat.
Proof.
  intros Hinv Hb Hc.
  destruct (consumerPc_is_Some s j b (inv_wired s Hinv) Hb) as [p Hp].
  destruct (inv_buffers s Hinv j b p Hb Hp) as (_ & H & _). exact (H Hc).
Qed.


End StreamFacts.

Lemma demo_stream_opens (s : @StreamTransform Z) :
  DataSourceManager_open no_video (dataSource (readStage s)) demo_frames
  = (true, demo_source s).
Proof. reflexivity. Qed.

Lemma demo_run_run limit (s : @StreamTransform Z) :
  run (demo_stage limit) (projectUpdate_enter no_video [demo_frames] s).2
    (demo_run limit s).1 (demo_run limit s).2.
Proof. apply schedule_run. Qed.

Lemma demo_schedule_run limit threads (s : @StreamTransform Z) :
  run (demo_stage limit) (projectUpdate_enter no_video [demo_frames] s).2
    (schedule (demo_stage limit) threads (demo_call s).2).1
    (schedule (demo_stage limit) threads (demo_call s).2).2.
Proof. apply schedule_run. Qed.

Lemma StreamTransform_projectUpdate_collects_witness :
  exists out,
    run_all (demo_stage (-1)) (transform <$> processingStages demo_stream)
      (emitted no_video demo_frames) = Ok out
    /\ collectedFrames (demo_run (-1) demo_stream).1 = out
    /\ sequenceNumber <$> out
       = Z.of_nat <$> seq 0 (length (emitted no_video demo_frames))
    /\ returned (demo_run (-1) demo_stream).2
       = collectedOutput (collectionStage demo_stream) ++ concat (data <$> out)
    /\ quiescent (demo_run (-1) demo_stream).2.
Proof.
  apply (StreamTransform_projectUpdate_collects (demo_stage (-1)) no_video demo_stream
           demo_frames (demo_source demo_stream)
           (demo_run (-1) demo_stream).1 (demo_run (-1) demo_stream).2).
  - apply StreamTransform_init_quiescent.
  - apply demo_stream_opens.
  - apply demo_run_run.
  - vm_compute. reflexivity.
Defined.

Lemma ProcessingStage_run_exception_witness :
  (terminated (demo_run 1 demo_stream).2 = Some Uncaught_exception ->
     run_all (demo_stage 1) (transform <$> processingStages demo_stream)
       (emitted no_video demo_frames) = Throw
     /\ forall t, step (demo_stage 1) t (demo_run 1 demo_stream).2 = None)
  /\ (run_all (demo_stage 1) (transform <$> processingStages demo_stream)
        (emitted no_video demo_frames) = Throw ->
      forall dst, caller (demo_run 1 demo_stream).2 <> Returned dst).
Proof.
  apply (ProcessingStage_run_exception (demo_stage 1) no_video demo_stream demo_frames
           (demo_source demo_stream) (demo_run 1 demo_stream).1 (demo_run 1 demo_stream).2).
  - apply StreamTransform_init_quiescent.
  - apply demo_stream_opens.
  - apply demo_run_run.
Defined.

Lemma StreamTransform_run_safe_witness :
  terminated (schedule (demo_stage (-1)) demo_race (demo_call demo_stream).2).2
  = Some Data_race
  /\ terminated (schedule (demo_stage (-1)) demo_race (demo_call demo_stream).2).2
     <> Some Invalid_access
  /\ (terminated (schedule (demo_stage (-1)) demo_race (demo_call demo_stream).2).2
      = Some Data_race ->
      exists aFrame frame source,
        caller (schedule (demo_stage (-1)) demo_race (demo_call demo_stream).2).2
        = Filling aFrame
        /\ collectionPc
             (collectionStage
                (schedule (demo_stage (-1)) demo_race (demo_call demo_stream).2).2)
           = Holding frame
        /\ actualSource
             (dataSource
                (readStage
                   (schedule (demo_stage (-1)) demo_race (demo_call demo_stream).2).2))
           = Some source
        /\ (ActualSource_getNext source {| sequenceNumber := -1; data := [] |}).1.1
           = false).
Proof.
  split; [vm_compute; reflexivity|].
  apply (StreamTransform_run_safe (demo_stage (-1)) no_video demo_stream demo_frames
           (demo_source demo_stream)
           (schedule (demo_stage (-1)) demo_race (demo_call demo_stream).2).1
           (schedule (demo_stage (-1)) demo_race (demo_call demo_stream).2).2).
  - apply StreamTransform_init_quiescent.
  - apply demo_stream_opens.
  - apply demo_schedule_run.
Defined.

Lemma StreamTransform_drains_in_order_witness :
  drainEvents (demo_run (-1) demo_stream).1
    `prefix_of` drainWave (length (processingStages demo_stream))
  /\ (forall dst, caller (demo_run (-1) demo_stream).2 = Returned dst ->
        drainEvents (demo_run (-1) demo_stream).1
        = drainWave (length (processingStages demo_stream))).
Proof.
  apply (StreamTransform_drains_in_order (demo_stage (-1)) no_video demo_stream demo_frames
           (demo_source demo_stream) (demo_run (-1) demo_stream).1 (demo_run (-1) demo_stream).2).
  - apply StreamTransform_init_quiescent.
  - apply demo_stream_opens.
  - apply demo_run_run.
Defined.

Lemma StreamTransform_projectUpdate_input_size_witness :
  (projectUpdate_enter no_video [demo_frames; demo_frames] demo_stream).1
  = [Aborted "Expected single template input to stream"]
  /\ @nil Event = []
  /\ (projectUpdate_enter no_video [demo_frames; demo_frames] demo_stream).2
     = terminate demo_stream (qFatal "Expected single template input to stream").
Proof.
  apply (StreamTransform_projectUpdate_input_size (demo_stage (-1)) no_video demo_stream
           [demo_frames; demo_frames] []).
  - apply StreamTransform_init_quiescent.
  - apply run_refl.
Defined.

Lemma StreamTransform_projectUpdate_open_failure_witness :
  let input := {| file := File_new "missing.avi"; matrices := [] |} in
  let s1 := (projectUpdate_enter no_video [input] demo_stream).2 in
  (projectUpdate_enter no_video [input] demo_stream).1
  = [Logged (Failed_to_stream "missing.avi")]
  /\ caller s1 = Returned [input]
  /\ sharedBuffers s1 = sharedBuffers demo_stream
  /\ processingStages s1 = processingStages demo_stream
  /\ collectionStage s1 = collectionStage demo_stream
  /\ terminated s1 = None
  /\ DataSourceManager_isOpen (dataSource (readStage s1)) = false
  /\ forall tr s', run (demo_stage (-1)) s1 tr s' -> tr = [] /\ s' = s1.
Proof.
  apply (StreamTransform_projectUpdate_open_failure (demo_stage (-1)) no_video demo_stream
           {| file := File_new "missing.avi"; matrices := [] |}).
  - apply StreamTransform_init_quiescent.
  - reflexivity.
  - reflexivity.
Defined.

Lemma StreamTransform_projectUpdate_joins_witness :
  let s' := (demo_run (-1) demo_stream).2 in
  (forall i st, processingStages s' !! i = Some st -> stopped st = true /\ pc st = Parked)
  /\ collectionStopped (collectionStage s') = true
  /\ (forall j b, sharedBuffers s' !! j = Some b ->
        contents b = [] /\ closed b = true /\ idle b = true)
  /\ forall t, step (demo_stage (-1)) t s' = None.
Proof.
  apply (StreamTransform_projectUpdate_joins (demo_stage (-1)) no_video demo_stream
           demo_frames (demo_source demo_stream)
           (demo_run (-1) demo_stream).1 (demo_run (-1) demo_stream).2
           (returned (demo_run (-1) demo_stream).2)).
  - apply StreamTransform_init_quiescent.
  - apply demo_stream_opens.
  - apply demo_run_run.
  - vm_compute. reflexivity.
Defined.

Lemma StreamTransform_first_call_witness :
  exists out,
    run_all (demo_stage (-1)) [0; 0] (emitted no_video demo_frames) = Ok out
    /\ length out = length (emitted no_video demo_frames)
    /\ returned (demo_run (-1) demo_stream).2 = concat (data <$> out).
Proof.
  apply (StreamTransform_first_call (demo_stage (-1)) no_video [0; 0] demo_garbage demo_frames
           (demo_source demo_stream)
           (demo_run (-1) demo_stream).1 (demo_run (-1) demo_stream).2).
  - apply demo_stream_opens.
  - apply demo_run_run.
  - vm_compute. reflexivity.
Defined.

Lemma StreamTransform_projectUpdate_accumulates_witness :
  returned (demo_run (-1) (demo_run (-1) demo_stream).2).2
  = returned (demo_run (-1) demo_stream).2
    ++ concat (data <$> collectedFrames (demo_run (-1) (demo_run (-1) demo_stream).2).1)
  /\ run_all (demo_stage (-1)) (transform <$> processingStages (demo_run (-1) demo_stream).2)
       (emitted no_video demo_frames)
     = Ok (collectedFrames (demo_run (-1) (demo_run (-1) demo_stream).2).1).
Proof.
  apply (StreamTransform_projectUpdate_accumulates (demo_stage (-1)) no_video demo_stream
           demo_frames (demo_source demo_stream)
           (demo_run (-1) demo_stream).1 (demo_run (-1) demo_stream).2
           (returned (demo_run (-1) demo_stream).2)
           demo_frames (demo_source (demo_run (-1) demo_stream).2)
           (demo_run (-1) (demo_run (-1) demo_stream).2).1
           (demo_run (-1) (demo_run (-1) demo_stream).2).2
           (returned (demo_run (-1) (demo_run (-1) demo_stream).2).2)).
  - apply StreamTransform_init_quiescent.
  - apply demo_stream_opens.
  - apply demo_run_run.
  - vm_compute; reflexivity.
  - apply demo_stream_opens.
  - apply demo_run_run.
  - vm_compute; reflexivity.
Defined.


Lemma demo_single_stream_quiescent : quiescent demo_single_stream.
Proof.
  destruct (StreamTransform_init_quiescent [0; 0] demo_garbage)
    as (Hw & Hterm & Hcaller & _ & Hparked & Hcoll & Hpool).
  split; [|split; [exact Hterm|split; [exact Hcaller|split;
    [|split; [exact Hparked|split; [exact Hcoll|exact Hpool]]]]]].
  - destruct Hw as (_ & Hw). split; [reflexivity|exact Hw].
  - intros [|[|[|j]]] b Hb; simpl in Hb; simplify_eq; split; reflexivity.
Qed.

Lemma StreamTransform_projectUpdate_single_template_witness :
  (let entered := projectUpdate_enter no_video [demo_frames; demo_frames] demo_stream in
   entered.1 = [Aborted "Expected single template input to stream"]
   /\ terminated entered.2 = Some (qFatal "Expected single template input to stream")
   /\ sharedBuffers entered.2 = sharedBuffers demo_stream
   /\ processingStages entered.2 = processingStages demo_stream
   /\ readStage entered.2 = readStage demo_stream
   /\ collectionStage entered.2 = collectionStage demo_stream
   /\ caller entered.2 = caller demo_stream
   /\ (forall t, step (demo_stage (-1)) t entered.2 = None)
   /\ forall tr s', run (demo_stage (-1)) entered.2 tr s' -> tr = [] /\ s' = entered.2)
  /\ (forall msg, terminated (demo_run (-1) demo_stream).2 <> Some (qFatal msg))
  /\ forall msg,
       Aborted msg ∉ (projectUpdate_enter no_video [demo_frames] demo_stream).1
                     ++ (demo_run (-1) demo_stream).1.
Proof.
  split.
  - apply (proj1 (StreamTransform_projectUpdate_single_template (demo_stage (-1)) no_video
                    demo_stream [demo_frames; demo_frames])).
    simpl. lia.
  - apply (proj2 (StreamTransform_projectUpdate_single_template (demo_stage (-1)) no_video
                    demo_stream [demo_frames]) eq_refl eq_refl
                 (demo_run (-1) demo_stream).1 (demo_run (-1) demo_stream).2).
    apply demo_run_run.
Defined.





Lemma demo_batch_run (s : @StreamTransform Z) :
  run demo_batch_stage (projectUpdate_enter no_video [demo_frames] s).2
    (schedule demo_batch_stage (round_robin 40) (demo_call s).2).1
    (schedule demo_batch_stage (round_robin 40) (demo_call s).2).2.
Proof. apply schedule_run. Qed.




(** ** Data sources *)

Lemma deal_remaining : forall fuel a,
  (length (remaining a) <= fuel)%nat -> deal fuel a = remaining a.
Proof.
  induction fuel as [|fuel IH]; intros a Hlen.
  - destruct (remaining a); [reflexivity|simpl in Hlen; lia].
  - simpl.
    pose proof (ActualSource_getNext_remaining a {| sequenceNumber := -1; data := [] |})
      as Hnext.
    destruct (ActualSource_getNext a {| sequenceNumber := -1; data := [] |})
      as [[[|] aFrame] a'].
    + destruct Hnext as (f & Hrem & ->). rewrite Hrem in Hlen |- *. simpl in Hlen.
      rewrite IH by lia. destruct f; reflexivity.
    + destruct Hnext as [-> _]. reflexivity.
Qed.

(** X10. The frames dealt by the two sources.  A template source opened on
    [input] deals the matrices of [input] one by one, in order, numbered
    from 0, each as a template of its own that does not carry the file of
    [input]; a video source deals the frames of the video in order, numbered
    from 0, each with the file of [input].  After the last one [getNext]
    reports the end: asking again deals nothing more. *)
Theorem DataSource_deals input frames fuel :
  (length (matrices input) <= fuel)%nat ->
  (length frames <= fuel)%nat ->
  deal fuel (TemplateDataSource input 0 0)
  = imap (fun k m => {| sequenceNumber := Z.of_nat k; data := [Template_of_mat m] |})
         (matrices input)
  /\ deal fuel (VideoDataSource input (Some frames) 0)
     = imap (fun k m => {| sequenceNumber := Z.of_nat k;
                           data := [Template_of (file input) m] |}) frames.
Proof.
  intros Hm Hf. split.
  - rewrite deal_remaining by (simpl; rewrite length_imap, length_drop; lia).
    reflexivity.
  - rewrite deal_remaining by (simpl; rewrite length_imap; lia). reflexivity.
Qed.

Lemma DataSource_deals_witness :
  deal 5 (TemplateDataSource demo_frames 0 0)
  = [ {| sequenceNumber := 0; data := [Template_of_mat {| pixels := [1] |}] |};
      {| sequenceNumber := 1; data := [Template_of_mat {| pixels := [2] |}] |};
      {| sequenceNumber := 2; data := [Template_of_mat {| pixels := [3] |}] |} ].
Proof.
  destruct (DataSource_deals demo_frames [] 5) as [H _].
  - simpl. lia.
  - simpl. lia.
  - exact H.
Defined.

(** ** Batch apply, whatever the list to fill holds *)

(** X11. [Transform::project(src, dst)] never raises.  It appends one blank
    template per source item to [dst] and then, for every [i], hands
    [src[i]] and slot [i] of [dst] (counted from the front of [dst]) to the
    single-item apply.  The slot is handed over as it was on entry: the old
    [dst[i]] where [dst] was that long, a blank template otherwise, so that
    a transform that adds to its output adds to the old entry.  Afterwards
    the slot holds what the apply left in it or, when the apply raised, the
    file of the item with "FTE" set and no matrix; one diagnostic is written
    per item that raised.  The slots past the source items are not touched:
    with a [dst] that already holds templates, the blank templates stay at
    the end. *)
Theorem Transform_project_batch Globals project n src dst :
  let slots := dst ++ replicate (length src) Template_empty in
  let out := (Transform_project_list project n src dst).1 in
  let log := (Transform_project_list project n src dst).2 in
  length out = (length dst + length src)%nat
  /\ (forall i s, src !! i = Some s ->
        exists d, slots !! i = Some d
          /\ (dst !! i = None -> d = Template_empty)
          /\ out !! i = Some (match project s d with
                              | Ok d' => d'
                              | Throw => failure_marker s
                              end))
  /\ (forall i, (length src <= i)%nat -> out !! i = slots !! i)
  /\ log ≡ₚ concat (zip_with (fun s d => match project s d with
                                         | Ok _ => []
                                         | Throw => [Exception_triggered (file s) n]
                                         end) src slots)
  /\ (forall s, File_getBool Globals (file (failure_marker s)) "FTE" = true
                /\ matrices (failure_marker s) = []
                /\ name (file (failure_marker s)) = name (file s)).
Proof.
  cbv zeta. unfold Transform_project_list.
  set (slots := dst ++ replicate (length src) Template_empty).
  assert (Hlen : length slots = (length dst + length src)%nat).
  { unfold slots. rewrite length_app, length_replicate. reflexivity. }
  rewrite project_slots_snd, project_slots_fst by (rewrite Hlen; lia).
  rewrite drop_0, take_0. cbn [app Nat.add].
  assert (Hzip : length (zip_with (fun s d => (_project project n s d).1) src slots)
                 = length src).
  { rewrite length_zip_with. lia. }
  split; [|split; [|split; [|split]]].
  - rewrite length_app, Hzip, length_drop. lia.
  - intros i s Hs. apply lookup_lt_Some in Hs as Hi.
    destruct (lookup_lt_is_Some_2 slots i) as [d Hd]; [lia|].
    exists d. split; [exact Hd|]. split.
    + intros Hnone. apply lookup_ge_None in Hnone. unfold slots in Hd.
      rewrite lookup_app_r in Hd by exact Hnone.
      apply lookup_replicate in Hd as [-> _]. reflexivity.
    + rewrite lookup_app_l by (rewrite Hzip; exact Hi).
      rewrite lookup_zip_with, Hs, Hd. simpl. rewrite _project_fst. reflexivity.
  - intros i Hi. rewrite lookup_app_r by (rewrite Hzip; exact Hi).
    rewrite Hzip, lookup_drop. f_equal. lia.
  - apply Permutation_refl'. f_equal. apply zip_with_ext; [|reflexivity|reflexivity].
    intros s d. apply _project_snd.
  - intros s. apply failure_marker_FTE.
Qed.
(** ** Files *)

(** X12. Flags of a file.  After [setBool(key, true)] the flag reads
    [true].  After [setBool(key, false)] the key is gone from the file, and
    the flag reads what the global property of that name gives, if there is
    one: clearing a flag on a file does not hide a global flag.  No other
    key is affected. *)
Theorem File_setBool_getBool Globals f key value key' :
  File_getBool Globals (File_setBool f key value) key'
  = if bool_decide (key' = key)
    then value || File_getBool Globals (File_new "") key
    else File_getBool Globals f key'.
Proof.
  destruct (bool_decide (key' = key)) eqn:Hk.
  - apply bool_decide_eq_true in Hk as ->.
    unfold File_getBool, File_setBool, File_contains, File_value, File_new.
    destruct value; simpl.
    + rewrite lookup_insert_eq. reflexivity.
    + rewrite lookup_delete_eq, lookup_empty. reflexivity.
  - apply bool_decide_eq_false in Hk.
    unfold File_getBool, File_setBool, File_contains, File_value.
    destruct value; simpl.
    + rewrite lookup_insert_ne by congruence. reflexivity.
    + rewrite lookup_delete_ne by congruence. reflexivity.
Qed.

Lemma File_eta (f : File) : {| name := name f; m_metadata := m_metadata f |} = f.
Proof. destruct f; reflexivity. Qed.

(** X13. [File::append(other)]: the file without name and metadata is
    neutral on both sides, appending a file to itself changes nothing, the
    metadata of [other] wins on the keys that both files carry, and a file
    whose name is empty or the same as that of the target leaves the name of
    the target alone. *)
Theorem File_append_laws Globals f other :
  File_append Globals (File_new "") other = other
  /\ File_append Globals f (File_new "") = f
  /\ File_append Globals f f = f
  /\ (forall key v, m_metadata other !! key = Some v ->
        m_metadata (File_append Globals f other) !! key = Some v)
  /\ (name other = "" \/ name other = name f ->
      name (File_append Globals f other) = name f
      /\ forall key, m_metadata other !! key = None ->
           m_metadata (File_append Globals f other) !! key = m_metadata f !! key).
Proof.
  split; [|split; [|split; [|split]]].
  - unfold File_append, File_append_metadata, File_new. cbn [name].
    destruct (bool_decide (name other = "")) eqn:Hn;
      [apply bool_decide_eq_true in Hn|apply bool_decide_eq_false in Hn].
    + cbn. rewrite (right_id_L ∅ (∪)). rewrite <- Hn. apply File_eta.
    + rewrite (bool_decide_eq_false_2 ("" = name other)) by congruence.
      rewrite (bool_decide_eq_true_2 ("" = "")) by reflexivity. cbn.
      rewrite (right_id_L ∅ (∪)). apply File_eta.
  - unfold File_append, File_append_metadata, File_new. cbn [name].
    rewrite (bool_decide_eq_true_2 ("" = "")) by reflexivity. cbn.
    rewrite (left_id_L ∅ (∪)). apply File_eta.
  - unfold File_append, File_append_metadata.
    rewrite (bool_decide_eq_true_2 (name f = name f)) by reflexivity.
    rewrite andb_false_r. cbn. rewrite (idemp_L (∪)). apply File_eta.
  - intros key v Hv. unfold File_append, File_append_metadata. cbn [m_metadata].
    apply lookup_union_Some_l. exact Hv.
  - intros Hname. unfold File_append, File_append_metadata.
    assert (Hskip : negb (bool_decide (name other = ""))
                    && negb (bool_decide (name f = name other)) = false).
    { destruct Hname as [H|H].
      - rewrite (bool_decide_eq_true_2 _ H). reflexivity.
      - rewrite (bool_decide_eq_true_2 (name f = name other)) by congruence.
        apply andb_false_r. }
    rewrite Hskip. cbn. split; [reflexivity|].
    intros key Hnone. apply lookup_union_r. exact Hnone.
Qed.

(** ** Downsampling in "at least" mode *)

Section DownsampleAtLeast.
Context {R : Type}.
Variable random_shuffle : forall A : Type, list A -> R -> list A * R.
Variable seedRNG : R -> R.
Variable labelCounts : TemplateList -> bool -> gmap Z Z.
Variable conv : FloatConversions.
Variable Globals : Context.
Hypothesis random_shuffle_permutes :
  forall A (l : list A) (rng : R), (random_shuffle A l rng).1 ≡ₚ l.

Local Abbreviation label := (fun t : Template => narrow (File_label conv Globals (file t))).

Lemma selectLabels_among uniqueLabels transform rng :
  NoDup uniqueLabels ->
  NoDup (selectLabels random_shuffle uniqueLabels transform rng).1
  /\ (selectLabels random_shuffle uniqueLabels transform rng).1 ⊆+ uniqueLabels.
Proof.
  intros Hnd. unfold selectLabels. destruct (_ <? _); [|split; [exact Hnd|reflexivity]].
  pose proof (random_shuffle_permutes Z uniqueLabels rng) as Hp.
  destruct (random_shuffle Z uniqueLabels rng) as [shuffled rng']. simpl in *.
  destruct (QList_mid_prefix shuffled (classes transform)) as [k ->]. split.
  - eapply sublist_NoDup; [|apply sublist_take]. rewrite Hp. exact Hnd.
  - rewrite <- Hp. apply sublist_submseteq, sublist_take.
Qed.

Lemma selectInstances_atLeast templates transform :
  instances transform < 0 ->
  forall selected i rng acc,
    (selectInstances random_shuffle conv Globals templates transform i selected rng acc).1
    ≡ₚ acc ++ concat (imap (fun k sel => pick templates transform (i + k)
                                           <$> labelIndices conv Globals templates sel)
                           selected).
Proof.
  intros Hneg. apply Z.ltb_lt in Hneg.
  induction selected as [|sel selected IH]; intros i rng acc.
  - simpl. rewrite app_nil_r. reflexivity.
  - cbn [selectInstances]. rewrite Hneg.
    pose proof (random_shuffle_permutes nat (labelIndices conv Globals templates sel) rng) as Hp.
    destruct (random_shuffle nat (labelIndices conv Globals templates sel) rng)
      as [indices rng'].
    simpl in Hp. rewrite IH, firstn_all, Hp. cbn [imap concat].
    rewrite Nat.add_0_r, <- app_assoc.
    do 3 f_equiv. apply Permutation_refl'. apply imap_ext. intros k x _. simpl.
    replace (i + S k)%nat with (S (i + k)) by lia. reflexivity.
Qed.

End DownsampleAtLeast.

